(** * The cluster master dispatch engine of automation-client

    A shallow embedding of [ClusterMasterRequestProcessor]
    (lib/internal/transport/express/ExpressRequestProcessor.ts): its
    priority work queue, the two in-flight tables, worker assignment,
    the dispatch step, the handling of worker messages, queue-length
    reporting and the health indicator. *)

From Stdlib Require Import ZArith List String Lia Permutation Bool Sorted.
From stdpp Require Import base list.

Local Open Scope nat_scope.

(** ** TinyQueue

    [messages] is a [TinyQueue] (npm package tinyqueue), a binary
    min-heap stored in an array, ordered by the comparator given to its
    constructor.  [push], [pop], [_up] and [_down] are transcribed from
    the package; the array [data] is a list and the [length] field is
    the length of that list. *)

Module TinyQueue.

Section Heap.

Context {A : Type}.
Variable compare : A -> A -> Z.

(** [_up(pos)]: [while (pos > 0)] moves the hole at [pos] towards the
    root.  Every iteration replaces [pos] by [(pos - 1) >> 1], so
    [pos] iterations are enough; with [pos <= fuel] the loop leaves
    through one of its own exits (see [up_loop_fuel]). *)
Fixpoint up_loop (fuel : nat) (data : list A) (item : A) (pos : nat) : list A :=
  match fuel with
  | O => <[pos := item]> data
  | S fuel' =>
      if 0 <? pos then
        let parent := Nat.shiftr (pos - 1) 1 in
        let current := default item (data !! parent) in
        if (compare item current >=? 0)%Z then <[pos := item]> data
        else up_loop fuel' (<[pos := current]> data) item parent
      else <[pos := item]> data
  end.

(** [const item = data[pos]]; [pos] is always an index of [data]. *)
Definition up (pos : nat) (data : list A) : list A :=
  match data !! pos with
  | Some item => up_loop pos data item pos
  | None => data
  end.

(** [_down(pos)]: [while (pos < halfLength)] moves the hole towards
    the leaves, [pos] growing at every iteration. *)
Fixpoint down_loop (fuel : nat) (data : list A) (item : A) (pos : nat) : list A :=
  let len := length data in
  let halfLength := Nat.shiftr len 1 in
  match fuel with
  | O => <[pos := item]> data
  | S fuel' =>
      if pos <? halfLength then
        let child := Nat.shiftl pos 1 + 1 in
        let right := child + 1 in
        let best := default item (data !! child) in
        let atRight := default item (data !! right) in
        let '(child, best) :=
          if (right <? len) && (compare atRight best <? 0)%Z
          then (right, atRight) else (child, best) in
        if (compare best item >=? 0)%Z then <[pos := item]> data
        else down_loop fuel' (<[pos := best]> data) item child
      else <[pos := item]> data
  end.

Definition down (pos : nat) (data : list A) : list A :=
  match data !! pos with
  | Some item => down_loop (length data - pos) data item pos
  | None => data
  end.

(** [push(item)]: [data.push(item); length++; _up(length - 1)]. *)
Definition push (item : A) (data : list A) : list A :=
  up (length data) (data ++ [item]).

(** [pop()]: [undefined] on the empty queue; otherwise the root, the
    last element taking its place before [_down(0)]. *)
Definition pop (data : list A) : option A * list A :=
  match data with
  | [] => (None, [])
  | top :: _ =>
      let n := length data - 1 in
      let rest := take n data in
      match data !! n with
      | Some bottom =>
          if 0 <? n then (Some top, down 0 (<[0 := bottom]> rest))
          else (Some top, rest)
      | None => (Some top, rest)
      end
  end.

End Heap.

(** The order a heap keeps, for the statements about [push] and [pop]. *)
Section Order.

Context {A : Type}.
Variable compare : A -> A -> Z.

(** [x] may come out before [y]. *)
Definition le (x y : A) : Prop := (compare x y <= 0)%Z.

(** [j] is the left or the right child of [i]. *)
Definition is_child (i j : nat) : Prop := j = 2 * i + 1 \/ j = 2 * i + 2.

(** The heap order: no element may come out before its parent. *)
Definition heap_ordered (l : list A) : Prop :=
  forall i j x y, is_child i j -> l !! i = Some x -> l !! j = Some y -> le x y.

(** The order but for the element at [pos], which has just been placed
    and may have to move up. *)
Definition up_inv (l : list A) (pos : nat) : Prop :=
  (forall i j x y, is_child i j -> j <> pos ->
     l !! i = Some x -> l !! j = Some y -> le x y) /\
  (forall g c x y, is_child g pos -> is_child pos c ->
     l !! g = Some x -> l !! c = Some y -> le x y).

(** The order but for the element at [pos], which may have to move
    down. *)
Definition down_inv (l : list A) (pos : nat) : Prop :=
  (forall i j x y, is_child i j -> i <> pos ->
     l !! i = Some x -> l !! j = Some y -> le x y) /\
  (forall g c x y, is_child g pos -> is_child pos c ->
     l !! g = Some x -> l !! c = Some y -> le x y).

End Order.

End TinyQueue.

(** ** JavaScript [Map<string, V>]

    [commands] and [events] are JavaScript [Map]s: they iterate in
    insertion order, [set] on a present key replaces its value in place
    and [size] counts the entries.  They are association lists in
    insertion order. *)

Module JsMap.

Section Map.

Context {V : Type}.

Definition t := list (string * V).

Definition empty : t := [].

Fixpoint get (k : string) (m : t) : option V :=
  match m with
  | [] => None
  | (k', v) :: m' => if String.eqb k k' then Some v else get k m'
  end.

Definition has (k : string) (m : t) : bool :=
  match get k m with Some _ => true | None => false end.

Fixpoint set (k : string) (v : V) (m : t) : t :=
  match m with
  | [] => [(k, v)]
  | (k', v') :: m' =>
      if String.eqb k k' then (k, v) :: m' else (k', v') :: set k v m'
  end.

Definition delete (k : string) (m : t) : t :=
  List.filter (fun kv => negb (String.eqb k (fst kv))) m.

Definition size (m : t) : nat := length m.

Definition keys (m : t) : list string := map fst m.

End Map.

Arguments t : clear implicits.

End JsMap.

(** ** Data of the master process *)

(** Payloads the engine passes on without looking inside (command and
    event bodies, handler results, registrations), as JSON text. *)
Definition any := string.

(** [msg.context] / [ctx.context]: the automation context; the engine
    reads [invocationId], [correlationId] and [workspaceId] only. *)
Record Context := {
  invocationId : string;
  correlationId : string;
  workspaceId : string
}.

(** A [MessageClient] and a [Deferred] are objects shared by reference:
    they are named by a number. *)
Definition MessageClient := nat.
Definition Deferred := nat.

(** [HandlerContext & AutomationContextAware]. *)
Record HandlerContext := {
  context : Context;
  messageClient : MessageClient
}.

(** [class Dispatched<T>]. *)
Record Dispatched := {
  result : Deferred;
  dispatched_context : HandlerContext
}.

(** [MasterMessage]: [{ type, registration, context, data }]. *)
Record MasterMessage := {
  type : string;
  message_registration : option any;
  message_context : Context;
  data : any
}.

(** [interface MessageType]. *)
Record MessageType := {
  message : MasterMessage;
  dispatched : Dispatched;
  ts : Z
}.

(** The values of [commands] and [events]: [{ dispatched, worker }]. *)
Record PendingEntry := {
  entry_dispatched : Dispatched;
  worker : nat
}.

(** A [cluster.Worker]: its [id] and the truth value of
    [worker.isConnected] as [assignWorker] tests it. The test reads
    the member without calling it, so no handler of the master makes
    it false: every worker the master forks has it true. *)
Record Worker := {
  id : nat;
  isConnected : bool
}.

(** [msg.data] of a [WorkerMessage]: the value itself (a handler
    result, a status payload, an exit code) and, for [atomist:message],
    its [message], [destinations] and [options] properties. *)
Record WorkerData := {
  value : any;
  data_message : any;
  destinations : option (list any);
  options : any
}.

(** [WorkerMessage]: [{ type, context, data, event }], a message as
    the protocol has it: [type], if there is one, is a string, and
    [context] is there. What the handler does with a message that is
    not of this form is in [on_message] below. *)
Record WorkerMessage := {
  worker_type : option string;
  worker_context : Context;
  worker_data : WorkerData;
  event : any
}.

(** Modelled from the spec: [Deferred] (lib/internal/util/Deferred) is
    not among the sources; it is the single-resolution future of the
    specification, where exactly one of resolve and reject takes effect
    and later calls do nothing.  The deferreds the master has created
    are kept in a list, a [Deferred] being an index into it. *)
Inductive DeferredState :=
| Pending
| Resolved (outcome : WorkerData)
| Rejected (outcome : WorkerData).

(** Modelled from the spec: [new Deferred()], a fresh pending future. *)
Definition new_deferred (store : list DeferredState) : Deferred * list DeferredState :=
  (length store, store ++ [Pending]).

(** Modelled from the spec: settling takes effect on a pending future
    only. *)
Definition settle (d : Deferred) (s : DeferredState) (store : list DeferredState)
  : list DeferredState :=
  match store !! d with
  | Some Pending => <[d := s]> store
  | _ => store
  end.

(** Modelled from the spec: [Deferred.resolve(value)]. *)
Definition resolve (d : Deferred) (v : WorkerData) := settle d (Resolved v).

(** Modelled from the spec: [Deferred.reject(error)]. *)
Definition reject (d : Deferred) (v : WorkerData) := settle d (Rejected v).

(** The levels of [logger]. *)
Inductive Level := debug | info | warn | error.

(** What the master does to the world outside its own fields. *)
Inductive Effect :=
| WorkerSend (to : nat) (m : MasterMessage)
| Gauge (stat : string) (v : nat)
| WsSend (payload : WorkerData)
| ClientSend (client : MessageClient) (msg : any) (dests : list any) (opts : any)
| ClientRespond (client : MessageClient) (msg : any) (opts : any)
| Callback (promise : Deferred)
| ResolveOnline (w : nat)
| ProcessExit (code : WorkerData)
| Broadcast (reg : any)
| RegistrationSuccessful
| NamespaceSet (c : Context)
| NamespaceClear
| Fork (w : nat)
| Log (l : Level) (text : string).

(** [HealthStatus] and the value the health indicator returns. *)
Inductive HealthStatus := Up | Down.

Record Health := {
  status : HealthStatus;
  detail_commands : list string;
  detail_events : list string
}.

(** [Math.random()]: a number in the interval from 0 (inclusive) to 1
    (exclusive), as the fraction [num / den]. *)
Record Random := {
  num : N;
  den : N;
  below_one : (num <? den)%N = true
}.

(** [Math.floor(Math.random() * n)]. *)
Definition random_index (rnd : Random) (n : nat) : nat :=
  N.to_nat (num rnd * N.of_nat n / den rnd).

(** Constructor arguments and the [statsd] configuration:
    [configuration.statsd.enabled] and whether [statsd.__instance] is
    there.  [maxConcurrentPerWorker] is a number of messages, a
    natural number. *)
Record Config := {
  numWorkers : nat;
  maxConcurrentPerWorker : nat;
  statsd_enabled : bool;
  statsd_instance : bool
}.

(** The fields of [ClusterMasterRequestProcessor], with the parts of
    the process it reads and writes: [cluster.workers] and the id the
    cluster gives the next worker, the deferreds the master created,
    and the effects so far (latest last).  [WebSocketLifecycle] is not
    among the sources: [connected] is what [webSocketLifecycle.connected()]
    answers, taken to be true from [set(ws)] until [reset()]. *)
Record Master := {
  registration : option any;
  connected : bool;
  commands : JsMap.t PendingEntry;
  events : JsMap.t PendingEntry;
  messages : list MessageType;
  shutdownInitiated : bool;
  workers : list Worker;
  nextWorkerId : nat;
  deferreds : list DeferredState;
  trace : list Effect
}.

(** Assignments to the fields, and [emit] for an effect. *)
Definition set_commands (c : JsMap.t PendingEntry) (st : Master) : Master :=
  {| registration := registration st; connected := connected st;
     commands := c; events := events st; messages := messages st;
     shutdownInitiated := shutdownInitiated st; workers := workers st;
     nextWorkerId := nextWorkerId st; deferreds := deferreds st;
     trace := trace st |}.

Definition set_events (e : JsMap.t PendingEntry) (st : Master) : Master :=
  {| registration := registration st; connected := connected st;
     commands := commands st; events := e; messages := messages st;
     shutdownInitiated := shutdownInitiated st; workers := workers st;
     nextWorkerId := nextWorkerId st; deferreds := deferreds st;
     trace := trace st |}.

Definition set_messages (q : list MessageType) (st : Master) : Master :=
  {| registration := registration st; connected := connected st;
     commands := commands st; events := events st; messages := q;
     shutdownInitiated := shutdownInitiated st; workers := workers st;
     nextWorkerId := nextWorkerId st; deferreds := deferreds st;
     trace := trace st |}.

Definition set_deferreds (d : list DeferredState) (st : Master) : Master :=
  {| registration := registration st; connected := connected st;
     commands := commands st; events := events st; messages := messages st;
     shutdownInitiated := shutdownInitiated st; workers := workers st;
     nextWorkerId := nextWorkerId st; deferreds := d;
     trace := trace st |}.

Definition set_workers (ws : list Worker) (next : nat) (st : Master) : Master :=
  {| registration := registration st; connected := connected st;
     commands := commands st; events := events st; messages := messages st;
     shutdownInitiated := shutdownInitiated st; workers := ws;
     nextWorkerId := next; deferreds := deferreds st;
     trace := trace st |}.

Definition set_session (reg : option any) (conn : bool) (st : Master) : Master :=
  {| registration := reg; connected := conn;
     commands := commands st; events := events st; messages := messages st;
     shutdownInitiated := shutdownInitiated st; workers := workers st;
     nextWorkerId := nextWorkerId st; deferreds := deferreds st;
     trace := trace st |}.

Definition set_shutdownInitiated (b : bool) (st : Master) : Master :=
  {| registration := registration st; connected := connected st;
     commands := commands st; events := events st; messages := messages st;
     shutdownInitiated := b; workers := workers st;
     nextWorkerId := nextWorkerId st; deferreds := deferreds st;
     trace := trace st |}.

Definition emit (e : Effect) (st : Master) : Master :=
  {| registration := registration st; connected := connected st;
     commands := commands st; events := events st; messages := messages st;
     shutdownInitiated := shutdownInitiated st; workers := workers st;
     nextWorkerId := nextWorkerId st; deferreds := deferreds st;
     trace := trace st ++ [e] |}.

(** ** The queue comparator *)

(** The comparator given to [new TinyQueue([], ...)]. *)
Definition compareMessages (a b : MessageType) : Z :=
  if String.eqb (type (message a)) "atomist:command"
     && negb (String.eqb (type (message b)) "atomist:command") then (-1)%Z
  else if negb (String.eqb (type (message a)) "atomist:command")
          && String.eqb (type (message b)) "atomist:command" then 1%Z
  else (ts a - ts b)%Z.

(** ** Reporting *)

(** [reportQueueLength]. *)
Definition reportQueueLength (cfg : Config) (st : Master) : Master :=
  if statsd_enabled cfg then
    if statsd_instance cfg then
      emit (Gauge "work_queue.commands" (JsMap.size (commands st)))
        (emit (Gauge "work_queue.events" (JsMap.size (events st)))
           (emit (Gauge "work_queue.pending" (length (messages st))) st))
    else st
  else st.

(** The function given to [registerHealthIndicator]. *)
Definition healthIndicator (st : Master) : Health :=
  let cmds := JsMap.keys (commands st) in
  let evts := JsMap.keys (events st) in
  if connected st && (match registration st with Some _ => true | None => false end) then
    {| status := Up; detail_commands := cmds; detail_events := evts |}
  else
    {| status := Down; detail_commands := cmds; detail_events := evts |}.

(** ** Worker assignment *)

(** The first loop of [assignWorker]: the workers of [cluster.workers]
    that pass the [isConnected] test, each with [messages: 0]. *)
Definition connectedWorkers (ws : list Worker) : list (Worker * nat) :=
  map (fun w => (w, 0)) (List.filter isConnected ws).

(** [workers.find(w => w.worker.id === e.worker)] followed by
    [worker.messages = worker.messages + 1] on the element found;
    [None] when no element has that id. *)
Fixpoint count_message (wid : nat) (ws : list (Worker * nat))
  : option (list (Worker * nat)) :=
  match ws with
  | [] => None
  | (w, n) :: rest =>
      if id w =? wid then Some ((w, n + 1) :: rest)
      else match count_message wid rest with
           | Some rest' => Some ((w, n) :: rest')
           | None => None
           end
  end.

(** [table.forEach((e, k) => ...)]: counts the entry on its worker, or
    pushes its key on the list of dead entries. *)
Fixpoint scan (table : JsMap.t PendingEntry) (ws : list (Worker * nat))
  (dead : list string) : list (Worker * nat) * list string :=
  match table with
  | [] => (ws, dead)
  | (k, e) :: table' =>
      match count_message (worker e) ws with
      | Some ws' => scan table' ws' dead
      | None => scan table' ws (dead ++ [k])
      end
  end.

(** [dead.forEach(k => table.delete(k))]. *)
Definition delete_all (dead : list string) (table : JsMap.t PendingEntry)
  : JsMap.t PendingEntry :=
  fold_left (fun m k => JsMap.delete k m) dead table.

(** [assignWorker]: the state with the dead entries deleted, and the
    worker chosen, if any. *)
Definition assignWorker (cfg : Config) (rnd : Random) (st : Master)
  : Master * option Worker :=
  let ws := connectedWorkers (workers st) in
  let '(ws, deadEvents) := scan (events st) ws [] in
  let st := set_events (delete_all deadEvents (events st)) st in
  let '(ws, deadCommands) := scan (commands st) ws [] in
  let st := set_commands (delete_all deadCommands (commands st)) st in
  let ws := List.filter (fun w => snd w <? maxConcurrentPerWorker cfg) ws in
  if length ws =? 0 then (st, None)
  else (st, option_map fst (ws !! random_index rnd (length ws))).

(** ** The dispatch step *)

(** The branches of [startMessage] on [message.message.type]: the
    entry goes into [commands], into [events], or nowhere. *)
Definition track (w : Worker) (m : MessageType) (st : Master) : Master :=
  if String.eqb (type (message m)) "atomist:command" then
    emit (Log debug "Incoming command handler request dispatching to worker")
      (set_commands
         (JsMap.set (invocationId (message_context (message m)))
            {| entry_dispatched := dispatched m; worker := id w |}
            (commands st)) st)
  else if String.eqb (type (message m)) "atomist:event" then
    emit (Log debug "Incoming event handler subscription dispatching to worker")
      (set_events
         (JsMap.set (invocationId (message_context (message m)))
            {| entry_dispatched := dispatched m; worker := id w |}
            (events st)) st)
  else st.

(** [startMessage]. *)
Definition startMessage (cfg : Config) (rnd : Random) (st : Master) : Master :=
  let st :=
    if 0 <? length (messages st) then
      let '(st, w) := assignWorker cfg rnd st in
      match w with
      | Some w =>
          match TinyQueue.pop compareMessages (messages st) with
          | (Some m, q) =>
              let st := set_messages q st in
              let st := emit (NamespaceSet (message_context (message m))) st in
              let st := track w m st in
              emit (WorkerSend (id w) (message m)) st
          | (None, _) => st
          end
      | None => st
      end
    else st in
  reportQueueLength cfg st.

(** ** Submission *)

(** [invokeCommand]; [now] is [new Date().getTime()]. *)
Definition invokeCommand (cfg : Config) (ctx : HandlerContext) (command : any)
  (now : Z) (rnd : Random) (st : Master) : Master :=
  let m := {| type := "atomist:command";
              message_registration := registration st;
              message_context := context ctx;
              data := command |} in
  let '(d, store) := new_deferred (deferreds st) in
  let st := set_deferreds store st in
  let item := {| message := m;
                 dispatched := {| result := d; dispatched_context := ctx |};
                 ts := now |} in
  let st := set_messages (TinyQueue.push compareMessages item (messages st)) st in
  let st := emit (Callback d) st in
  startMessage cfg rnd st.

(** [invokeEvent]. *)
Definition invokeEvent (cfg : Config) (ctx : HandlerContext) (ev : any)
  (now : Z) (rnd : Random) (st : Master) : Master :=
  let m := {| type := "atomist:event";
              message_registration := registration st;
              message_context := context ctx;
              data := ev |} in
  let '(d, store) := new_deferred (deferreds st) in
  let st := set_deferreds store st in
  let item := {| message := m;
                 dispatched := {| result := d; dispatched_context := ctx |};
                 ts := now |} in
  let st := set_messages (TinyQueue.push compareMessages item (messages st)) st in
  let st := emit (Callback d) st in
  startMessage cfg rnd st.

(** ** Messages from the workers *)

(** The body shared by the [.then] and [.catch] continuations of the
    four outcome branches: settle and delete the entry if the table has
    the identity, [clearNamespace], [startMessage]. *)
Definition settle_commands (how : Deferred -> WorkerData -> list DeferredState -> list DeferredState)
  (invocation : string) (v : WorkerData) (st : Master) : Master :=
  if JsMap.has invocation (commands st) then
    match JsMap.get invocation (commands st) with
    | Some e =>
        set_commands (JsMap.delete invocation (commands st))
          (set_deferreds (how (result (entry_dispatched e)) v (deferreds st)) st)
    | None => st
    end
  else st.

Definition settle_events (how : Deferred -> WorkerData -> list DeferredState -> list DeferredState)
  (invocation : string) (v : WorkerData) (st : Master) : Master :=
  if JsMap.has invocation (events st) then
    match JsMap.get invocation (events st) with
    | Some e =>
        set_events (JsMap.delete invocation (events st))
          (set_deferreds (how (result (entry_dispatched e)) v (deferreds st)) st)
    | None => st
    end
  else st.

(** The listeners are run first; [listenersOk] tells whether their
    chain of promises was fulfilled ([.then]) or rejected ([.catch],
    which logs and then does the same). *)
Definition after_listeners (listenersOk : bool) (st : Master) : Master :=
  if listenersOk then st
  else emit (Log warn "Failed to run listeners") st.

(** The ["message"] handler that [attachEvents] installs on a worker,
    on a [WorkerMessage]. *)
Definition onWorkerMessage (cfg : Config) (w : nat) (msg : WorkerMessage)
  (listenersOk : bool) (rnd : Random) (st : Master) : Master :=
  match worker_type msg with
  | None => st
  | Some t =>
      if String.eqb t "atomist:online" then emit (ResolveOnline w) st
      else if String.eqb t EmptyString || negb (String.prefix "atomist:" t) then st
      else
        let st := emit (NamespaceSet (worker_context msg)) st in
        let st := emit (Log debug "Received message from worker") st in
        let invocation := invocationId (worker_context msg) in
        let v := worker_data msg in
        if String.eqb t "atomist:message" then
          let found :=
            if JsMap.has invocation (commands st) then
              JsMap.get invocation (commands st)
            else if JsMap.has invocation (events st) then
              JsMap.get invocation (events st)
            else None in
          match found with
          | Some e =>
              let client := messageClient (dispatched_context (entry_dispatched e)) in
              let st :=
                match destinations v with
                | Some (d :: ds) =>
                    emit (ClientSend client (data_message v) (d :: ds) (options v)) st
                | _ => emit (ClientRespond client (data_message v) (options v)) st
                end in
              emit NamespaceClear st
          | None =>
              emit NamespaceClear
                (emit (Log error "Can't handle message from worker due to missing messageClient") st)
          end
        else if String.eqb t "atomist:status" then emit (WsSend v) st
        else if String.eqb t "atomist:command_success" then
          startMessage cfg rnd
            (emit NamespaceClear
               (settle_commands resolve invocation v (after_listeners listenersOk st)))
        else if String.eqb t "atomist:command_failure" then
          startMessage cfg rnd
            (emit NamespaceClear
               (settle_commands reject invocation v (after_listeners listenersOk st)))
        else if String.eqb t "atomist:event_success" then
          startMessage cfg rnd
            (emit NamespaceClear
               (settle_events resolve invocation v (after_listeners listenersOk st)))
        else if String.eqb t "atomist:event_failure" then
          startMessage cfg rnd
            (emit NamespaceClear
               (settle_events reject invocation v (after_listeners listenersOk st)))
        else if String.eqb t "atomist:shutdown" then
          emit (ProcessExit v) (emit (Log info "Shutdown requested from worker") st)
        else st
  end.

(** ** The worker pool *)

(** [cluster.fork()] followed by [attachEvents]: the cluster gives the
    new worker the next id and lists it in [cluster.workers]. *)
Definition fork (st : Master) : Master :=
  emit (Fork (nextWorkerId st))
    (set_workers (workers st ++ [{| id := nextWorkerId st; isConnected := true |}])
       (S (nextWorkerId st)) st).

(** [run()]: forks [numWorkers] workers. *)
Definition run (cfg : Config) (st : Master) : Master :=
  Nat.iter (numWorkers cfg) fork st.

(** [cluster.on("online", ...)]. *)
Definition cluster_online (cfg : Config) (w : nat) (rnd : Random) (st : Master) : Master :=
  startMessage cfg rnd (emit (Log debug "Worker connected") st).

(** [cluster.on("disconnect", ...)]: the handler logs and does nothing
    else; the worker stays listed in [cluster.workers], and what
    [assignWorker] tests of it does not change. *)
Definition cluster_disconnect (w : nat) (st : Master) : Master :=
  emit (Log warn "Worker disconnected") st.

(** [cluster.on("exit", ...)]; the cluster has removed the worker from
    [cluster.workers]. *)
Definition cluster_exit (w : nat) (code : Z) (st : Master) : Master :=
  let st := set_workers (List.filter (fun x => negb (id x =? w)) (workers st))
              (nextWorkerId st) st in
  if negb (code =? 0)%Z && negb (shutdownInitiated st) then
    fork (emit (Log warn "Worker exited. Restarting ...") st)
  else st.

(** ** Registration, connection and shutdown *)

Definition onRegistration (reg : any) (st : Master) : Master :=
  emit (Broadcast reg)
    (set_session (Some reg) (connected st)
       (emit (Log info "Registration successful") st)).

Definition onConnect (st : Master) : Master :=
  emit RegistrationSuccessful
    (set_session (registration st) true
       (emit (Log info "WebSocket connection established. Listening for incoming messages") st)).

Definition onDisconnect (st : Master) : Master :=
  set_session None false st.

(** The hook given to [registerShutdownHook]. *)
Definition shutdownHook (st : Master) : Master :=
  set_shutdownInitiated true st.

(** ** The master as a transition system *)

(** The state the constructor leaves. *)
Definition initial : Master :=
  {| registration := None; connected := false;
     commands := JsMap.empty; events := JsMap.empty; messages := [];
     shutdownInitiated := false; workers := []; nextWorkerId := 1;
     deferreds := []; trace := [] |}.

(** What can happen to the master: its entry points, with the values
    the outside supplies (the clock, the random draw, whether the
    listeners succeeded). *)
Inductive Input :=
| Run
| InvokeCommand (ctx : HandlerContext) (command : any) (now : Z) (rnd : Random)
| InvokeEvent (ctx : HandlerContext) (ev : any) (now : Z) (rnd : Random)
| FromWorker (w : nat) (msg : WorkerMessage) (listenersOk : bool) (rnd : Random)
| ClusterOnline (w : nat) (rnd : Random)
| ClusterDisconnect (w : nat)
| ClusterExit (w : nat) (code : Z)
| Interval
| Registered (reg : any)
| Connected
| Disconnected
| Shutdown.

(** The master's reaction to one input. *)
Definition step (cfg : Config) (st : Master) (i : Input) : Master :=
  match i with
  | Run => run cfg st
  | InvokeCommand ctx command now rnd => invokeCommand cfg ctx command now rnd st
  | InvokeEvent ctx ev now rnd => invokeEvent cfg ctx ev now rnd st
  | FromWorker w msg ok rnd => onWorkerMessage cfg w msg ok rnd st
  | ClusterOnline w rnd => cluster_online cfg w rnd st
  | ClusterDisconnect w => cluster_disconnect w st
  | ClusterExit w code => cluster_exit w code st
  | Interval => reportQueueLength cfg st
  | Registered reg => onRegistration reg st
  | Connected => onConnect st
  | Disconnected => onDisconnect st
  | Shutdown => shutdownHook st
  end.

(** The state after a sequence of inputs, from the constructor's state. *)
Definition run_inputs (cfg : Config) (inputs : list Input) : Master :=
  fold_left (step cfg) inputs initial.

(** The states the master can be in. *)
Inductive reachable (cfg : Config) : Master -> Prop :=
| reachable_initial : reachable cfg initial
| reachable_step st i : reachable cfg st -> reachable cfg (step cfg st i).

(** * Incoming payloads and their message clients *)

(** A call that returns a value or throws. *)
Inductive Outcome (A : Type) :=
| Returns (a : A)
| Throws (e : string).

Arguments Returns {A} a.
Arguments Throws {A} e.

Module Incoming.

(** A JavaScript value, as far as [!!v] tells values apart. [JsNumber]
    holds a number other than [NaN], with 0 for both zeros; [JsObject]
    holds the JSON text of an object or array. *)
Inductive JsValue :=
| JsUndefined
| JsNull
| JsBoolean (b : bool)
| JsNumber (n : Z)
| JsNaN
| JsString (s : string)
| JsObject (json : string).

(** [!!v]. *)
Definition truthy (v : JsValue) : bool :=
  match v with
  | JsUndefined | JsNull | JsNaN => false
  | JsBoolean b => b
  | JsNumber n => negb (n =? 0)%Z
  | JsString s => negb (String.eqb s EmptyString)
  | JsObject _ => true
  end.

(** [Team]. *)
Record Team := { id : string; name : option string }.

(** [Extensions]. *)
Record Extensions := {
  team_id : string;
  team_name : option string;
  operationName : string;
  correlation_id : string
}.

(** A payload as the functions below receive it ([event: any]): the
    fields they read, each of which may be missing. *)
Record Payload := {
  command : JsValue;
  data : JsValue;
  team : option Team;
  extensions : option Extensions
}.

(** [isCommandIncoming]. *)
Definition isCommandIncoming (event : Payload) : bool := truthy (command event).

(** [isEventIncoming]. *)
Definition isEventIncoming (event : Payload) : bool := truthy (data event).

(** [workspaceId]; reading a property of a missing [team] or
    [extensions] throws a [TypeError]. *)
Definition workspaceId (event : Payload) : Outcome (option string) :=
  if isCommandIncoming event then
    match team event with
    | Some t => Returns (Some (id t))
    | None => Throws "TypeError"
    end
  else if isEventIncoming event then
    match extensions event with
    | Some x => Returns (Some (team_id x))
    | None => Throws "TypeError"
    end
  else Returns None.

(** What a message client sends through: the master's
    [webSocketLifecycle], or the web socket of the running client. *)
Inductive Transport :=
| Lifecycle
| Socket (ws : nat).

(** The two message clients, with the payload and the transport they
    are constructed on. *)
Inductive MessageClient :=
| WebSocketCommandMessageClient (event : Payload) (via : Transport)
| WebSocketEventMessageClient (event : Payload) (via : Transport).

(** [ClusterMasterRequestProcessor.createMessageClient]; the function
    returns nothing for a payload of neither kind. *)
Definition createMessageClient (event : Payload) : option MessageClient :=
  if isCommandIncoming event then Some (WebSocketCommandMessageClient event Lifecycle)
  else if isEventIncoming event then Some (WebSocketEventMessageClient event Lifecycle)
  else None.

(** [automationClientInstance().webSocketHandler]: its [webSocket]
    may be missing. *)
Record WebSocketHandler := { webSocket : option nat }.

(** [ExpressMessageClient]. *)
Record ExpressMessageClient := {
  express_event : Payload;
  delegate : option MessageClient
}.

(** [new ExpressMessageClient(event)], with the [webSocketHandler] of
    the client instance at that time. *)
Definition new_ExpressMessageClient (handler : option WebSocketHandler)
  (event : Payload) : ExpressMessageClient :=
  {| express_event := event;
     delegate :=
       match handler with
       | Some h =>
           match webSocket h with
           | Some ws =>
               if isCommandIncoming event
               then Some (WebSocketCommandMessageClient event (Socket ws))
               else if isEventIncoming event
               then Some (WebSocketEventMessageClient event (Socket ws))
               else None
           | None => None
           end
       | None => None
       end |}.

(** The calls an [ExpressMessageClient] makes on its delegate. *)
Inductive Call :=
| Respond (on : MessageClient) (msg : string) (options : option string)
| Send (on : MessageClient) (msg : string) (destinations : list string)
    (options : option string).

(** [ExpressMessageClient.respond]. *)
Definition respond (c : ExpressMessageClient) (msg : string)
  (options : option string) : list Call :=
  match delegate c with
  | Some d => [Respond d msg options]
  | None => []
  end.

(** [ExpressMessageClient.send]. *)
Definition send (c : ExpressMessageClient) (msg : string)
  (destinations : list string) (options : option string) : list Call :=
  match delegate c with
  | Some d => [Send d msg destinations options]
  | None => []
  end.

End Incoming.

(** * Worker messages as they arrive *)

(** What [worker.on("message", ...)] is handed. [message as
    WorkerMessage] is a cast and checks nothing: [type] may hold any
    value and [context] may be missing. [data] is taken to be there;
    the handler reads inside it in the [atomist:message] branch only. *)
Record IpcMessage := {
  ipc_type : Incoming.JsValue;
  ipc_context : option Context;
  ipc_data : WorkerData;
  ipc_event : any
}.

(** [v === s] for a string [s]. *)
Definition strict_eq_string (v : Incoming.JsValue) (s : string) : bool :=
  match v with
  | Incoming.JsString t => String.eqb t s
  | _ => false
  end.

(** The ["message"] handler that [attachEvents] installs on a worker,
    on any message. The tests on [msg.type] come first:
    [msg.type.startsWith] is called on any truthy type, and throws a
    [TypeError] on one that is not a string. A message that passes
    them has its context read ([namespace.get().invocationId],
    [hydrateContext]) before its kind is looked at, which throws a
    [TypeError] when there is none. From there on the message is a
    [WorkerMessage] and the handler goes on as [onWorkerMessage] has
    it. No field of the master is written before either throw; the
    second comes after [namespace.set] and the debug line. *)
Definition on_message (cfg : Config) (w : nat) (msg : IpcMessage)
  (listenersOk : bool) (rnd : Random) (st : Master) : Outcome Master :=
  if strict_eq_string (ipc_type msg) "atomist:online" then
    Returns (emit (ResolveOnline w) st)
  else if negb (Incoming.truthy (ipc_type msg)) then Returns st
  else
    match ipc_type msg with
    | Incoming.JsString t =>
        if negb (String.prefix "atomist:" t) then Returns st
        else
          match ipc_context msg with
          | Some c =>
              Returns (onWorkerMessage cfg w
                         {| worker_type := Some t; worker_context := c;
                            worker_data := ipc_data msg; event := ipc_event msg |}
                         listenersOk rnd st)
          | None => Throws "TypeError"
          end
    | _ => Throws "TypeError"
    end.

(** * Repository filters *)

Module RepoFilters.

(** [RepoId], as far as a filter can tell repositories apart. *)
Record RepoId := { owner : string; repo : string }.

(** How a promise of a boolean settles. *)
Inductive Settled :=
| Resolves (b : bool)
| Rejects.

(** What a [RepoFilter] returns: [boolean | Promise<boolean>]. *)
Inductive Verdict :=
| Now (b : bool)
| Promised (p : Settled).

(** [!!v]: a promise is an object. *)
Definition truthy (v : Verdict) : bool :=
  match v with
  | Now b => b
  | Promised _ => true
  end.

(** [RepoFilter]; the filters are taken to return and to have no
    effect of their own. *)
Definition RepoFilter := RepoId -> Verdict.

(** [AllRepos]. *)
Definition AllRepos : RepoFilter := fun r => Now true.

(** [andFilter]: [a(r) && b(r)] is [a(r)] when that is falsy and
    [b(r)] otherwise. *)
Definition andFilter (a b : RepoFilter) : RepoFilter :=
  fun r => let x := a r in if truthy x then b r else x.

End RepoFilters.

(** * Visibility of the test repositories *)

Module Credentials.

(** [visibility()], with the value of [process.env.GITHUB_VISIBILITY]. *)
Definition visibility (env : option string) : Outcome string :=
  let vis :=
    match env with
    | Some s => if String.eqb s EmptyString then "private"%string else s
    | None => "private"%string
    end in
  if String.eqb vis "public" || String.eqb vis "private" then Returns vis
  else Throws (String.append "GITHUB_VISIBILITY must be public or private. yours is '"
                 (String.append vis "'")).

End Credentials.

(** * Vocabulary of the statements *)

(** ** The queue *)

(** The queues the master can hold: [new TinyQueue([], ...)], then
    [push] and [pop] only. *)
Inductive built : list MessageType -> Prop :=
| built_new : built []
| built_push q item : built q -> built (TinyQueue.push compareMessages item q)
| built_pop q : built q -> built (snd (TinyQueue.pop compareMessages q)).

Definition ordered (q : list MessageType) : Prop :=
  TinyQueue.heap_ordered compareMessages q.

(** ** What the master has sent *)

(** The messages sent to workers, with the worker each went to. *)
Definition sends (t : list Effect) : list (nat * MasterMessage) :=
  flat_map (fun e => match e with WorkerSend w m => [(w, m)] | _ => [] end) t.

(** The invocation identities of the messages sent to workers, in the
    order of sending. *)
Definition dispatch_order (st : Master) : list string :=
  flat_map
    (fun e => match e with
              | WorkerSend _ m => [invocationId (message_context m)]
              | _ => []
              end)
    (trace st).

(** The state [startMessage] reports on when it sends [m] to [w]. *)
Definition sent (w : Worker) (m : MessageType) (q : list MessageType)
  (st : Master) : Master :=
  emit (WorkerSend (id w) (message m))
    (track w m (emit (NamespaceSet (message_context (message m))) (set_messages q st))).

(** ** Workers and their load *)

(** The entries of a table that are assigned to worker [w]. *)
Definition count_worker (w : nat) (table : JsMap.t PendingEntry) : nat :=
  length (List.filter (fun kv => worker (snd kv) =? w) table).

(** The pending entries assigned to worker [w] across both tables. *)
Definition assigned (w : nat) (st : Master) : nat :=
  count_worker w (events st) + count_worker w (commands st).

(** Worker [w] is live: [cluster.workers] lists it and it passes the
    [isConnected] test. *)
Definition live (st : Master) (w : nat) : Prop :=
  exists x, x ∈ workers st /\ id x = w /\ isConnected x = true.

(** The live workers below the limit, in the order of
    [cluster.workers]. *)
Definition eligible (cfg : Config) (st : Master) : list Worker :=
  List.filter
    (fun x => isConnected x && (assigned (id x) st <? maxConcurrentPerWorker cfg))
    (workers st).

Definition worker_ids (ws : list (Worker * nat)) : list nat :=
  map (fun p => id (fst p)) ws.

(** The pool of a reachable master: worker ids are distinct (the
    cluster numbers the workers as it forks them). *)
Definition pool_ok (st : Master) : Prop :=
  NoDup (map id (workers st)) /\
  Forall (fun x => id x < nextWorkerId st) (workers st).

Definition within_limit (cfg : Config) (st : Master) : Prop :=
  forall w, assigned w st <= maxConcurrentPerWorker cfg.

(** The tables of a reachable master hold each key once, as a [Map]
    does. *)
Definition keys_ok (st : Master) : Prop :=
  NoDup (JsMap.keys (commands st)) /\ NoDup (JsMap.keys (events st)).

(** ** Kinds of message *)

(** The kinds of message [onWorkerMessage] has a branch for. *)
Definition recognized : list string :=
  [ "atomist:online"; "atomist:message"; "atomist:status";
    "atomist:command_success"; "atomist:command_failure";
    "atomist:event_success"; "atomist:event_failure"; "atomist:shutdown" ]%string.

(** A message without a type, with a type that lacks the prefix, or of
    a kind that has no branch. *)
Definition unrecognized (msg : WorkerMessage) : Prop :=
  match worker_type msg with
  | None => True
  | Some t => String.prefix "atomist:" t = false \/ t ∉ recognized
  end.

(** Setting the namespace and logging at debug level. *)
Definition quiet (e : Effect) : bool :=
  match e with
  | NamespaceSet _ => true
  | Log debug _ => true
  | _ => false
  end.

(** [messageClient.send] when [msg.data.destinations] is a non-empty
    array, [messageClient.respond] otherwise. *)
Definition forward (client : MessageClient) (v : WorkerData) : Effect :=
  match destinations v with
  | Some (d :: ds) => ClientSend client (data_message v) (d :: ds) (options v)
  | _ => ClientRespond client (data_message v) (options v)
  end.

(** ** Scenarios *)

Definition context_of (invocation : string) : HandlerContext :=
  {| context := {| invocationId := invocation; correlationId := EmptyString;
                   workspaceId := EmptyString |};
     messageClient := 0 |}.

Definition command_item (invocation : string) (t : Z) : MessageType :=
  {| message := {| type := "atomist:command"; message_registration := None;
                   message_context := context (context_of invocation);
                   data := EmptyString |};
     dispatched := {| result := 0; dispatched_context := context_of invocation |};
     ts := t |}.

Definition event_item (invocation : string) (t : Z) : MessageType :=
  {| message := {| type := "atomist:event"; message_registration := None;
                   message_context := context (context_of invocation);
                   data := EmptyString |};
     dispatched := {| result := 0; dispatched_context := context_of invocation |};
     ts := t |}.

Definition half : Random := {| num := 1; den := 2; below_one := eq_refl |}.

Definition reply (kind invocation : string) : WorkerMessage :=
  {| worker_type := Some kind;
     worker_context := context (context_of invocation);
     worker_data := {| value := EmptyString; data_message := EmptyString; destinations := None;
                       options := EmptyString |};
     event := EmptyString |}.

(** One worker that takes one item at a time. The command X keeps it
    busy while the events a, b and c arrive in that order within the
    same millisecond. *)
Definition one_by_one : Config :=
  {| numWorkers := 1; maxConcurrentPerWorker := 1;
     statsd_enabled := false; statsd_instance := false |}.

(** One worker that takes two items at a time. It is given A and B,
    C and D wait, and then it dies; the cluster starts a second one. *)
Definition two_at_a_time : Config :=
  {| numWorkers := 1; maxConcurrentPerWorker := 2;
     statsd_enabled := false; statsd_instance := false |}.

Definition same_millisecond : list Input :=
  [ Run;
    InvokeCommand (context_of "X") EmptyString 4 half;
    InvokeEvent (context_of "a") EmptyString 5 half;
    InvokeEvent (context_of "b") EmptyString 5 half;
    InvokeEvent (context_of "c") EmptyString 5 half;
    FromWorker 1 (reply "atomist:command_success" "X") true half;
    FromWorker 1 (reply "atomist:event_success" "a") true half;
    FromWorker 1 (reply "atomist:event_success" "c") true half ].

Definition worker_replaced : list Input :=
  [ Run;
    InvokeCommand (context_of "A") EmptyString 1 half;
    InvokeCommand (context_of "B") EmptyString 2 half;
    InvokeCommand (context_of "C") EmptyString 3 half;
    InvokeCommand (context_of "D") EmptyString 4 half;
    ClusterExit 1 1 ].

(** The worker is busy with A while B waits. *)
Definition second_waits : list Input :=
  [ Run;
    InvokeCommand (context_of "A") EmptyString 1 half;
    InvokeCommand (context_of "B") EmptyString 2 half ].

(** ** Further vocabulary *)

(** The items [pop] gives when the queue is emptied, in that order;
    [fuel] bounds the number of pops. *)
Fixpoint drain (fuel : nat) (q : list MessageType) : list MessageType :=
  match fuel with
  | O => []
  | S fuel' =>
      match TinyQueue.pop compareMessages q with
      | (Some m, q') => m :: drain fuel' q'
      | (None, _) => []
      end
  end.

(** [a] may be dispatched before [b]. *)
Definition precedes (a b : MessageType) : Prop := (compareMessages a b <= 0)%Z.

(** The submissions so far: one promise is handed out for each. *)
Definition submitted (t : list Effect) : nat :=
  length (List.filter (fun e => match e with Callback _ => true | _ => false end) t).

(** The effects a dispatch step can have. *)
Definition dispatch_effect (e : Effect) : bool :=
  match e with
  | WorkerSend _ _ => true
  | NamespaceSet _ => true
  | Log debug _ => true
  | Gauge _ _ => true
  | _ => false
  end.

(** The effects the handler of a worker message can have apart from
    those of the dispatch step it may run. *)
Definition handler_effect (e : Effect) : bool :=
  match e with
  | WorkerSend _ _ => false
  | Callback _ => false
  | Fork _ => false
  | Broadcast _ => false
  | RegistrationSuccessful => false
  | Gauge _ _ => false
  | _ => true
  end.

(** Two states with the same queue, pool and session. *)
Definition same_outside (st s : Master) : Prop :=
  messages s = messages st /\ workers s = workers st /\
  nextWorkerId s = nextWorkerId st /\ registration s = registration st /\
  connected s = connected st /\ shutdownInitiated s = shutdownInitiated st.

(** The state with another trace. *)
Definition set_trace (t : list Effect) (st : Master) : Master :=
  {| registration := registration st; connected := connected st;
     commands := commands st; events := events st; messages := messages st;
     shutdownInitiated := shutdownInitiated st; workers := workers st;
     nextWorkerId := nextWorkerId st; deferreds := deferreds st;
     trace := t |}.

(** Every effect but a warning in the log. *)
Definition not_warning (e : Effect) : bool :=
  match e with
  | Log warn _ => false
  | _ => true
  end.

(** The four kinds of outcome message: whether the outcome is that of
    a command, and how it settles the deferred result. *)
Definition outcome_kinds
  : list (string * (bool * (Deferred -> WorkerData -> list DeferredState
                            -> list DeferredState))) :=
  [ ("atomist:command_success"%string, (true, resolve));
    ("atomist:command_failure"%string, (true, reject));
    ("atomist:event_success"%string, (false, resolve));
    ("atomist:event_failure"%string, (false, reject)) ].

(** The table of the outcome's class, and the other one. *)
Definition own_table (of_command : bool) (st : Master) : JsMap.t PendingEntry :=
  if of_command then commands st else events st.

Definition other_table (of_command : bool) (st : Master) : JsMap.t PendingEntry :=
  if of_command then events st else commands st.

(** Worker [w] passes the tests of [assignWorker]'s first loop. *)
Definition is_live (st : Master) (w : nat) : bool :=
  existsb (Nat.eqb w) (worker_ids (connectedWorkers (workers st))).

(** ** Promises and who still holds them *)

Definition promise_of_item (m : MessageType) : Deferred := result (dispatched m).

Definition promise_of_entry (kv : string * PendingEntry) : Deferred :=
  result (entry_dispatched (snd kv)).

(** The deferreds the master can still reach: those of the queued
    items and of the entries of the two tables. *)
Definition referenced (st : Master) : list Deferred :=
  map promise_of_item (messages st) ++
  map promise_of_entry (commands st) ++ map promise_of_entry (events st).

(** No deferred is held twice, and those held are pending. *)
Definition refs_ok (st : Master) : Prop :=
  NoDup (referenced st) /\
  forall d, d ∈ referenced st -> deferreds st !! d = Some Pending.

(** From [s] to [s']: the deferreds of [s] that [s] does not hold are
    not held by [s'] either, and are as they were. *)
Definition keeps (s s' : Master) : Prop :=
  refs_ok s' /\
  length (deferreds s) <= length (deferreds s') /\
  forall d, d < length (deferreds s) -> d ∉ referenced s ->
    (d ∉ referenced s') /\ deferreds s' !! d = deferreds s !! d.

(** What [startMessage] can still hold after the purge of a non-empty
    queue's pass. *)
Definition purged_refs (st : Master) : list Deferred :=
  map promise_of_item (messages st) ++
  map promise_of_entry
    (List.filter (fun kv => is_live st (worker (snd kv))) (commands st)) ++
  map promise_of_entry
    (List.filter (fun kv => is_live st (worker (snd kv))) (events st)).

(** ** Messages that need not follow the protocol *)

(** A message the handler passes over: its type is missing or falsy,
    or is a string without the prefix, or is a string of no recognized
    kind on a message that carries a context. *)
Definition ignorable (msg : IpcMessage) : Prop :=
  Incoming.truthy (ipc_type msg) = false \/
  (exists t, ipc_type msg = Incoming.JsString t /\
             String.prefix "atomist:" t = false) \/
  (exists t c, ipc_type msg = Incoming.JsString t /\ (t ∉ recognized) /\
               ipc_context msg = Some c).

(** The type of the message is a string that carries the prefix. *)
Definition prefixed (msg : IpcMessage) : bool :=
  match ipc_type msg with
  | Incoming.JsString t => String.prefix "atomist:" t
  | _ => false
  end.

(** A message of the given type, with or without a context. *)
Definition arriving (type : Incoming.JsValue) (ctx : option Context) : IpcMessage :=
  {| ipc_type := type; ipc_context := ctx;
     ipc_data := {| value := EmptyString; data_message := EmptyString;
                    destinations := None; options := EmptyString |};
     ipc_event := EmptyString |}.

(** * Facts about the queue *)

Module TinyQueueFacts.

Import TinyQueue.

Section Order.

Context {A : Type}.
Variable compare : A -> A -> Z.

Local Abbreviation le := (TinyQueue.le compare).
Local Abbreviation heap_ordered := (TinyQueue.heap_ordered compare).
Local Abbreviation up_inv := (TinyQueue.up_inv compare).
Local Abbreviation down_inv := (TinyQueue.down_inv compare).

(** What the heap needs of a comparator: it is a total preorder. *)
Hypothesis compare_trans : forall x y z, le x y -> le y z -> le x z.
Hypothesis compare_total : forall x y, (0 <= compare x y)%Z -> le y x.

Lemma le_refl x : le x x.
Proof.
  destruct (Z_le_gt_dec (compare x x) 0) as [H | H]; [exact H |].
  apply compare_total. lia.
Qed.

Lemma lt_le x y : (compare x y >=? 0)%Z = false -> le x y.
Proof. unfold TinyQueue.le. intros H. rewrite Z.geb_leb in H. apply Z.leb_gt in H. lia. Qed.

Lemma ge_le x y : (compare x y >=? 0)%Z = true -> le y x.
Proof.
  intros H. apply compare_total. rewrite Z.geb_leb in H. now apply Z.leb_le in H.
Qed.

Lemma shiftr_half n : Nat.shiftr n 1 = n / 2.
Proof. rewrite Nat.shiftr_div_pow2. reflexivity. Qed.

Lemma shiftl_double n : Nat.shiftl n 1 = 2 * n.
Proof. rewrite Nat.shiftl_mul_pow2. simpl. lia. Qed.

Lemma parent_is_child pos : 0 < pos -> is_child (Nat.shiftr (pos - 1) 1) pos.
Proof.
  intros H. rewrite shiftr_half. unfold is_child.
  pose proof (Nat.div_mod_eq (pos - 1) 2) as E.
  pose proof (Nat.mod_upper_bound (pos - 1) 2) as B. lia.
Qed.

Lemma child_parent i j : is_child i j -> i = Nat.shiftr (j - 1) 1.
Proof.
  intros [-> | ->]; rewrite shiftr_half.
  - replace (2 * i + 1 - 1) with (i * 2) by lia. now rewrite Nat.div_mul.
  - replace (2 * i + 2 - 1) with (1 + i * 2) by lia.
    rewrite Nat.div_add by lia. reflexivity.
Qed.

Lemma child_gt i j : is_child i j -> i < j.
Proof. unfold is_child. lia. Qed.

(** Moving the hole from [j] to [i]: what the array holds then. *)
Lemma lookup_moved (l : list A) i j x c k :
  i <> j -> i < length l -> j < length l ->
  <[i := x]> (<[j := c]> l) !! k =
  if decide (k = i) then Some x
  else if decide (k = j) then Some c
  else <[j := x]> l !! k.
Proof.
  intros Hij Hi Hj. destruct (decide (k = i)) as [-> | Hki].
  - apply list_lookup_insert_eq. now rewrite length_insert.
  - rewrite list_lookup_insert_ne by congruence.
    destruct (decide (k = j)) as [-> | Hkj].
    + now apply list_lookup_insert_eq.
    + now rewrite !list_lookup_insert_ne by congruence.
Qed.

Lemma perm_insert_cons (l : list A) j x a :
  j < length l -> x :: <[j := a]> l ≡ₚ a :: <[j := x]> l.
Proof.
  revert j. induction l as [| b l IH]; intros j Hj; simpl in Hj; [lia |].
  destruct j as [| j]; simpl.
  - apply perm_swap.
  - rewrite (perm_swap b x), (perm_swap b a). apply perm_skip, IH. lia.
Qed.

Lemma perm_moved (l : list A) i j x c :
  i <> j -> j < length l -> l !! i = Some c ->
  <[i := x]> (<[j := c]> l) ≡ₚ <[j := x]> l.
Proof.
  revert i j. induction l as [| b l IH]; intros i j Hij Hj Hi; [discriminate |].
  destruct i as [| i], j as [| j]; simpl in *; try congruence.
  - injection Hi as ->. apply perm_insert_cons. lia.
  - rewrite <- (list_insert_id l i c) at 2 by assumption.
    symmetry. apply perm_insert_cons. apply lookup_lt_Some in Hi. exact Hi.
  - apply perm_skip, IH; [congruence | lia | assumption].
Qed.

(** *** [_up] *)

Lemma up_inv_root (l : list A) : up_inv l 0 -> heap_ordered l.
Proof.
  intros [H _] i j x y Hc. apply H; [exact Hc |]. apply child_gt in Hc. lia.
Qed.

Lemma up_inv_done (l : list A) pos p x y :
  up_inv l pos -> is_child p pos -> l !! p = Some x -> l !! pos = Some y ->
  le x y -> heap_ordered l.
Proof.
  intros [H _] Hp Hx Hy Hle i j a b Hc Ha Hb.
  destruct (decide (j = pos)) as [-> | Hj]; [| now apply (H i j)].
  assert (i = p) as -> by (rewrite (child_parent _ _ Hc); symmetry; now apply child_parent).
  congruence.
Qed.

Lemma up_inv_step (data : list A) pos p item current :
  pos < length data -> is_child p pos -> data !! p = Some current ->
  le item current -> up_inv (<[pos := item]> data) pos ->
  up_inv (<[p := item]> (<[pos := current]> data)) p.
Proof.
  intros Hpos Hp Hcur Hle [H1 H2].
  pose proof (child_gt _ _ Hp) as Hlt.
  assert (Hp' : <[pos := item]> data !! p = Some current)
    by (rewrite list_lookup_insert_ne by lia; exact Hcur).
  assert (L : forall k, <[p := item]> (<[pos := current]> data) !! k =
            if decide (k = p) then Some item
            else if decide (k = pos) then Some current
            else <[pos := item]> data !! k)
    by (intros k; apply lookup_moved; lia).
  split.
  - intros i j x y Hc Hj. rewrite !L.
    destruct (decide (j = p)) as [| _]; [contradiction |].
    destruct (decide (i = p)) as [-> | Hi].
    + intros [= <-]. destruct (decide (j = pos)) as [-> | Hjp].
      * now intros [= <-].
      * intros Hy. apply compare_trans with current; [exact Hle |].
        now apply (H1 p j).
    + destruct (decide (i = pos)) as [-> | Hip].
      * intros [= <-]. destruct (decide (j = pos)) as [-> | Hjp].
        { apply child_gt in Hc. lia. }
        intros Hy. now apply (H2 p j).
      * intros Hx. destruct (decide (j = pos)) as [-> | Hjp].
        { exfalso. apply Hi. rewrite (child_parent _ _ Hc). symmetry. now apply child_parent. }
        intros Hy. now apply (H1 i j).
  - intros g c x y Hg Hc. rewrite !L.
    pose proof (child_gt _ _ Hg) as Hgp. pose proof (child_gt _ _ Hc) as Hpc.
    destruct (decide (g = p)) as [| _]; [lia |].
    destruct (decide (g = pos)) as [| _]; [lia |].
    destruct (decide (c = p)) as [| _]; [lia |].
    intros Hx. assert (Hgc : le x current) by (apply (H1 g p); auto; lia).
    destruct (decide (c = pos)) as [-> | Hcp].
    + now intros [= <-].
    + intros Hy. apply compare_trans with current; [exact Hgc |].
      now apply (H1 p c).
Qed.

Lemma up_loop_heap fuel : forall (data : list A) item pos,
  pos <= fuel -> pos < length data ->
  up_inv (<[pos := item]> data) pos ->
  heap_ordered (up_loop compare fuel data item pos).
Proof.
  induction fuel as [| fuel IH]; intros data item pos Hf Hpos Hinv; cbn [up_loop].
  - assert (pos = 0) as -> by lia. now apply up_inv_root.
  - destruct (0 <? pos) eqn:H0.
    2: { apply Nat.ltb_ge in H0. assert (pos = 0) as -> by lia. now apply up_inv_root. }
    apply Nat.ltb_lt in H0.
    pose proof (parent_is_child pos H0) as Hp.
    pose proof (child_gt _ _ Hp) as Hlt.
    destruct (lookup_lt_is_Some_2 data (Nat.shiftr (pos - 1) 1)) as [current Hcur]; [lia |].
    rewrite Hcur. change (default item (Some current)) with current.
    destruct (compare item current >=? 0)%Z eqn:Hcmp.
    + apply (up_inv_done _ pos (Nat.shiftr (pos - 1) 1) current item);
        [exact Hinv | exact Hp | | | now apply ge_le].
      * rewrite list_lookup_insert_ne by lia. exact Hcur.
      * now apply list_lookup_insert_eq.
    + apply IH; [lia | rewrite length_insert; lia |].
      apply up_inv_step; auto. now apply lt_le.
Qed.

Lemma up_loop_perm fuel : forall (data : list A) item pos,
  pos < length data ->
  up_loop compare fuel data item pos ≡ₚ <[pos := item]> data.
Proof.
  induction fuel as [| fuel IH]; intros data item pos Hpos; cbn [up_loop]; [reflexivity |].
  destruct (0 <? pos) eqn:H0; [| reflexivity].
  apply Nat.ltb_lt in H0.
  pose proof (child_gt _ _ (parent_is_child pos H0)) as Hlt.
  destruct (lookup_lt_is_Some_2 data (Nat.shiftr (pos - 1) 1)) as [current Hcur]; [lia |].
  rewrite Hcur. change (default item (Some current)) with current.
  destruct (compare item current >=? 0)%Z; [reflexivity |].
  rewrite IH by (rewrite length_insert; lia).
  apply perm_moved; [lia | exact Hpos | exact Hcur].
Qed.

(** More fuel than [pos] changes nothing: the loop has left by then. *)
Lemma up_loop_fuel fuel : forall fuel' (data : list A) item pos,
  pos <= fuel -> pos <= fuel' ->
  up_loop compare fuel data item pos = up_loop compare fuel' data item pos.
Proof.
  induction fuel as [| fuel IH]; intros fuel' data item pos Hf Hf'.
  - assert (pos = 0) as -> by lia. destruct fuel'; reflexivity.
  - destruct fuel' as [| fuel'].
    + assert (pos = 0) as -> by lia. reflexivity.
    + cbn [up_loop]. destruct (0 <? pos) eqn:H0; [| reflexivity].
      apply Nat.ltb_lt in H0.
      pose proof (child_gt _ _ (parent_is_child pos H0)) as Hlt.
      destruct (compare item _ >=? 0)%Z; [reflexivity |].
      apply IH; lia.
Qed.

(** *** [_down] *)

Lemma down_inv_done (l : list A) pos item :
  down_inv l pos -> l !! pos = Some item ->
  (forall c y, is_child pos c -> l !! c = Some y -> le item y) ->
  heap_ordered l.
Proof.
  intros [H _] Hpos Hch i j x y Hc Hx Hy.
  destruct (decide (i = pos)) as [-> | Hi]; [| now apply (H i j)].
  assert (x = item) as -> by congruence. now apply (Hch j).
Qed.

Lemma down_inv_leaf (l : list A) pos item :
  down_inv l pos -> l !! pos = Some item ->
  Nat.shiftr (length l) 1 <= pos -> heap_ordered l.
Proof.
  intros Hinv Hpos Hhalf. apply (down_inv_done l pos item Hinv Hpos).
  intros c y Hc Hy. apply lookup_lt_Some in Hy. exfalso.
  rewrite shiftr_half in Hhalf.
  pose proof (Nat.div_mod_eq (length l) 2) as E.
  pose proof (Nat.mod_upper_bound (length l) 2) as B.
  destruct Hc; lia.
Qed.

Lemma down_inv_step (data : list A) pos child item best :
  pos < length data -> is_child pos child -> data !! child = Some best ->
  le best item ->
  (forall c y, is_child pos c -> data !! c = Some y -> le best y) ->
  down_inv (<[pos := item]> data) pos ->
  down_inv (<[child := item]> (<[pos := best]> data)) child.
Proof.
  intros Hpos Hch Hbest Hle Hsib [H1 H2].
  pose proof (child_gt _ _ Hch) as Hlt.
  pose proof (lookup_lt_Some _ _ _ Hbest) as Hchild.
  assert (Hbest' : <[pos := item]> data !! child = Some best)
    by (rewrite list_lookup_insert_ne by lia; exact Hbest).
  assert (L : forall k, <[child := item]> (<[pos := best]> data) !! k =
            if decide (k = child) then Some item
            else if decide (k = pos) then Some best
            else <[pos := item]> data !! k)
    by (intros k; apply lookup_moved; lia).
  split.
  - intros i j x y Hc Hi. rewrite !L.
    destruct (decide (i = child)) as [| _]; [contradiction |].
    destruct (decide (i = pos)) as [-> | Hip].
    + intros [= <-]. destruct (decide (j = child)) as [-> | Hjc].
      * now intros [= <-].
      * destruct (decide (j = pos)) as [-> | Hjp].
        { apply child_gt in Hc. lia. }
        rewrite list_lookup_insert_ne by congruence. now apply Hsib.
    + intros Hx. destruct (decide (j = child)) as [-> | Hjc].
      { exfalso. apply Hip. rewrite (child_parent _ _ Hc). symmetry.
        now apply child_parent. }
      destruct (decide (j = pos)) as [-> | Hjp].
      * intros [= <-]. now apply (H2 i child).
      * intros Hy. now apply (H1 i j).
  - intros g c x y Hg Hc. rewrite !L.
    assert (g = pos) as ->
      by (rewrite (child_parent _ _ Hg); symmetry; now apply child_parent).
    pose proof (child_gt _ _ Hc) as Hcc.
    destruct (decide (pos = child)) as [| _]; [lia |].
    destruct (decide (pos = pos)) as [_ |]; [| contradiction].
    intros [= <-].
    destruct (decide (c = child)) as [| _]; [lia |].
    destruct (decide (c = pos)) as [| _]; [lia |].
    intros Hy. apply (H1 child c); auto. lia.
Qed.

(** The child [_down] compares the item with: the smaller of the two,
    the left one when they tie or when there is no right one. *)
Lemma best_child (data : list A) pos item lv :
  data !! (Nat.shiftl pos 1 + 1) = Some lv ->
  let child := Nat.shiftl pos 1 + 1 in
  let right := child + 1 in
  let atRight := default item (data !! right) in
  forall c b,
    (if (right <? length data) && (compare atRight lv <? 0)%Z
     then (right, atRight) else (child, lv)) = (c, b) ->
    is_child pos c /\ data !! c = Some b /\
    (forall k y, is_child pos k -> data !! k = Some y -> le b y).
Proof.
  intros Hl child right atRight c b. subst child right atRight.
  rewrite shiftl_double in *.
  destruct (2 * pos + 1 + 1 <? length data) eqn:Hr; cbn [andb].
  - apply Nat.ltb_lt in Hr.
    destruct (lookup_lt_is_Some_2 data (2 * pos + 1 + 1) Hr) as [rv Hrv].
    rewrite Hrv. change (default item (Some rv)) with rv.
    destruct (compare rv lv <? 0)%Z eqn:Hcmp; intros [= <- <-].
    + apply Z.ltb_lt in Hcmp. split; [right; lia |]. split; [exact Hrv |].
      intros k y [-> | ->] Hy.
      * assert (y = lv) as -> by congruence. unfold TinyQueue.le. lia.
      * replace (2 * pos + 2) with (2 * pos + 1 + 1) in Hy by lia.
        assert (y = rv) as -> by congruence. apply le_refl.
    + apply Z.ltb_ge in Hcmp. split; [left; lia |]. split; [exact Hl |].
      intros k y [-> | ->] Hy.
      * assert (y = lv) as -> by congruence. apply le_refl.
      * replace (2 * pos + 2) with (2 * pos + 1 + 1) in Hy by lia.
        assert (y = rv) as -> by congruence. now apply compare_total.
  - apply Nat.ltb_ge in Hr. intros [= <- <-].
    split; [left; lia |]. split; [exact Hl |].
    intros k y [-> | ->] Hy.
    + assert (y = lv) as -> by congruence. apply le_refl.
    + apply lookup_lt_Some in Hy. lia.
Qed.

Ltac destruct_choice c b H :=
  match goal with
  | |- context [let '(_, _) := ?X in _] => destruct X as [c b] eqn:H
  end.

Lemma down_loop_heap fuel : forall (data : list A) item pos,
  length data - pos <= fuel -> pos < length data ->
  down_inv (<[pos := item]> data) pos ->
  heap_ordered (down_loop compare fuel data item pos).
Proof.
  induction fuel as [| fuel IH]; intros data item pos Hf Hpos Hinv; [lia |].
  cbn [down_loop]. cbv zeta.
  assert (Hitem : <[pos := item]> data !! pos = Some item)
    by now apply list_lookup_insert_eq.
  destruct (pos <? Nat.shiftr (length data) 1) eqn:Hhalf.
  2: { apply Nat.ltb_ge in Hhalf. apply (down_inv_leaf _ pos item); auto.
       now rewrite length_insert. }
  apply Nat.ltb_lt in Hhalf.
  assert (Hleft : Nat.shiftl pos 1 + 1 < length data).
  { rewrite shiftl_double. rewrite shiftr_half in Hhalf.
    pose proof (Nat.div_mod_eq (length data) 2). lia. }
  destruct (lookup_lt_is_Some_2 data (Nat.shiftl pos 1 + 1) Hleft) as [lv Hl].
  rewrite Hl. change (default item (Some lv)) with lv.
  destruct_choice c b Hsel.
  apply (best_child data pos item lv Hl) in Hsel as (Hc & Hb & Hsib).
  pose proof (child_gt _ _ Hc) as Hlt.
  destruct (compare b item >=? 0)%Z eqn:Hcmp.
  - apply (down_inv_done _ pos item Hinv Hitem).
    intros k y Hk Hy. apply compare_trans with b; [now apply ge_le |].
    apply (Hsib k); [exact Hk |].
    rewrite list_lookup_insert_ne in Hy; [exact Hy |].
    apply child_gt in Hk. lia.
  - pose proof (lookup_lt_Some _ _ _ Hb) as Hclen.
    apply IH; [rewrite length_insert; lia | rewrite length_insert; lia |].
    apply down_inv_step; auto. now apply lt_le.
Qed.

Lemma down_loop_perm fuel : forall (data : list A) item pos,
  pos < length data ->
  down_loop compare fuel data item pos ≡ₚ <[pos := item]> data.
Proof.
  induction fuel as [| fuel IH]; intros data item pos Hpos; [reflexivity |].
  cbn [down_loop]. cbv zeta.
  destruct (pos <? Nat.shiftr (length data) 1) eqn:Hhalf; [| reflexivity].
  apply Nat.ltb_lt in Hhalf.
  assert (Hleft : Nat.shiftl pos 1 + 1 < length data).
  { rewrite shiftl_double. rewrite shiftr_half in Hhalf.
    pose proof (Nat.div_mod_eq (length data) 2). lia. }
  destruct (lookup_lt_is_Some_2 data (Nat.shiftl pos 1 + 1) Hleft) as [lv Hl].
  rewrite Hl. change (default item (Some lv)) with lv.
  destruct_choice c b Hsel.
  apply (best_child data pos item lv Hl) in Hsel as (Hc & Hb & _).
  pose proof (child_gt _ _ Hc) as Hlt.
  destruct (compare b item >=? 0)%Z; [reflexivity |].
  pose proof (lookup_lt_Some _ _ _ Hb) as Hclen.
  rewrite IH by (rewrite length_insert; lia).
  apply perm_moved; [lia | exact Hpos | exact Hb].
Qed.

(** More fuel than [length data - pos] changes nothing. *)
Lemma down_loop_fuel fuel : forall fuel' (data : list A) item pos,
  length data - pos <= fuel -> length data - pos <= fuel' ->
  pos < length data ->
  down_loop compare fuel data item pos = down_loop compare fuel' data item pos.
Proof.
  induction fuel as [| fuel IH]; intros fuel' data item pos Hf Hf' Hpos; [lia |].
  destruct fuel' as [| fuel']; [lia |].
  cbn [down_loop]. cbv zeta.
  destruct (pos <? Nat.shiftr (length data) 1) eqn:Hhalf; [| reflexivity].
  apply Nat.ltb_lt in Hhalf.
  assert (Hleft : Nat.shiftl pos 1 + 1 < length data).
  { rewrite shiftl_double. rewrite shiftr_half in Hhalf.
    pose proof (Nat.div_mod_eq (length data) 2). lia. }
  destruct (lookup_lt_is_Some_2 data (Nat.shiftl pos 1 + 1) Hleft) as [lv Hl].
  rewrite Hl. change (default item (Some lv)) with lv.
  destruct_choice c b Hsel.
  apply (best_child data pos item lv Hl) in Hsel as (Hc & Hb & _).
  pose proof (child_gt _ _ Hc) as Hlt.
  pose proof (lookup_lt_Some _ _ _ Hb) as Hclen.
  destruct (compare b item >=? 0)%Z; [reflexivity |].
  apply IH; rewrite length_insert; lia.
Qed.

(** *** [push] and [pop] *)

Lemma heap_ordered_nil : heap_ordered [].
Proof. intros i j x y _ H. discriminate. Qed.

Lemma push_heap_ordered (q : list A) item :
  heap_ordered q -> heap_ordered (push compare item q).
Proof.
  intros Hq. unfold push, up.
  assert (Hlast : (q ++ [item]) !! length q = Some item)
    by (rewrite lookup_app_r by lia; now rewrite Nat.sub_diag).
  rewrite Hlast. apply up_loop_heap; [lia | rewrite length_app; simpl; lia |].
  rewrite list_insert_id by exact Hlast. split.
  - intros i j x y Hc Hj Hx Hy.
    pose proof (child_gt _ _ Hc) as Hlt.
    apply lookup_lt_Some in Hy as Hjlen. rewrite length_app in Hjlen. simpl in Hjlen.
    rewrite lookup_app_l in Hx by lia. rewrite lookup_app_l in Hy by lia.
    now apply (Hq i j).
  - intros g c x y _ Hc _ Hy. apply child_gt in Hc.
    apply lookup_lt_Some in Hy. rewrite length_app in Hy. simpl in Hy. lia.
Qed.

Lemma push_perm (q : list A) item : push compare item q ≡ₚ item :: q.
Proof.
  unfold push, up.
  assert (Hlast : (q ++ [item]) !! length q = Some item)
    by (rewrite lookup_app_r by lia; now rewrite Nat.sub_diag).
  rewrite Hlast, up_loop_perm by (rewrite length_app; simpl; lia).
  rewrite list_insert_id by exact Hlast.
  symmetry. apply Permutation_cons_append.
Qed.

Lemma push_length (q : list A) item : length (push compare item q) = S (length q).
Proof. now rewrite (Permutation_length (push_perm q item)). Qed.

(** In a heap the root may come out before every element. *)
Lemma root_minimal (l : list A) r :
  heap_ordered l -> l !! 0 = Some r ->
  forall j y, l !! j = Some y -> le r y.
Proof.
  intros Hl Hr j. induction j as [j IH] using lt_wf_ind. intros y Hy.
  destruct (decide (j = 0)) as [-> | Hj].
  - assert (y = r) as -> by congruence. apply le_refl.
  - assert (Hc : is_child (Nat.shiftr (j - 1) 1) j) by (apply parent_is_child; lia).
    pose proof (child_gt _ _ Hc) as Hlt.
    destruct (lookup_lt_is_Some_2 l (Nat.shiftr (j - 1) 1)) as [x Hx].
    { apply lookup_lt_Some in Hy. lia. }
    apply compare_trans with x;
      [now apply (IH _ Hlt) | now apply (Hl (Nat.shiftr (j - 1) 1) j)].
Qed.

Lemma pop_nil : pop compare (@nil A) = (None, []).
Proof. reflexivity. Qed.

Lemma pop_spec (q : list A) top q' :
  heap_ordered q -> pop compare q = (Some top, q') ->
  q !! 0 = Some top /\ heap_ordered q' /\ q ≡ₚ top :: q'.
Proof.
  intros Hq. destruct q as [| t tl]; [discriminate |].
  unfold pop. remember (t :: tl) as q eqn:Eq.
  assert (Hlen : length q = S (length tl)) by (subst q; reflexivity).
  assert (Htop : q !! 0 = Some t) by (subst q; reflexivity).
  replace (length q - 1) with (length tl) by lia.
  pose (n := length tl). fold n.
  assert (Hnq : S n = length q) by (subst n; lia).
  destruct (lookup_lt_is_Some_2 q n) as [bottom Hb]; [lia |].
  rewrite Hb.
  assert (Hq' : q = take n q ++ [bottom]).
  { rewrite <- (take_S_r _ _ _ Hb). symmetry. apply take_ge. lia. }
  assert (Hrest : length (take n q) = n) by (apply length_take_le; lia).
  destruct (0 <? n) eqn:Hn.
  2: { apply Nat.ltb_ge in Hn. intros [= <- <-]. split; [exact Htop |].
       assert (Hn0 : n = 0) by lia. rewrite Hn0 in *. rewrite take_0.
       split; [apply heap_ordered_nil |].
       rewrite Hq' at 1. rewrite take_0. simpl.
       assert (bottom = t) as -> by congruence. reflexivity. }
  apply Nat.ltb_lt in Hn. intros [= <- <-]. split; [exact Htop |].
  assert (H0 : <[0 := bottom]> (take n q) !! 0 = Some bottom)
    by (apply list_lookup_insert_eq; lia).
  unfold down. rewrite H0. split.
  - apply down_loop_heap; [lia | rewrite length_insert; lia |].
    rewrite list_insert_id by exact H0. split.
    + intros i j x y Hc Hi Hx Hy. pose proof (child_gt _ _ Hc) as Hlt.
      rewrite list_lookup_insert_ne in Hx by congruence.
      rewrite list_lookup_insert_ne in Hy by lia.
      apply lookup_take_Some in Hx as [Hx _]. apply lookup_take_Some in Hy as [Hy _].
      now apply (Hq i j).
    + intros g c x y Hg. apply child_gt in Hg. lia.
  - rewrite down_loop_perm by (rewrite length_insert; lia).
    rewrite list_insert_id by exact H0.
    rewrite Hq' at 1.
    destruct (take n q) as [| t' rest'] eqn:Et; [simpl in Hrest; lia |].
    assert (t' = t) as ->.
    { assert (H1 : take n q !! 0 = Some t) by (rewrite lookup_take_lt by lia; exact Htop).
      rewrite Et in H1. now injection H1. }
    simpl. apply perm_skip. symmetry. apply Permutation_cons_append.
Qed.

Lemma pop_some (q : list A) :
  q <> [] -> exists top q', pop compare q = (Some top, q').
Proof.
  destruct q as [| t tl]; [congruence |]. intros _. unfold pop.
  destruct (_ !! _); [destruct (0 <? _) |]; eauto.
Qed.

(** What [pop] gives may come out before everything it leaves. *)
Lemma pop_minimal (q : list A) top q' :
  heap_ordered q -> pop compare q = (Some top, q') ->
  forall y, y ∈ q' -> le top y.
Proof.
  intros Hq Hpop y Hy.
  destruct (pop_spec q top q' Hq Hpop) as (Htop & _ & Hperm).
  assert (Hin : y ∈ q) by (rewrite Hperm; now right).
  apply list_elem_of_lookup in Hin as [j Hj].
  now apply (root_minimal q top Hq Htop j).
Qed.

End Order.

End TinyQueueFacts.

(** * The work queue of the master *)

Lemma compareMessages_trans x y z :
  TinyQueue.le compareMessages x y ->
  TinyQueue.le compareMessages y z ->
  TinyQueue.le compareMessages x z.
Proof.
  unfold TinyQueue.le, compareMessages.
  destruct (String.eqb (type (message x)) "atomist:command"),
           (String.eqb (type (message y)) "atomist:command"),
           (String.eqb (type (message z)) "atomist:command"); simpl; lia.
Qed.

Lemma compareMessages_total x y :
  (0 <= compareMessages x y)%Z -> TinyQueue.le compareMessages y x.
Proof.
  unfold TinyQueue.le, compareMessages.
  destruct (String.eqb (type (message x)) "atomist:command"),
           (String.eqb (type (message y)) "atomist:command"); simpl; lia.
Qed.

Lemma built_ordered q : built q -> ordered q.
Proof.
  unfold ordered. induction 1 as [| q item _ IH | q _ IH].
  - exact (TinyQueueFacts.heap_ordered_nil compareMessages).
  - exact (TinyQueueFacts.push_heap_ordered compareMessages compareMessages_trans
             compareMessages_total q item IH).
  - destruct (TinyQueue.pop compareMessages q) as [[top |] q'] eqn:Hpop.
    + apply (TinyQueueFacts.pop_spec compareMessages compareMessages_trans
               compareMessages_total q top q' IH Hpop).
    + destruct q.
      { injection Hpop as <-. exact (TinyQueueFacts.heap_ordered_nil compareMessages). }
      unfold TinyQueue.pop in Hpop.
      destruct (_ !! _); [destruct (0 <? _) |]; discriminate.
Qed.

(** [pop] on a queue of the master: it gives an item that no pending
    item precedes, and leaves the others. *)
Lemma pop_built q :
  built q -> q <> [] ->
  exists top q',
    TinyQueue.pop compareMessages q = (Some top, q') /\
    q ≡ₚ top :: q' /\
    forall y, y ∈ q -> (compareMessages top y <= 0)%Z.
Proof.
  intros Hb Hne. apply built_ordered in Hb.
  destruct (TinyQueueFacts.pop_some compareMessages q Hne) as (top & q' & Hpop).
  exists top, q'. split; [exact Hpop |].
  destruct (TinyQueueFacts.pop_spec compareMessages compareMessages_trans
              compareMessages_total q top q' Hb Hpop) as (Htop & _ & Hperm).
  split; [exact Hperm |]. intros y Hy.
  apply list_elem_of_lookup in Hy as [j Hj].
  exact (TinyQueueFacts.root_minimal compareMessages compareMessages_trans
           compareMessages_total q top Hb Htop j y Hj).
Qed.

(** * What the operations leave alone *)

Lemma assignWorker_tables cfg rnd st :
  events (fst (assignWorker cfg rnd st)) =
    delete_all (snd (scan (events st) (connectedWorkers (workers st)) [])) (events st) /\
  commands (fst (assignWorker cfg rnd st)) =
    delete_all
      (snd (scan (commands st)
              (fst (scan (events st) (connectedWorkers (workers st)) [])) []))
      (commands st).
Proof.
  unfold assignWorker.
  destruct (scan (events st) _ []) as [ws1 dead1].
  cbn [set_events commands fst snd].
  destruct (scan (commands st) ws1 []) as [ws2 dead2].
  destruct (length _ =? 0); simpl; auto.
Qed.

Lemma assignWorker_frame cfg rnd st :
  messages (fst (assignWorker cfg rnd st)) = messages st /\
  deferreds (fst (assignWorker cfg rnd st)) = deferreds st /\
  trace (fst (assignWorker cfg rnd st)) = trace st /\
  workers (fst (assignWorker cfg rnd st)) = workers st /\
  nextWorkerId (fst (assignWorker cfg rnd st)) = nextWorkerId st /\
  registration (fst (assignWorker cfg rnd st)) = registration st /\
  connected (fst (assignWorker cfg rnd st)) = connected st /\
  shutdownInitiated (fst (assignWorker cfg rnd st)) = shutdownInitiated st.
Proof.
  unfold assignWorker.
  destruct (scan (events st) _ []) as [ws1 dead1].
  cbn [set_events commands]. destruct (scan (commands st) ws1 []) as [ws2 dead2].
  destruct (length _ =? 0); simpl; auto 10.
Qed.

Lemma reportQueueLength_frame cfg st :
  messages (reportQueueLength cfg st) = messages st /\
  commands (reportQueueLength cfg st) = commands st /\
  events (reportQueueLength cfg st) = events st /\
  deferreds (reportQueueLength cfg st) = deferreds st /\
  workers (reportQueueLength cfg st) = workers st /\
  nextWorkerId (reportQueueLength cfg st) = nextWorkerId st /\
  registration (reportQueueLength cfg st) = registration st /\
  connected (reportQueueLength cfg st) = connected st /\
  shutdownInitiated (reportQueueLength cfg st) = shutdownInitiated st.
Proof.
  unfold reportQueueLength.
  destruct (statsd_enabled cfg), (statsd_instance cfg); simpl; auto 10.
Qed.

(** The three ways through [startMessage]. *)
Lemma startMessage_cases cfg rnd st :
  (messages st = [] /\ startMessage cfg rnd st = reportQueueLength cfg st) \/
  (messages st <> [] /\ snd (assignWorker cfg rnd st) = None /\
   startMessage cfg rnd st = reportQueueLength cfg (fst (assignWorker cfg rnd st))) \/
  (messages st <> [] /\ exists w m q,
     snd (assignWorker cfg rnd st) = Some w /\
     TinyQueue.pop compareMessages (messages st) = (Some m, q) /\
     startMessage cfg rnd st =
       reportQueueLength cfg (sent w m q (fst (assignWorker cfg rnd st)))).
Proof.
  unfold startMessage. destruct (messages st) as [| m0 q0] eqn:Hq.
  - left. simpl. auto.
  - right. change (0 <? length (m0 :: q0)) with true. cbv iota.
    pose proof (assignWorker_frame cfg rnd st) as (Hm & _).
    destruct (assignWorker cfg rnd st) as [st1 [w |]]; simpl in Hm |- *.
    + right. split; [discriminate |]. rewrite Hm, Hq.
      destruct (TinyQueueFacts.pop_some compareMessages (m0 :: q0)) as (m & q & Hpop);
        [discriminate |].
      rewrite Hpop. exists w, m, q. auto.
    + left. split; [discriminate |]. auto.
Qed.

Lemma track_frame w m st :
  messages (track w m st) = messages st /\
  deferreds (track w m st) = deferreds st /\
  workers (track w m st) = workers st /\
  nextWorkerId (track w m st) = nextWorkerId st /\
  registration (track w m st) = registration st /\
  connected (track w m st) = connected st /\
  shutdownInitiated (track w m st) = shutdownInitiated st.
Proof.
  unfold track.
  destruct (String.eqb _ "atomist:command"); [simpl; auto 10 |].
  destruct (String.eqb _ "atomist:event"); simpl; auto 10.
Qed.

Lemma startMessage_messages cfg rnd st :
  messages (startMessage cfg rnd st) = messages st \/
  messages st <> [] /\
  messages (startMessage cfg rnd st) = snd (TinyQueue.pop compareMessages (messages st)).
Proof.
  pose proof (assignWorker_frame cfg rnd st) as (Hm & _).
  destruct (startMessage_cases cfg rnd st)
    as [[_ ->] | [(_ & _ & ->) | (Hne & w & m & q & _ & Hpop & ->)]];
    rewrite (proj1 (reportQueueLength_frame _ _)); auto.
  right. split; [exact Hne |]. rewrite Hpop. unfold sent. simpl.
  now rewrite (proj1 (track_frame _ _ _)).
Qed.

Lemma startMessage_built cfg rnd st :
  built (messages st) -> built (messages (startMessage cfg rnd st)).
Proof.
  intros Hb. destruct (startMessage_messages cfg rnd st) as [-> | [_ ->]];
    [exact Hb | now apply built_pop].
Qed.

Lemma settle_commands_messages how k v st :
  messages (settle_commands how k v st) = messages st.
Proof.
  unfold settle_commands. destruct (JsMap.has _ _); [| reflexivity].
  destruct (JsMap.get _ _); reflexivity.
Qed.

Lemma settle_events_messages how k v st :
  messages (settle_events how k v st) = messages st.
Proof.
  unfold settle_events. destruct (JsMap.has _ _); [| reflexivity].
  destruct (JsMap.get _ _); reflexivity.
Qed.

Lemma after_listeners_messages ok st :
  messages (after_listeners ok st) = messages st.
Proof. destruct ok; reflexivity. Qed.

Lemma run_messages cfg st : messages (run cfg st) = messages st.
Proof.
  unfold run. induction (numWorkers cfg) as [| n IH]; [reflexivity |].
  simpl. exact IH.
Qed.

Lemma onWorkerMessage_built cfg w msg ok rnd st :
  built (messages st) -> built (messages (onWorkerMessage cfg w msg ok rnd st)).
Proof.
  intros Hb. unfold onWorkerMessage.
  destruct (worker_type msg) as [t |]; [| exact Hb].
  destruct (String.eqb t "atomist:online"); [exact Hb |].
  destruct (String.eqb t EmptyString || negb (String.prefix "atomist:" t)); [exact Hb |].
  cbv zeta.
  destruct (String.eqb t "atomist:message").
  { destruct (if JsMap.has _ _ then _ else _); [| exact Hb].
    destruct (destinations _) as [[| d ds] |]; exact Hb. }
  destruct (String.eqb t "atomist:status"); [exact Hb |].
  destruct (String.eqb t "atomist:command_success").
  { apply startMessage_built. simpl.
    now rewrite settle_commands_messages, after_listeners_messages. }
  destruct (String.eqb t "atomist:command_failure").
  { apply startMessage_built. simpl.
    now rewrite settle_commands_messages, after_listeners_messages. }
  destruct (String.eqb t "atomist:event_success").
  { apply startMessage_built. simpl.
    now rewrite settle_events_messages, after_listeners_messages. }
  destruct (String.eqb t "atomist:event_failure").
  { apply startMessage_built. simpl.
    now rewrite settle_events_messages, after_listeners_messages. }
  destruct (String.eqb t "atomist:shutdown"); exact Hb.
Qed.

(** The queue of a reachable master has only been pushed and popped. *)
Lemma reachable_built cfg st : reachable cfg st -> built (messages st).
Proof.
  induction 1 as [| st i _ IH]; [constructor |].
  destruct i; simpl.
  - now rewrite run_messages.
  - unfold invokeCommand. simpl. apply startMessage_built. simpl. now constructor.
  - unfold invokeEvent. simpl. apply startMessage_built. simpl. now constructor.
  - now apply onWorkerMessage_built.
  - unfold cluster_online. now apply startMessage_built.
  - exact IH.
  - unfold cluster_exit. simpl. destruct (_ && _); exact IH.
  - now rewrite (proj1 (reportQueueLength_frame _ _)).
  - exact IH.
  - exact IH.
  - exact IH.
  - exact IH.
Qed.

(** * Priority between the classes, order within a class *)



(** C2, as the code has it. Of two pending items of one class with
    different timestamps, [pop] does not give the later one: it stays
    in the queue, and what is given instead is no later than the
    earlier one when it is of their class. *)
Theorem earlier_timestamp_dequeued_first (q : list MessageType) (a b : MessageType) :
  built q -> a ∈ q -> b ∈ q ->
  type (message a) = type (message b) -> (ts a < ts b)%Z ->
  exists x q',
    TinyQueue.pop compareMessages q = (Some x, q') /\
    x <> b /\ b ∈ q' /\
    (type (message x) = type (message a) -> (ts x <= ts a)%Z).
Proof.
  intros Hb Ha Hbq Hty Hts.
  destruct (pop_built q Hb) as (x & q' & Hpop & Hperm & Hmin).
  { intros ->. inversion Ha. }
  exists x, q'. split; [exact Hpop |].
  pose proof (Hmin a Ha) as Hxa. unfold compareMessages in Hxa.
  assert (Hne : x <> b).
  { intros ->. rewrite Hty in Hxa.
    destruct (String.eqb (type (message b)) "atomist:command"); simpl in Hxa; lia. }
  split; [exact Hne |]. split.
  - rewrite Hperm in Hbq. apply elem_of_cons in Hbq as [-> | Hin];
      [congruence | exact Hin].
  - intros Hx. rewrite Hx in Hxa.
    destruct (String.eqb (type (message a)) "atomist:command"); simpl in Hxa; lia.
Qed.

Lemma earlier_timestamp_dequeued_first_witness :
  exists x q',
    TinyQueue.pop compareMessages
      (TinyQueue.push compareMessages (event_item "a" 1)
         (TinyQueue.push compareMessages (event_item "b" 2) [])) = (Some x, q') /\
    x <> event_item "b" 2 /\ event_item "b" 2 ∈ q' /\
    (type (message x) = type (message (event_item "a" 1)) -> (ts x <= 1)%Z).
Proof.
  apply (earlier_timestamp_dequeued_first _ (event_item "a" 1) (event_item "b" 2)).
  - apply built_push, built_push, built_new.
  - vm_compute. apply list_elem_of_here.
  - vm_compute. apply list_elem_of_further, list_elem_of_here.
  - reflexivity.
  - reflexivity.
Defined.

(** C2 as stated fails: c is dispatched before b, which arrived
    before it. *)
Lemma same_millisecond_out_of_order :
  dispatch_order (run_inputs one_by_one same_millisecond) = ["X"; "a"; "c"; "b"]%string.
Proof. vm_compute. reflexivity. Qed.

(** * The dispatch step *)

Lemma sends_app t1 t2 : sends (t1 ++ t2) = sends t1 ++ sends t2.
Proof. unfold sends. apply flat_map_app. Qed.

Lemma reportQueueLength_sends cfg st :
  sends (trace (reportQueueLength cfg st)) = sends (trace st).
Proof.
  unfold reportQueueLength.
  destruct (statsd_enabled cfg), (statsd_instance cfg); simpl; auto.
  rewrite !sends_app. simpl. now rewrite !app_nil_r.
Qed.


Lemma get_set_ne {V} k k' (v : V) m :
  k <> k' -> JsMap.get k' (JsMap.set k v m) = JsMap.get k' m.
Proof.
  intros Hne. induction m as [| [k0 v0] m IH]; simpl.
  - destruct (String.eqb k' k) eqn:E; [| reflexivity].
    apply String.eqb_eq in E. congruence.
  - destruct (String.eqb k k0) eqn:E; simpl.
    + apply String.eqb_eq in E. subst k0.
      destruct (String.eqb k' k) eqn:E'; [| reflexivity].
      apply String.eqb_eq in E'. congruence.
    + now rewrite IH.
Qed.



Lemma track_sends w m st : sends (trace (track w m st)) = sends (trace st).
Proof.
  unfold track.
  destruct (String.eqb _ "atomist:command");
    [simpl; rewrite sends_app; simpl; apply app_nil_r |].
  destruct (String.eqb _ "atomist:event");
    [simpl; rewrite sends_app; simpl; apply app_nil_r | reflexivity].
Qed.

Lemma reachable_fold cfg inputs : forall st,
  reachable cfg st -> reachable cfg (fold_left (step cfg) inputs st).
Proof.
  induction inputs as [| i inputs IH]; intros st Hst; simpl; [exact Hst |].
  apply IH. now constructor.
Qed.

Lemma reachable_run_inputs cfg inputs : reachable cfg (run_inputs cfg inputs).
Proof. apply reachable_fold. constructor. Qed.




(** * Worker assignment *)

Lemma count_worker_cons w k e table :
  count_worker w ((k, e) :: table) =
  (if worker e =? w then 1 else 0) + count_worker w table.
Proof. unfold count_worker. simpl. destruct (worker e =? w); reflexivity. Qed.

Lemma count_worker_delete w k table :
  count_worker w (JsMap.delete k table) <= count_worker w table.
Proof.
  induction table as [| [k' e] table IH]; [reflexivity |].
  unfold JsMap.delete in *. simpl. rewrite count_worker_cons.
  destruct (negb (String.eqb k k')); [rewrite count_worker_cons |]; lia.
Qed.

Lemma count_worker_delete_all w dead : forall table,
  count_worker w (delete_all dead table) <= count_worker w table.
Proof.
  induction dead as [| k dead IH]; intros table; simpl; [reflexivity |].
  etransitivity; [apply IH | apply count_worker_delete].
Qed.

Lemma count_worker_set w k e table :
  count_worker w (JsMap.set k e table) <=
  (if worker e =? w then 1 else 0) + count_worker w table.
Proof.
  induction table as [| [k' e'] table IH]; simpl.
  - rewrite count_worker_cons. reflexivity.
  - destruct (String.eqb k k'); rewrite !count_worker_cons; lia.
Qed.

(** [count_message] on workers with distinct ids. *)
Lemma count_message_found wid : forall ws,
  NoDup (worker_ids ws) -> wid ∈ worker_ids ws ->
  count_message wid ws =
    Some (map (fun p => (fst p, snd p + (if id (fst p) =? wid then 1 else 0))) ws).
Proof.
  induction ws as [| [w n] ws IH]; intros Hnd Hin; [inversion Hin |].
  simpl in *. apply NoDup_cons in Hnd as [Hw Hnd].
  destruct (id w =? wid) eqn:E.
  - apply Nat.eqb_eq in E. f_equal. f_equal.
    rewrite <- (map_id ws) at 1. apply map_ext_in. intros [w' n'] Hin'. simpl.
    destruct (id w' =? wid) eqn:E'; [| f_equal; lia].
    apply Nat.eqb_eq in E'. exfalso. apply Hw. rewrite E, <- E'.
    apply list_elem_of_In. apply (in_map (fun p => id (fst p)) ws (w', n') Hin').
  - apply elem_of_cons in Hin as [-> | Hin]; [rewrite Nat.eqb_refl in E; discriminate |].
    rewrite (IH Hnd Hin). f_equal. f_equal. f_equal. lia.
Qed.

Lemma count_message_missing wid : forall ws,
  wid ∉ worker_ids ws -> count_message wid ws = None.
Proof.
  induction ws as [| [w n] ws IH]; intros Hin; [reflexivity |].
  simpl in *. apply not_elem_of_cons in Hin as [Hne Hin].
  destruct (id w =? wid) eqn:E; [apply Nat.eqb_eq in E; congruence |].
  now rewrite (IH Hin).
Qed.

Lemma worker_ids_counted (f : Worker * nat -> nat) ws :
  worker_ids (map (fun p => (fst p, f p)) ws) = worker_ids ws.
Proof. unfold worker_ids. rewrite map_map. reflexivity. Qed.

(** [scan] on workers with distinct ids: every worker's count grows by
    the number of entries assigned to it. *)
Lemma scan_counts : forall table ws dead,
  NoDup (worker_ids ws) ->
  fst (scan table ws dead) =
    map (fun p => (fst p, snd p + count_worker (id (fst p)) table)) ws.
Proof.
  induction table as [| [k e] table IH]; intros ws dead Hnd.
  - simpl. rewrite <- (map_id ws) at 1. apply map_ext. intros [w n]. simpl.
    f_equal. unfold count_worker. simpl. lia.
  - simpl. destruct (decide (worker e ∈ worker_ids ws)) as [Hin | Hin].
    + rewrite (count_message_found _ _ Hnd Hin).
      rewrite IH by (now rewrite worker_ids_counted).
      rewrite map_map. apply map_ext. intros [w n]. simpl.
      rewrite count_worker_cons. rewrite (Nat.eqb_sym (worker e)). f_equal. lia.
    + rewrite (count_message_missing _ _ Hin). rewrite IH by exact Hnd.
      apply map_ext_in. intros [w n] Hw. simpl. rewrite count_worker_cons.
      destruct (worker e =? id w) eqn:E; [| reflexivity].
      apply Nat.eqb_eq in E. exfalso. apply Hin. rewrite E.
      apply list_elem_of_In. apply (in_map (fun p => id (fst p)) ws (w, n) Hw).
Qed.

Lemma filter_map_pair {B C} (f : B -> C) (P : C -> bool) l :
  List.filter P (map f l) = map f (List.filter (fun x => P (f x)) l).
Proof.
  induction l as [| x l IH]; [reflexivity |]. simpl.
  destruct (P (f x)); simpl; now rewrite IH.
Qed.

Lemma filter_both {B} (P Q : B -> bool) l :
  List.filter Q (List.filter P l) = List.filter (fun x => P x && Q x) l.
Proof.
  induction l as [| x l IH]; [reflexivity |]. simpl.
  destruct (P x); simpl; [destruct (Q x) |]; now rewrite IH.
Qed.

Lemma lookup_map {B C} (f : B -> C) l i :
  map f l !! i = option_map f (l !! i).
Proof.
  revert i. induction l as [| x l IH]; intros [| i]; simpl; auto.
Qed.

Lemma NoDup_map_filter {B C} (f : B -> C) (P : B -> bool) l :
  NoDup (map f l) -> NoDup (map f (List.filter P l)).
Proof.
  induction l as [| x l IH]; [auto |]. simpl. intros Hnd.
  apply NoDup_cons in Hnd as [Hx Hnd]. destruct (P x); [| auto].
  simpl. apply NoDup_cons. split; [| auto].
  intros Hin. apply Hx. apply list_elem_of_In in Hin. apply list_elem_of_In.
  apply in_map_iff in Hin as (y & Hy & Hin). apply in_map_iff. exists y.
  split; [exact Hy |]. apply filter_In in Hin. tauto.
Qed.

(** The counts [assignWorker] holds after its two scans. *)
Lemma assignWorker_counts st :
  NoDup (map id (workers st)) ->
  fst (scan (commands st)
         (fst (scan (events st) (connectedWorkers (workers st)) [])) []) =
  map (fun x => (x, assigned (id x) st)) (List.filter isConnected (workers st)).
Proof.
  intros Hnd.
  assert (Hids : worker_ids (connectedWorkers (workers st)) =
                 map id (List.filter isConnected (workers st))).
  { unfold worker_ids, connectedWorkers. rewrite map_map. reflexivity. }
  assert (Hnd0 : NoDup (worker_ids (connectedWorkers (workers st)))).
  { rewrite Hids. now apply NoDup_map_filter. }
  rewrite (scan_counts (events st) _ [] Hnd0).
  rewrite scan_counts by (now rewrite worker_ids_counted).
  unfold connectedWorkers. rewrite !map_map. apply map_ext. intros x. simpl.
  reflexivity.
Qed.


(** What [assignWorker] returns: the eligible worker the draw points
    at. *)
Lemma assignWorker_choice cfg rnd st :
  NoDup (map id (workers st)) ->
  snd (assignWorker cfg rnd st) =
    eligible cfg st !! random_index rnd (length (eligible cfg st)).
Proof.
  intros Hnd. pose proof (assignWorker_counts st Hnd) as Hc.
  unfold assignWorker.
  destruct (scan (events st) _ []) as [ws1 dead1].
  cbn [set_events commands fst snd] in *.
  destruct (scan (commands st) ws1 []) as [ws2 dead2].
  cbn [fst] in Hc. subst ws2.
  rewrite filter_map_pair. cbn [snd].
  rewrite filter_both.
  change (List.filter _ (workers st)) with (eligible cfg st).
  rewrite length_map.
  destruct (length (eligible cfg st) =? 0) eqn:E; cbn [snd].
  - apply Nat.eqb_eq in E. symmetry. apply lookup_ge_None. lia.
  - rewrite lookup_map. destruct (_ !! _); reflexivity.
Qed.

Lemma startMessage_frame cfg rnd st :
  deferreds (startMessage cfg rnd st) = deferreds st /\
  workers (startMessage cfg rnd st) = workers st /\
  nextWorkerId (startMessage cfg rnd st) = nextWorkerId st /\
  registration (startMessage cfg rnd st) = registration st /\
  connected (startMessage cfg rnd st) = connected st /\
  shutdownInitiated (startMessage cfg rnd st) = shutdownInitiated st.
Proof.
  destruct (assignWorker_frame cfg rnd st) as (_ & Hd & _ & Hw & Hn & Hr & Hc & Hs).
  destruct (startMessage_cases cfg rnd st)
    as [[_ ->] | [(_ & _ & ->) | (_ & w & m & q & _ & _ & ->)]].
  - destruct (reportQueueLength_frame cfg st) as (_ & _ & _ & -> & -> & -> & -> & -> & ->).
    auto 10.
  - destruct (reportQueueLength_frame cfg (fst (assignWorker cfg rnd st)))
      as (_ & _ & _ & -> & -> & -> & -> & -> & ->).
    auto 10.
  - destruct (reportQueueLength_frame cfg (sent w m q (fst (assignWorker cfg rnd st))))
      as (_ & _ & _ & -> & -> & -> & -> & -> & ->).
    unfold sent. simpl.
    destruct (track_frame w m
                (emit (NamespaceSet (message_context (message m)))
                   (set_messages q (fst (assignWorker cfg rnd st)))))
      as (_ & -> & -> & -> & -> & -> & ->).
    simpl. auto 10.
Qed.

Lemma assignWorker_assigned cfg rnd st w :
  assigned w (fst (assignWorker cfg rnd st)) <= assigned w st.
Proof.
  unfold assigned. destruct (assignWorker_tables cfg rnd st) as [-> ->].
  pose proof (count_worker_delete_all w
                (snd (scan (events st) (connectedWorkers (workers st)) [])) (events st)).
  pose proof (count_worker_delete_all w
                (snd (scan (commands st)
                        (fst (scan (events st) (connectedWorkers (workers st)) [])) []))
                (commands st)).
  lia.
Qed.

Lemma track_assigned w m st w' :
  assigned w' (track w m st) <= (if id w =? w' then 1 else 0) + assigned w' st.
Proof.
  unfold track, assigned.
  destruct (String.eqb _ "atomist:command").
  { simpl. pose proof (count_worker_set w' (invocationId (message_context (message m)))
      {| entry_dispatched := dispatched m; worker := id w |} (commands st)) as H.
    simpl in H. lia. }
  destruct (String.eqb _ "atomist:event").
  { simpl. pose proof (count_worker_set w' (invocationId (message_context (message m)))
      {| entry_dispatched := dispatched m; worker := id w |} (events st)) as H.
    simpl in H. lia. }
  lia.
Qed.

Lemma eligible_spec cfg st x :
  x ∈ eligible cfg st <->
  x ∈ workers st /\ isConnected x = true /\
  assigned (id x) st < maxConcurrentPerWorker cfg.
Proof.
  unfold eligible. rewrite !list_elem_of_In, filter_In, andb_true_iff, Nat.ltb_lt.
  tauto.
Qed.

(** The dispatch step keeps every worker within the limit. *)
Lemma startMessage_assigned cfg rnd st :
  NoDup (map id (workers st)) ->
  (forall w, assigned w st <= maxConcurrentPerWorker cfg) ->
  forall w, assigned w (startMessage cfg rnd st) <= maxConcurrentPerWorker cfg.
Proof.
  intros Hnd Hinv w'.
  assert (Hrep : forall s, assigned w' (reportQueueLength cfg s) = assigned w' s).
  { intros s. unfold assigned.
    now destruct (reportQueueLength_frame cfg s) as (_ & -> & -> & _). }
  pose proof (assignWorker_assigned cfg rnd st) as Hle.
  destruct (startMessage_cases cfg rnd st)
    as [[_ ->] | [(_ & _ & ->) | (_ & w & m & q & Hw & _ & ->)]]; rewrite Hrep.
  - apply Hinv.
  - specialize (Hle w'). specialize (Hinv w'). lia.
  - unfold sent.
    change (assigned w' (emit ?e ?s)) with (assigned w' s).
    etransitivity; [apply track_assigned |].
    change (assigned w' (emit ?e (set_messages ?q ?s))) with (assigned w' s).
    rewrite (assignWorker_choice cfg rnd st Hnd) in Hw.
    assert (Hel : w ∈ eligible cfg st) by (apply list_elem_of_lookup; eauto).
    apply eligible_spec in Hel as (_ & _ & Hlt).
    destruct (id w =? w') eqn:E.
    + apply Nat.eqb_eq in E. subst w'. specialize (Hle (id w)). lia.
    + specialize (Hle w'). specialize (Hinv w'). lia.
Qed.

Lemma fork_pool_ok st : pool_ok st -> pool_ok (fork st).
Proof.
  intros [Hnd Hlt]. unfold pool_ok, fork. simpl. split.
  - rewrite map_app. simpl. apply NoDup_app. split; [exact Hnd |]. split.
    + intros x Hx Hin. apply list_elem_of_singleton in Hin. subst x.
      apply list_elem_of_In, in_map_iff in Hx as (y & Hy & Hin).
      rewrite Forall_forall in Hlt. apply list_elem_of_In in Hin.
      specialize (Hlt y Hin). simpl in Hlt. lia.
    + apply NoDup_singleton.
  - apply Forall_app. split.
    + eapply Forall_impl; [exact Hlt |]. simpl. intros x Hx. lia.
    + apply Forall_singleton. simpl. lia.
Qed.

Lemma run_pool_ok cfg st : pool_ok st -> pool_ok (run cfg st).
Proof.
  intros H. unfold run. induction (numWorkers cfg) as [| n IH]; [exact H |].
  simpl. now apply fork_pool_ok.
Qed.

Lemma run_tables cfg st :
  commands (run cfg st) = commands st /\ events (run cfg st) = events st.
Proof.
  unfold run. induction (numWorkers cfg) as [| n IH]; [auto |]. simpl. exact IH.
Qed.

Lemma pool_ok_same st st' :
  workers st' = workers st -> nextWorkerId st' = nextWorkerId st ->
  pool_ok st -> pool_ok st'.
Proof. unfold pool_ok. intros -> ->. auto. Qed.

Lemma startMessage_pool_ok cfg rnd st : pool_ok st -> pool_ok (startMessage cfg rnd st).
Proof.
  destruct (startMessage_frame cfg rnd st) as (_ & Hw & Hn & _).
  now apply pool_ok_same.
Qed.

Lemma settle_commands_frame how k v st :
  workers (settle_commands how k v st) = workers st /\
  nextWorkerId (settle_commands how k v st) = nextWorkerId st /\
  events (settle_commands how k v st) = events st /\
  (commands (settle_commands how k v st) = commands st \/
   commands (settle_commands how k v st) = JsMap.delete k (commands st)).
Proof.
  unfold settle_commands. destruct (JsMap.has _ _); [| auto].
  destruct (JsMap.get _ _); simpl; auto.
Qed.

Lemma settle_events_frame how k v st :
  workers (settle_events how k v st) = workers st /\
  nextWorkerId (settle_events how k v st) = nextWorkerId st /\
  commands (settle_events how k v st) = commands st /\
  (events (settle_events how k v st) = events st \/
   events (settle_events how k v st) = JsMap.delete k (events st)).
Proof.
  unfold settle_events. destruct (JsMap.has _ _); [| auto].
  destruct (JsMap.get _ _); simpl; auto.
Qed.

Lemma settle_commands_assigned how k v st w :
  assigned w (settle_commands how k v st) <= assigned w st.
Proof.
  unfold assigned.
  destruct (settle_commands_frame how k v st) as (_ & _ & -> & [-> | ->]); [lia |].
  pose proof (count_worker_delete w k (commands st)). lia.
Qed.

Lemma settle_events_assigned how k v st w :
  assigned w (settle_events how k v st) <= assigned w st.
Proof.
  unfold assigned.
  destruct (settle_events_frame how k v st) as (_ & _ & -> & [-> | ->]); [lia |].
  pose proof (count_worker_delete w k (events st)). lia.
Qed.

(** The branches of [onWorkerMessage], one goal for each. *)
Ltac by_kind t :=
  unfold onWorkerMessage;
  destruct (worker_type _) as [t |];
  [ destruct (String.eqb t "atomist:online");
    [ | destruct (String.eqb t EmptyString || negb (String.prefix "atomist:" t));
        [ | cbv zeta;
            destruct (String.eqb t "atomist:message");
            [ | destruct (String.eqb t "atomist:status");
                [ | destruct (String.eqb t "atomist:command_success");
                    [ | destruct (String.eqb t "atomist:command_failure");
                        [ | destruct (String.eqb t "atomist:event_success");
                            [ | destruct (String.eqb t "atomist:event_failure");
                                [ | destruct (String.eqb t "atomist:shutdown") ] ] ] ] ] ] ] ]
  | ].

Lemma onWorkerMessage_ok cfg w msg ok rnd st :
  pool_ok st -> within_limit cfg st ->
  pool_ok (onWorkerMessage cfg w msg ok rnd st) /\
  within_limit cfg (onWorkerMessage cfg w msg ok rnd st).
Proof.
  intros Hp Hl.
  assert (Hsc : forall how k v,
            pool_ok (emit NamespaceClear (settle_commands how k v
              (after_listeners ok
                 (emit (Log debug "Received message from worker")
                    (emit (NamespaceSet (worker_context msg)) st))))) /\
            within_limit cfg (emit NamespaceClear (settle_commands how k v
              (after_listeners ok
                 (emit (Log debug "Received message from worker")
                    (emit (NamespaceSet (worker_context msg)) st)))))).
  { intros how k v. split.
    - destruct (settle_commands_frame how k v
                  (after_listeners ok
                     (emit (Log debug "Received message from worker")
                        (emit (NamespaceSet (worker_context msg)) st))))
        as (Hw & Hn & _).
      eapply pool_ok_same; [| | exact Hp]; simpl; [rewrite Hw | rewrite Hn];
        destruct ok; reflexivity.
    - intros x. change (assigned x (emit ?e ?s)) with (assigned x s).
      etransitivity; [apply settle_commands_assigned |].
      destruct ok; apply Hl. }
  assert (Hse : forall how k v,
            pool_ok (emit NamespaceClear (settle_events how k v
              (after_listeners ok
                 (emit (Log debug "Received message from worker")
                    (emit (NamespaceSet (worker_context msg)) st))))) /\
            within_limit cfg (emit NamespaceClear (settle_events how k v
              (after_listeners ok
                 (emit (Log debug "Received message from worker")
                    (emit (NamespaceSet (worker_context msg)) st)))))).
  { intros how k v. split.
    - destruct (settle_events_frame how k v
                  (after_listeners ok
                     (emit (Log debug "Received message from worker")
                        (emit (NamespaceSet (worker_context msg)) st))))
        as (Hw & Hn & _).
      eapply pool_ok_same; [| | exact Hp]; simpl; [rewrite Hw | rewrite Hn];
        destruct ok; reflexivity.
    - intros x. change (assigned x (emit ?e ?s)) with (assigned x s).
      etransitivity; [apply settle_events_assigned |].
      destruct ok; apply Hl. }
  by_kind t; auto.
  - destruct (if JsMap.has _ _ then _ else _); [| auto].
    destruct (destinations _) as [[| d ds] |]; auto.
  - destruct (Hsc resolve (invocationId (worker_context msg)) (worker_data msg)) as [H1 H2].
    split; [now apply startMessage_pool_ok |].
    intros x. apply startMessage_assigned; [apply H1 | exact H2].
  - destruct (Hsc reject (invocationId (worker_context msg)) (worker_data msg)) as [H1 H2].
    split; [now apply startMessage_pool_ok |].
    intros x. apply startMessage_assigned; [apply H1 | exact H2].
  - destruct (Hse resolve (invocationId (worker_context msg)) (worker_data msg)) as [H1 H2].
    split; [now apply startMessage_pool_ok |].
    intros x. apply startMessage_assigned; [apply H1 | exact H2].
  - destruct (Hse reject (invocationId (worker_context msg)) (worker_data msg)) as [H1 H2].
    split; [now apply startMessage_pool_ok |].
    intros x. apply startMessage_assigned; [apply H1 | exact H2].
Qed.

Lemma reachable_ok cfg st : reachable cfg st -> pool_ok st /\ within_limit cfg st.
Proof.
  induction 1 as [| st i _ [Hp Hl]].
  { split; [split; constructor |]. intros w. unfold assigned, count_worker. simpl. lia. }
  destruct i; simpl.
  - split; [now apply run_pool_ok |]. intros x. unfold assigned.
    destruct (run_tables cfg st) as [-> ->]. apply Hl.
  - unfold invokeCommand. simpl. split.
    + apply startMessage_pool_ok. exact Hp.
    + intros x. apply startMessage_assigned; [apply Hp | exact Hl].
  - unfold invokeEvent. simpl. split.
    + apply startMessage_pool_ok. exact Hp.
    + intros x. apply startMessage_assigned; [apply Hp | exact Hl].
  - now apply onWorkerMessage_ok.
  - unfold cluster_online. split.
    + apply startMessage_pool_ok. exact Hp.
    + intros x. apply startMessage_assigned; [apply Hp | exact Hl].
  - split; [exact Hp | exact Hl].
  - assert (Hp' : pool_ok (set_workers
                    (List.filter (fun x => negb (id x =? w)) (workers st))
                    (nextWorkerId st) st)).
    { destruct Hp as [Hnd Hlt]. split; simpl.
      - now apply NoDup_map_filter.
      - rewrite Forall_forall in *. intros x Hx. apply Hlt.
        apply list_elem_of_In in Hx. apply filter_In in Hx as [Hx _].
        now apply list_elem_of_In. }
    unfold cluster_exit. destruct (_ && _); [| split; [exact Hp' | exact Hl]].
    split; [| exact Hl]. apply fork_pool_ok. exact Hp'.
  - split.
    + destruct (reportQueueLength_frame cfg st) as (_ & _ & _ & _ & Hw & Hn & _).
      now apply (pool_ok_same st).
    + intros x. unfold assigned.
      destruct (reportQueueLength_frame cfg st) as (_ & -> & -> & _). apply Hl.
  - split; [exact Hp | exact Hl].
  - split; [exact Hp | exact Hl].
  - split; [exact Hp | exact Hl].
  - split; [exact Hp | exact Hl].
Qed.




(** * The purge of dead workers' entries *)

Lemma get_delete_eq {V} k (m : JsMap.t V) : JsMap.get k (JsMap.delete k m) = None.
Proof.
  induction m as [| [k' v] m IH]; [reflexivity |].
  unfold JsMap.delete in *. simpl.
  destruct (String.eqb k k') eqn:E; simpl; [exact IH |]. now rewrite E.
Qed.

Lemma get_delete_ne {V} k k' (m : JsMap.t V) :
  k <> k' -> JsMap.get k' (JsMap.delete k m) = JsMap.get k' m.
Proof.
  intros Hne. induction m as [| [k0 v] m IH]; [reflexivity |].
  unfold JsMap.delete in *. simpl.
  destruct (String.eqb k k0) eqn:E; simpl.
  - apply String.eqb_eq in E. subst k0.
    destruct (String.eqb k' k) eqn:E'; [| exact IH].
    apply String.eqb_eq in E'. congruence.
  - now rewrite IH.
Qed.

Lemma get_delete_Some {V} k k' (m : JsMap.t V) v :
  JsMap.get k' (JsMap.delete k m) = Some v -> k' <> k /\ JsMap.get k' m = Some v.
Proof.
  intros H. destruct (String.eqb_spec k k') as [-> | Hne].
  - rewrite get_delete_eq in H. discriminate.
  - rewrite get_delete_ne in H by exact Hne. split; congruence.
Qed.

Lemma delete_absent {V} k (m : JsMap.t V) :
  JsMap.get k m = None -> JsMap.delete k m = m.
Proof.
  induction m as [| [k' v] m IH]; [reflexivity |].
  unfold JsMap.delete in *. simpl.
  destruct (String.eqb k k'); [discriminate |]. intros H. simpl. now rewrite IH.
Qed.

Lemma get_delete_all_Some dead : forall table k e,
  JsMap.get k (delete_all dead table) = Some e ->
  (k ∉ dead) /\ JsMap.get k table = Some e.
Proof.
  induction dead as [| k0 dead IH]; intros table k e H; simpl in *.
  - split; [apply not_elem_of_nil | exact H].
  - apply IH in H as [Hk H]. apply get_delete_Some in H as [Hne H].
    split; [| exact H]. apply not_elem_of_cons. auto.
Qed.

Lemma get_delete_all_keep dead : forall table k,
  k ∉ dead -> JsMap.get k (delete_all dead table) = JsMap.get k table.
Proof.
  induction dead as [| k0 dead IH]; intros table k Hk; simpl; [reflexivity |].
  apply not_elem_of_cons in Hk as [Hne Hk].
  rewrite IH by exact Hk. apply get_delete_ne. congruence.
Qed.


Lemma get_Some_elem {V} k (v : V) m : JsMap.get k m = Some v -> (k, v) ∈ m.
Proof.
  induction m as [| [k' v'] m IH]; [discriminate |]. simpl.
  destruct (String.eqb k k') eqn:E.
  - apply String.eqb_eq in E. intros [= ->]. subst. left.
  - intros H. right. auto.
Qed.

Lemma count_message_ids wid : forall ws ws',
  count_message wid ws = Some ws' -> worker_ids ws' = worker_ids ws.
Proof.
  induction ws as [| [w n] ws IH]; intros ws' H; [discriminate |]. simpl in H.
  destruct (id w =? wid); [injection H as <-; reflexivity |].
  destruct (count_message wid ws) as [rest |]; [| discriminate].
  injection H as <-. simpl. f_equal. now apply IH.
Qed.

Lemma count_message_Some wid ws :
  is_Some (count_message wid ws) <-> wid ∈ worker_ids ws.
Proof.
  induction ws as [| [w n] ws IH]; simpl.
  - split; [intros [? H]; discriminate | intros H; inversion H].
  - destruct (id w =? wid) eqn:E.
    + apply Nat.eqb_eq in E. split; [intros _; subst; left | eauto].
    + apply Nat.eqb_neq in E. rewrite elem_of_cons, <- IH.
      destruct (count_message wid ws) as [rest |].
      * split; eauto.
      * split; [intros [? H]; discriminate |].
        intros [? | [? H]]; [congruence | discriminate].
Qed.

(** The keys [scan] pushes: those of the entries whose worker is not
    among the workers it was given. *)
Lemma scan_dead : forall table ws dead k,
  k ∈ snd (scan table ws dead) <->
  k ∈ dead \/ exists e, (k, e) ∈ table /\ worker e ∉ worker_ids ws.
Proof.
  induction table as [| [k0 e0] table IH]; intros ws dead k; simpl.
  - split; [auto |]. intros [H | (e & H & _)]; [exact H | inversion H].
  - destruct (count_message (worker e0) ws) as [ws' |] eqn:E.
    + rewrite IH. rewrite (count_message_ids _ _ _ E).
      assert (Hin : worker e0 ∈ worker_ids ws) by (apply count_message_Some; eauto).
      split; intros [H | (e & H & Hd)]; auto; right; exists e.
      * split; [now right | exact Hd].
      * apply elem_of_cons in H as [[= -> ->] | H]; [contradiction | auto].
    + rewrite IH.
      assert (Hout : worker e0 ∉ worker_ids ws).
      { intros Hin. apply count_message_Some in Hin as [? Hin]. congruence. }
      split.
      * intros [H | (e & H & Hd)].
        { apply elem_of_app in H as [H | H]; [auto |].
          apply list_elem_of_singleton in H. subst k. right. exists e0.
          split; [left | exact Hout]. }
        { right. exists e. split; [now right | exact Hd]. }
      * intros [H | (e & H & Hd)].
        { left. apply elem_of_app. auto. }
        { apply elem_of_cons in H as [[= -> ->] | H].
          - left. apply elem_of_app. right. left.
          - right. eauto. }
Qed.

Lemma live_connected st w :
  live st w <-> w ∈ worker_ids (connectedWorkers (workers st)).
Proof.
  unfold live, worker_ids, connectedWorkers. rewrite map_map. simpl.
  rewrite list_elem_of_In, in_map_iff. split.
  - intros (x & Hx & Hid & Hc). exists x. split; [exact Hid |].
    apply filter_In. split; [now apply list_elem_of_In | exact Hc].
  - intros (x & Hid & Hx). apply filter_In in Hx as [Hx Hc]. exists x.
    split; [now apply list_elem_of_In | auto].
Qed.

Lemma scan_ids : forall table ws dead,
  worker_ids (fst (scan table ws dead)) = worker_ids ws.
Proof.
  induction table as [| [k e] table IH]; intros ws dead; [reflexivity |]. simpl.
  destruct (count_message (worker e) ws) as [ws' |] eqn:E; rewrite IH; [| reflexivity].
  now apply count_message_ids in E.
Qed.

Lemma keys_set {V} k (v : V) m k' :
  k' ∈ JsMap.keys (JsMap.set k v m) -> k' = k \/ k' ∈ JsMap.keys m.
Proof.
  induction m as [| [k0 v0] m IH]; simpl.
  - intros H. apply list_elem_of_singleton in H. auto.
  - destruct (String.eqb k k0) eqn:E; simpl; intros H.
    + apply elem_of_cons in H as [-> | H]; [auto |]. right. now right.
    + apply elem_of_cons in H as [-> | H]; [right; left |].
      destruct (IH H) as [-> | H']; [auto |]. right. now right.
Qed.

Lemma NoDup_keys_set {V} k (v : V) m :
  NoDup (JsMap.keys m) -> NoDup (JsMap.keys (JsMap.set k v m)).
Proof.
  induction m as [| [k0 v0] m IH]; simpl; intros Hnd.
  - apply NoDup_singleton.
  - apply NoDup_cons in Hnd as [Hk Hnd].
    destruct (String.eqb k k0) eqn:E; simpl.
    + apply String.eqb_eq in E. subst k0. apply NoDup_cons. auto.
    + apply NoDup_cons. split; [| auto]. intros Hin.
      apply keys_set in Hin as [-> | Hin]; [| contradiction].
      rewrite String.eqb_refl in E. discriminate.
Qed.

Lemma NoDup_keys_delete {V} k (m : JsMap.t V) :
  NoDup (JsMap.keys m) -> NoDup (JsMap.keys (JsMap.delete k m)).
Proof. apply NoDup_map_filter. Qed.

Lemma NoDup_keys_delete_all dead : forall table,
  NoDup (JsMap.keys table) -> NoDup (JsMap.keys (delete_all dead table)).
Proof.
  induction dead as [| k dead IH]; intros table H; simpl; [exact H |].
  apply IH. now apply NoDup_keys_delete.
Qed.

Lemma elem_get {V} k (v : V) m :
  NoDup (JsMap.keys m) -> (k, v) ∈ m -> JsMap.get k m = Some v.
Proof.
  induction m as [| [k0 v0] m IH]; intros Hnd Hin; [inversion Hin |]. simpl in *.
  apply NoDup_cons in Hnd as [Hk Hnd].
  apply elem_of_cons in Hin as [[= <- <-] | Hin]; [now rewrite String.eqb_refl |].
  destruct (String.eqb k k0) eqn:E; [| auto].
  apply String.eqb_eq in E. subst k0. exfalso. apply Hk.
  apply list_elem_of_In. apply list_elem_of_In in Hin.
  apply (in_map fst m (k, v) Hin).
Qed.

Lemma keys_ok_same st st' :
  commands st' = commands st -> events st' = events st -> keys_ok st -> keys_ok st'.
Proof. unfold keys_ok. intros -> ->. auto. Qed.

Lemma assignWorker_keys_ok cfg rnd st :
  keys_ok st -> keys_ok (fst (assignWorker cfg rnd st)).
Proof.
  intros [Hc He]. unfold keys_ok.
  destruct (assignWorker_tables cfg rnd st) as [-> ->].
  split; now apply NoDup_keys_delete_all.
Qed.

Lemma track_keys_ok w m st : keys_ok st -> keys_ok (track w m st).
Proof.
  intros [Hc He]. unfold track, keys_ok.
  destruct (String.eqb _ "atomist:command");
    [simpl; split; [now apply NoDup_keys_set | exact He] |].
  destruct (String.eqb _ "atomist:event");
    [simpl; split; [exact Hc | now apply NoDup_keys_set] |].
  auto.
Qed.

Lemma startMessage_keys_ok cfg rnd st :
  keys_ok st -> keys_ok (startMessage cfg rnd st).
Proof.
  intros Hk. pose proof (assignWorker_keys_ok cfg rnd st Hk) as Hk'.
  assert (Hrep : forall s, keys_ok s -> keys_ok (reportQueueLength cfg s)).
  { intros s. destruct (reportQueueLength_frame cfg s) as (_ & Hc & He & _).
    now apply keys_ok_same. }
  destruct (startMessage_cases cfg rnd st)
    as [[_ ->] | [(_ & _ & ->) | (_ & w & m & q & _ & _ & ->)]]; apply Hrep; auto.
  unfold sent.
  apply (keys_ok_same
           (track w m (emit (NamespaceSet (message_context (message m)))
                         (set_messages q (fst (assignWorker cfg rnd st))))));
    [reflexivity | reflexivity |].
  apply track_keys_ok. exact Hk'.
Qed.

Lemma settle_commands_keys_ok how k v st :
  keys_ok st -> keys_ok (settle_commands how k v st).
Proof.
  intros [Hc He]. unfold keys_ok.
  destruct (settle_commands_frame how k v st) as (_ & _ & -> & [-> | ->]);
    split; auto. now apply NoDup_keys_delete.
Qed.

Lemma settle_events_keys_ok how k v st :
  keys_ok st -> keys_ok (settle_events how k v st).
Proof.
  intros [Hc He]. unfold keys_ok.
  destruct (settle_events_frame how k v st) as (_ & _ & -> & [-> | ->]);
    split; auto. now apply NoDup_keys_delete.
Qed.

Lemma onWorkerMessage_keys_ok cfg w msg ok rnd st :
  keys_ok st -> keys_ok (onWorkerMessage cfg w msg ok rnd st).
Proof.
  intros Hk.
  assert (H0 : keys_ok (after_listeners ok
                 (emit (Log debug "Received message from worker")
                    (emit (NamespaceSet (worker_context msg)) st))))
    by (destruct ok; exact Hk).
  by_kind t; auto.
  - destruct (if JsMap.has _ _ then _ else _); [| auto].
    destruct (destinations _) as [[| d ds] |]; auto.
  - apply startMessage_keys_ok.
    apply (settle_commands_keys_ok resolve _ _ _ H0).
  - apply startMessage_keys_ok.
    apply (settle_commands_keys_ok reject _ _ _ H0).
  - apply startMessage_keys_ok.
    apply (settle_events_keys_ok resolve _ _ _ H0).
  - apply startMessage_keys_ok.
    apply (settle_events_keys_ok reject _ _ _ H0).
Qed.

Lemma reachable_keys_ok cfg st : reachable cfg st -> keys_ok st.
Proof.
  induction 1 as [| st i _ IH]; [split; constructor |].
  destruct i; simpl; auto.
  - apply (keys_ok_same st); [apply run_tables | apply run_tables | exact IH].
  - unfold invokeCommand. simpl. apply startMessage_keys_ok. exact IH.
  - unfold invokeEvent. simpl. apply startMessage_keys_ok. exact IH.
  - now apply onWorkerMessage_keys_ok.
  - unfold cluster_online. apply startMessage_keys_ok. exact IH.
  - unfold cluster_exit. simpl. destruct (_ && _); exact IH.
  - apply (keys_ok_same st);
      [apply reportQueueLength_frame | apply reportQueueLength_frame | exact IH].
Qed.


Lemma assignWorker_keeps cfg rnd st k e :
  keys_ok st ->
  (JsMap.get k (events st) = Some e -> live st (worker e) ->
   JsMap.get k (events (fst (assignWorker cfg rnd st))) = Some e) /\
  (JsMap.get k (commands st) = Some e -> live st (worker e) ->
   JsMap.get k (commands (fst (assignWorker cfg rnd st))) = Some e).
Proof.
  intros [Hc He]. destruct (assignWorker_tables cfg rnd st) as [-> ->].
  split; intros Hget Hlive; (rewrite get_delete_all_keep; [exact Hget |]);
    rewrite scan_dead; intros [H | (e' & Hin & Hdead)]; try solve [inversion H].
  - apply (elem_get _ _ _ He) in Hin. rewrite <- live_connected in Hdead. congruence.
  - apply (elem_get _ _ _ Hc) in Hin.
    rewrite scan_ids, <- live_connected in Hdead. congruence.
Qed.



(** * Replies from the workers *)

Lemma settle_commands_spec how k v st :
  settle_commands how k v st =
  match JsMap.get k (commands st) with
  | Some e =>
      set_commands (JsMap.delete k (commands st))
        (set_deferreds (how (result (entry_dispatched e)) v (deferreds st)) st)
  | None => st
  end.
Proof.
  unfold settle_commands, JsMap.has. destruct (JsMap.get k (commands st)); reflexivity.
Qed.

Lemma settle_commands_tables how k v st :
  commands (settle_commands how k v st) = JsMap.delete k (commands st) /\
  events (settle_commands how k v st) = events st.
Proof.
  rewrite settle_commands_spec. destruct (JsMap.get k (commands st)) eqn:E; simpl.
  - auto.
  - now rewrite delete_absent.
Qed.

(** What the dispatch step does to a key that no queued item has:
    nothing when the queue is empty, else what the purge does. *)
Lemma startMessage_get cfg rnd st k :
  built (messages st) ->
  (forall m, m ∈ messages st -> invocationId (message_context (message m)) <> k) ->
  (messages st = [] /\
   commands (startMessage cfg rnd st) = commands st /\
   events (startMessage cfg rnd st) = events st) \/
  (JsMap.get k (commands (startMessage cfg rnd st)) =
     JsMap.get k (commands (fst (assignWorker cfg rnd st))) /\
   JsMap.get k (events (startMessage cfg rnd st)) =
     JsMap.get k (events (fst (assignWorker cfg rnd st)))).
Proof.
  intros Hb Hk.
  destruct (startMessage_cases cfg rnd st)
    as [[Hq E] | [(_ & _ & ->) | (Hne & w & m & q & _ & Hpop & ->)]].
  - left. rewrite E. destruct (reportQueueLength_frame cfg st) as (_ & -> & -> & _).
    auto.
  - right. now destruct (reportQueueLength_frame cfg (fst (assignWorker cfg rnd st)))
      as (_ & -> & -> & _).
  - right.
    destruct (reportQueueLength_frame cfg (sent w m q (fst (assignWorker cfg rnd st))))
      as (_ & -> & -> & _).
    destruct (pop_built (messages st) Hb Hne) as (m' & q' & Hpop' & Hperm & _).
    rewrite Hpop in Hpop'. injection Hpop' as <- <-.
    assert (Hm : invocationId (message_context (message m)) <> k).
    { apply Hk. rewrite Hperm. left. }
    unfold sent, track. simpl.
    destruct (String.eqb _ "atomist:command"); [simpl; now rewrite get_set_ne |].
    destruct (String.eqb _ "atomist:event"); [simpl; now rewrite get_set_ne |].
    auto.
Qed.

Lemma settle_lookup d s store d' :
  settle d s store !! d' =
  if decide (d' = d)
  then match store !! d with Some Pending => Some s | o => o end
  else store !! d'.
Proof.
  unfold settle. destruct (store !! d) as [[| r | r] |] eqn:E.
  - destruct (decide (d' = d)) as [-> | Hne].
    + apply list_lookup_insert_eq. now apply lookup_lt_Some in E.
    + apply list_lookup_insert_ne. congruence.
  - destruct (decide (d' = d)) as [-> |]; auto.
  - destruct (decide (d' = d)) as [-> |]; auto.
  - destruct (decide (d' = d)) as [-> |]; auto.
Qed.

(** The state a [command_success] message leaves: the listeners have
    run, the entry is settled, and the dispatch step has run. *)
Lemma onWorkerMessage_command_success cfg w msg ok rnd st :
  worker_type msg = Some "atomist:command_success"%string ->
  onWorkerMessage cfg w msg ok rnd st =
  startMessage cfg rnd
    (emit NamespaceClear
       (settle_commands resolve (invocationId (worker_context msg)) (worker_data msg)
          (after_listeners ok
             (emit (Log debug "Received message from worker")
                (emit (NamespaceSet (worker_context msg)) st))))).
Proof. intros H. unfold onWorkerMessage. rewrite H. reflexivity. Qed.

Lemma after_listeners_frame ok st :
  commands (after_listeners ok st) = commands st /\
  events (after_listeners ok st) = events st /\
  deferreds (after_listeners ok st) = deferreds st /\
  messages (after_listeners ok st) = messages st /\
  workers (after_listeners ok st) = workers st.
Proof. destruct ok; simpl; auto. Qed.

(** C6, as the code has it. A [command_success] reply resolves the
    deferred result tracked under its invocation identity with the
    outcome it carries, and no other deferred result; it deletes that
    entry. When the identity is not tracked nothing is resolved. The
    handler then runs the dispatch step: with an empty queue the tables
    are otherwise unchanged (unchanged altogether for an untracked
    identity); with work queued, an entry under another identity is
    kept as it is when its worker is live and no queued item has that
    identity. *)
Theorem command_success_settles cfg w msg ok rnd st :
  reachable cfg st ->
  worker_type msg = Some "atomist:command_success"%string ->
  let k := invocationId (worker_context msg) in
  let v := worker_data msg in
  let st' := onWorkerMessage cfg w msg ok rnd st in
  deferreds st' =
    match JsMap.get k (commands st) with
    | Some e => resolve (result (entry_dispatched e)) v (deferreds st)
    | None => deferreds st
    end /\
  (forall e, JsMap.get k (commands st) = Some e ->
     deferreds st !! result (entry_dispatched e) = Some Pending ->
     deferreds st' !! result (entry_dispatched e) = Some (Resolved v)) /\
  (forall d, (forall e, JsMap.get k (commands st) = Some e ->
                result (entry_dispatched e) <> d) ->
     deferreds st' !! d = deferreds st !! d) /\
  (messages st = [] ->
     commands st' = JsMap.delete k (commands st) /\ events st' = events st) /\
  (messages st = [] -> JsMap.get k (commands st) = None ->
     commands st' = commands st /\ events st' = events st) /\
  ((forall m, m ∈ messages st -> invocationId (message_context (message m)) <> k) ->
     JsMap.get k (commands st') = None) /\
  (forall k' e,
     (forall m, m ∈ messages st -> invocationId (message_context (message m)) <> k') ->
     live st (worker e) ->
     (k' <> k -> JsMap.get k' (commands st) = Some e ->
      JsMap.get k' (commands st') = Some e) /\
     (JsMap.get k' (events st) = Some e -> JsMap.get k' (events st') = Some e)).
Proof.
  intros Hreach Hty k v st'. subst st'.
  rewrite (onWorkerMessage_command_success cfg w msg ok rnd st Hty). fold k v.
  set (s0 := emit (Log debug "Received message from worker")
               (emit (NamespaceSet (worker_context msg)) st)).
  destruct (after_listeners_frame ok s0) as (Hc1 & He1 & Hd1 & Hm1 & Hw1).
  set (s1 := after_listeners ok s0) in *.
  change (commands s0) with (commands st) in Hc1.
  change (events s0) with (events st) in He1.
  change (deferreds s0) with (deferreds st) in Hd1.
  change (messages s0) with (messages st) in Hm1.
  change (workers s0) with (workers st) in Hw1.
  destruct (settle_commands_tables resolve k v s1) as [Hc2 He2].
  rewrite Hc1 in Hc2. rewrite He1 in He2.
  set (s3 := emit NamespaceClear (settle_commands resolve k v s1)).
  assert (Hc3 : commands s3 = JsMap.delete k (commands st)) by exact Hc2.
  assert (He3 : events s3 = events st) by exact He2.
  assert (Hm3 : messages s3 = messages st).
  { unfold s3. simpl. now rewrite settle_commands_messages. }
  assert (Hw3 : workers s3 = workers st).
  { unfold s3. simpl.
    now destruct (settle_commands_frame resolve k v s1) as (-> & _). }
  assert (Hd3 : deferreds s3 =
                match JsMap.get k (commands st) with
                | Some e => resolve (result (entry_dispatched e)) v (deferreds st)
                | None => deferreds st
                end).
  { unfold s3. simpl. rewrite settle_commands_spec, Hc1.
    destruct (JsMap.get k (commands st)); simpl; now rewrite Hd1. }
  assert (Hk3 : keys_ok s3).
  { apply (keys_ok_same (settle_commands resolve k v s1)); [reflexivity .. |].
    apply settle_commands_keys_ok. apply (keys_ok_same st); auto.
    now apply (reachable_keys_ok cfg). }
  assert (Hb3 : built (messages s3))
    by (rewrite Hm3; now apply (reachable_built cfg)).
  assert (Hl3 : forall x, live st x -> live s3 x)
    by (intros x; unfold live; now rewrite Hw3).
  destruct (startMessage_frame cfg rnd s3) as (Hd & _).
  rewrite Hd, Hd3.
  split; [reflexivity |]. split; [| split].
  - intros e He Hp. rewrite He. unfold resolve. rewrite settle_lookup.
    destruct (decide _) as [_ | Hne]; [now rewrite Hp | congruence].
  - intros d Hne. destruct (JsMap.get k (commands st)) as [e |] eqn:He; [| reflexivity].
    unfold resolve. rewrite settle_lookup.
    destruct (decide _) as [-> | _]; [| reflexivity].
    now destruct (Hne e eq_refl).
  - assert (Hidle : messages st = [] ->
              commands (startMessage cfg rnd s3) = commands s3 /\
              events (startMessage cfg rnd s3) = events s3).
    { intros Hq. destruct (startMessage_cases cfg rnd s3)
        as [[_ ->] | [(Hne & _) | (Hne & _)]]; try (rewrite Hm3 in Hne; congruence).
      now destruct (reportQueueLength_frame cfg s3) as (_ & -> & -> & _). }
    split; [| split; [| split]].
    + intros Hq. destruct (Hidle Hq) as [-> ->]. auto.
    + intros Hq Hnone. destruct (Hidle Hq) as [-> ->]. rewrite Hc3, He3.
      now rewrite delete_absent.
    + intros Hq. rewrite <- Hm3 in Hq.
      destruct (startMessage_get cfg rnd s3 k Hb3 Hq) as [(_ & -> & _) | [-> _]].
      * rewrite Hc3. apply get_delete_eq.
      * destruct (JsMap.get k (commands (fst (assignWorker cfg rnd s3)))) as [e |] eqn:E;
          [| reflexivity].
        destruct (assignWorker_tables cfg rnd s3) as [_ Ht]. rewrite Ht in E.
        apply get_delete_all_Some in E as [_ E]. rewrite Hc3, get_delete_eq in E.
        discriminate.
    + intros k' e Hq Hlive. rewrite <- Hm3 in Hq. apply Hl3 in Hlive.
      destruct (assignWorker_keeps cfg rnd s3 k' e Hk3) as [Hke Hkc].
      split.
      * intros Hne Hget.
        assert (Hget3 : JsMap.get k' (commands s3) = Some e)
          by (rewrite Hc3, get_delete_ne; congruence).
        destruct (startMessage_get cfg rnd s3 k' Hb3 Hq) as [(_ & -> & _) | [-> _]];
          auto.
      * intros Hget. rewrite <- He3 in Hget.
        destruct (startMessage_get cfg rnd s3 k' Hb3 Hq) as [(_ & _ & ->) | [_ ->]];
          auto.
Qed.

(** The reply for A resolves the deferred result of A, number 0, and
    leaves that of B, number 1, pending. *)
Lemma command_success_settles_witness :
  let st' := onWorkerMessage one_by_one 1 (reply "atomist:command_success" "A")
               true half (run_inputs one_by_one second_waits) in
  deferreds st' !! 0 = Some (Resolved (worker_data (reply "atomist:command_success" "A")))
  /\ deferreds st' !! 1 = Some Pending.
Proof.
  intros st'.
  destruct (command_success_settles one_by_one 1
              (reply "atomist:command_success" "A") true half
              (run_inputs one_by_one second_waits)
              (reachable_run_inputs one_by_one second_waits) eq_refl)
    as (_ & Hres & Hother & _).
  split.
  - apply (Hres {| entry_dispatched :=
                     {| result := 0; dispatched_context := context_of "A" |};
                   worker := 1 |}); reflexivity.
  - etransitivity; [apply (Hother 1) | reflexivity].
    intros e He. vm_compute in He. injection He as <-. simpl. lia.
Defined.

(** C6 as stated fails. The reply for A makes the handler dispatch B:
    an entry appears under another identity. And a reply for the
    untracked identity Z, arriving while D is queued and worker 2 has
    room, makes the handler dispatch D: the table changes. *)
Lemma command_success_changes_tables :
  (let st := run_inputs one_by_one second_waits in
   let st' := onWorkerMessage one_by_one 1 (reply "atomist:command_success" "A")
                true half st in
   JsMap.keys (commands st) = ["A"]%string /\
   JsMap.keys (commands st') = ["B"]%string) /\
  (let st := run_inputs two_at_a_time (worker_replaced ++ [ClusterOnline 2 half]) in
   let st' := onWorkerMessage two_at_a_time 2 (reply "atomist:command_success" "Z")
                true half st in
   JsMap.has "Z" (commands st) = false /\
   JsMap.keys (commands st) = ["C"]%string /\
   JsMap.keys (commands st') = ["C"; "D"]%string).
Proof. vm_compute. auto. Qed.

(** * Messages the master does not act on *)

Lemma eqb_recognized t k : k ∈ recognized -> t ∉ recognized -> String.eqb t k = false.
Proof.
  intros Hk Ht. apply String.eqb_neq. intros ->. contradiction.
Qed.

(** On a [WorkerMessage]: one with no type, without the prefix, or of
    a kind with no branch changes neither the queue nor the tables nor
    any deferred result; all it can cause is the namespace being set
    and a line in the debug log. *)
Lemma onWorkerMessage_unrecognized cfg w msg ok rnd st :
  unrecognized msg ->
  let st' := onWorkerMessage cfg w msg ok rnd st in
  messages st' = messages st /\ commands st' = commands st /\
  events st' = events st /\ deferreds st' = deferreds st /\
  exists extra,
    trace st' = trace st ++ extra /\
    Forall (fun e => quiet e = true) extra /\
    forall code, ProcessExit code ∉ extra.
Proof.
  intros Hun st'. subst st'. unfold unrecognized in Hun.
  assert (Hsame : messages st = messages st /\ commands st = commands st /\
                  events st = events st /\ deferreds st = deferreds st /\
                  exists extra, trace st = trace st ++ extra /\
                    Forall (fun e => quiet e = true) extra /\
                    forall code, ProcessExit code ∉ extra).
  { do 4 (split; [reflexivity |]). exists []. rewrite app_nil_r.
    split; [reflexivity |]. split; [constructor |].
    intros code H. inversion H. }
  unfold onWorkerMessage. destruct (worker_type msg) as [t |]; [| exact Hsame].
  destruct (String.prefix "atomist:" t) eqn:Hp.
  - destruct Hun as [Hun | Hun]; [discriminate |].
    assert (Hk : forall k, k ∈ recognized -> String.eqb t k = false)
      by (intros k Hk; now apply eqb_recognized).
    rewrite (Hk "atomist:online"%string), (Hk "atomist:message"%string),
      (Hk "atomist:status"%string), (Hk "atomist:command_success"%string),
      (Hk "atomist:command_failure"%string), (Hk "atomist:event_success"%string),
      (Hk "atomist:event_failure"%string), (Hk "atomist:shutdown"%string)
      by (unfold recognized; repeat constructor).
    destruct (String.eqb t EmptyString || negb true); [exact Hsame |].
    do 4 (split; [reflexivity |]). eexists.
    split; [simpl; rewrite <- app_assoc; reflexivity |].
    split; [repeat constructor |].
    intros code H. apply elem_of_cons in H as [H | H]; [discriminate |].
    apply list_elem_of_singleton in H. discriminate.
  - destruct (String.eqb t "atomist:online") eqn:E.
    { apply String.eqb_eq in E. subst t. discriminate. }
    rewrite orb_true_r. exact Hsame.
Qed.

(** C7, as the code has it. A message whose type is missing or falsy,
    or is a string without the prefix, is passed over whatever else it
    holds: the handler returns and the master is as it was. A message
    whose type is a string with the prefix but of no recognized kind,
    and that carries a context, makes the handler return too, with
    the queue, the tables and the deferred results as they were; all
    it causes is the namespace being set and a line in the debug log,
    so the process is not made to exit. *)
Theorem unrecognized_message_ignored cfg w msg ok rnd st :
  ignorable msg ->
  exists st',
    on_message cfg w msg ok rnd st = Returns st' /\
    (prefixed msg = false -> st' = st) /\
    messages st' = messages st /\ commands st' = commands st /\
    events st' = events st /\ deferreds st' = deferreds st /\
    exists extra,
      trace st' = trace st ++ extra /\
      Forall (fun e => quiet e = true) extra /\
      forall code, ProcessExit code ∉ extra.
Proof.
  intros Hig.
  assert (Hsame : exists st',
            Returns st = Returns st' /\
            (prefixed msg = false -> st' = st) /\
            messages st' = messages st /\ commands st' = commands st /\
            events st' = events st /\ deferreds st' = deferreds st /\
            exists extra, trace st' = trace st ++ extra /\
              Forall (fun e => quiet e = true) extra /\
              forall code, ProcessExit code ∉ extra).
  { exists st. do 6 (split; [reflexivity |]). exists []. rewrite app_nil_r.
    split; [reflexivity |]. split; [constructor |].
    intros code H. inversion H. }
  unfold on_message.
  destruct Hig as [Hfalsy | [(t & Ht & Hp) | (t & c & Ht & Hun & Hc)]].
  - assert (Hon : strict_eq_string (ipc_type msg) "atomist:online" = false).
    { destruct (ipc_type msg) as [| | b | n | | s | o]; try reflexivity.
      simpl in *. apply negb_false_iff, String.eqb_eq in Hfalsy. now subst s. }
    rewrite Hon, Hfalsy. exact Hsame.
  - rewrite Ht. simpl. rewrite Hp.
    destruct (String.eqb_spec t "atomist:online") as [-> | _]; [discriminate |].
    destruct (negb (String.eqb t EmptyString)); exact Hsame.
  - rewrite Ht, Hc. simpl.
    rewrite (eqb_recognized t "atomist:online") by (unfold recognized; auto; repeat constructor).
    destruct (negb (String.eqb t EmptyString)); [| exact Hsame].
    destruct (String.prefix "atomist:" t) eqn:Hp; [| exact Hsame]. simpl.
    eexists. split; [reflexivity |].
    split; [unfold prefixed; rewrite Ht, Hp; discriminate |].
    apply (onWorkerMessage_unrecognized cfg w
             {| worker_type := Some t; worker_context := c;
                worker_data := ipc_data msg; event := ipc_event msg |} ok rnd st).
    right. exact Hun.
Qed.

(** The kind [atomist:unknown] on a message with a context, while B
    waits for the worker that is busy with A. *)
Lemma unrecognized_message_ignored_witness :
  let msg := arriving (Incoming.JsString "atomist:unknown")
               (Some (context (context_of "A"))) in
  let st := run_inputs one_by_one second_waits in
  exists st',
    on_message one_by_one 1 msg true half st = Returns st' /\
    messages st' = messages st /\ commands st' = commands st /\
    events st' = events st /\ deferreds st' = deferreds st.
Proof.
  intros msg st.
  destruct (unrecognized_message_ignored one_by_one 1 msg true half st)
    as (st' & Hret & _ & Hm & Hc & He & Hd & _).
  - right. right. exists "atomist:unknown"%string, (context (context_of "A")).
    split; [reflexivity |]. split; [| reflexivity].
    unfold recognized. intros H.
    repeat (apply elem_of_cons in H as [H | H]; [discriminate |]).
    inversion H.
  - exists st'. auto.
Defined.

(** C7 as stated fails. A message of the unrecognized kind
    [atomist:unknown] that carries no context makes the handler throw
    when it reads the invocation identity, and so does a message whose
    type is the number 5, when the handler calls [startsWith] on it. *)
Lemma unrecognized_message_throws :
  existsb (String.eqb "atomist:unknown") recognized = false /\
  on_message one_by_one 1
    (arriving (Incoming.JsString "atomist:unknown") None)
    true half (run_inputs one_by_one second_waits) = Throws "TypeError" /\
  on_message one_by_one 1
    (arriving (Incoming.JsNumber 5) (Some (context (context_of "A"))))
    true half (run_inputs one_by_one second_waits) = Throws "TypeError".
Proof. vm_compute. auto. Qed.

(** Whenever the handler returns, it has done what [onWorkerMessage]
    does on some [WorkerMessage]: the states the master reaches through
    messages of any form are those of [reachable]. *)
Lemma on_message_reachable cfg w msg ok rnd st st' :
  reachable cfg st -> on_message cfg w msg ok rnd st = Returns st' ->
  reachable cfg st'.
Proof.
  intros Hreach. unfold on_message.
  pose (typed := fun t => {| worker_type := t;
                             worker_context := context (context_of EmptyString);
                             worker_data := ipc_data msg; event := ipc_event msg |}).
  assert (Hstep : forall m, reachable cfg (onWorkerMessage cfg w m ok rnd st))
    by (intros m; exact (reachable_step cfg st (FromWorker w m ok rnd) Hreach)).
  destruct (strict_eq_string (ipc_type msg) "atomist:online") eqn:Hon.
  { intros [= <-]. destruct (ipc_type msg) as [| | b | n | | s | o]; try discriminate.
    simpl in Hon. apply String.eqb_eq in Hon. subst s.
    exact (Hstep (typed (Some "atomist:online"%string))). }
  destruct (negb (Incoming.truthy (ipc_type msg))); [intros [= <-]; exact Hreach |].
  destruct (ipc_type msg) as [| | b | n | | t | o]; try discriminate.
  destruct (negb (String.prefix "atomist:" t)); [intros [= <-]; exact Hreach |].
  destruct (ipc_context msg) as [c |]; [| discriminate].
  intros [= <-]. apply Hstep.
Qed.

(** * Reporting and health *)

(** C8. A report changes neither the queue nor the tables. With the
    sink enabled and present it emits three gauges: the length of the
    queue, the size of the events table and the size of the commands
    table, as they are at that moment; otherwise it emits nothing, and
    with the sink disabled it does nothing at all. *)
Theorem report_emits_current_sizes cfg st :
  let st' := reportQueueLength cfg st in
  messages st' = messages st /\ commands st' = commands st /\
  events st' = events st /\ deferreds st' = deferreds st /\
  trace st' =
    trace st ++
    (if statsd_enabled cfg && statsd_instance cfg
     then [ Gauge "work_queue.pending" (length (messages st));
            Gauge "work_queue.events" (JsMap.size (events st));
            Gauge "work_queue.commands" (JsMap.size (commands st)) ]
     else []) /\
  (statsd_enabled cfg = false -> st' = st).
Proof.
  unfold reportQueueLength.
  destruct (statsd_enabled cfg), (statsd_instance cfg); simpl;
    rewrite <- ?app_assoc, ?app_nil_r; repeat split; auto; discriminate.
Qed.

Lemma keys_has {V} k (m : JsMap.t V) : k ∈ JsMap.keys m <-> JsMap.has k m = true.
Proof.
  unfold JsMap.has. induction m as [| [k' v] m IH]; simpl.
  - split; [intros H; inversion H | discriminate].
  - rewrite elem_of_cons. destruct (String.eqb k k') eqn:E.
    + apply String.eqb_eq in E. tauto.
    + apply String.eqb_neq in E. rewrite IH. tauto.
Qed.

(** C10. The health indicator answers [Up] exactly when the websocket
    lifecycle is connected and a registration is held, and [Down]
    otherwise; either way its detail lists the keys of the commands
    table and the keys of the events table. *)
Theorem health_indicator_status st :
  (status (healthIndicator st) = Up <->
   connected st = true /\ is_Some (registration st)) /\
  (status (healthIndicator st) = Down <->
   ~ (connected st = true /\ is_Some (registration st))) /\
  detail_commands (healthIndicator st) = JsMap.keys (commands st) /\
  detail_events (healthIndicator st) = JsMap.keys (events st) /\
  (forall k, k ∈ detail_commands (healthIndicator st) <->
             JsMap.has k (commands st) = true) /\
  (forall k, k ∈ detail_events (healthIndicator st) <->
             JsMap.has k (events st) = true).
Proof.
  assert (Hdetail : detail_commands (healthIndicator st) = JsMap.keys (commands st) /\
                    detail_events (healthIndicator st) = JsMap.keys (events st)).
  { unfold healthIndicator. destruct (_ && _); auto. }
  destruct Hdetail as [Hc He]. rewrite Hc, He.
  assert (Hstatus : status (healthIndicator st) = Up <->
                    connected st = true /\ is_Some (registration st)).
  { unfold healthIndicator.
    destruct (connected st), (registration st) as [r |]; simpl; split;
      try discriminate; eauto.
    - intros [_ [x Hx]]. discriminate.
    - intros [Hx _]. discriminate.
    - intros [Hx _]. discriminate. }
  split; [exact Hstatus |]. split.
  - rewrite <- Hstatus. destruct (status (healthIndicator st)); split;
      congruence.
  - split; [reflexivity |]. split; [reflexivity |].
    split; intros k; apply keys_has.
Qed.

(** * Messages a handler sends through the master *)

(** C9. An [atomist:message] goes out through the message client of
    the entry with its invocation identity, the commands table being
    asked before the events table; when neither has the identity the
    message is dropped with an error in the log. In no case are the
    queue, the tables or the deferred results changed. *)
Theorem worker_message_forwarded cfg w msg ok rnd st :
  worker_type msg = Some "atomist:message"%string ->
  let k := invocationId (worker_context msg) in
  let st' := onWorkerMessage cfg w msg ok rnd st in
  messages st' = messages st /\ commands st' = commands st /\
  events st' = events st /\ deferreds st' = deferreds st /\
  trace st' =
    trace st ++
    [ NamespaceSet (worker_context msg); Log debug "Received message from worker" ] ++
    match JsMap.get k (commands st), JsMap.get k (events st) with
    | Some e, _ =>
        [ forward (messageClient (dispatched_context (entry_dispatched e)))
            (worker_data msg);
          NamespaceClear ]
    | None, Some e =>
        [ forward (messageClient (dispatched_context (entry_dispatched e)))
            (worker_data msg);
          NamespaceClear ]
    | None, None =>
        [ Log error "Can't handle message from worker due to missing messageClient";
          NamespaceClear ]
    end.
Proof.
  intros Hty k st'. subst st'. unfold onWorkerMessage. rewrite Hty.
  cbn [String.eqb Ascii.eqb Bool.eqb String.prefix orb negb andb].
  cbv zeta. fold k. unfold JsMap.has. cbn [commands events emit].
  destruct (JsMap.get k (commands st)) as [e |].
  - unfold forward. destruct (destinations (worker_data msg)) as [[| d ds] |];
      simpl; rewrite <- !app_assoc; auto.
  - destruct (JsMap.get k (events st)) as [e |].
    + unfold forward. destruct (destinations (worker_data msg)) as [[| d ds] |];
        simpl; rewrite <- !app_assoc; auto.
    + simpl. rewrite <- !app_assoc. auto.
Qed.

(** A is tracked in the commands table; a message of its handler goes
    out through the message client of A. *)
Lemma worker_message_forwarded_witness :
  let st := run_inputs one_by_one second_waits in
  let st' := onWorkerMessage one_by_one 1 (reply "atomist:message" "A") true half st in
  commands st' = commands st /\
  trace st' =
    trace st ++
    [ NamespaceSet (worker_context (reply "atomist:message" "A"));
      Log debug "Received message from worker";
      ClientRespond 0 EmptyString EmptyString;
      NamespaceClear ].
Proof.
  intros st st'.
  destruct (worker_message_forwarded one_by_one 1 (reply "atomist:message" "A")
              true half st eq_refl) as (_ & Hc & _ & _ & Ht).
  split; [exact Hc | exact Ht].
Defined.

(** * Further properties of the queue *)

(** X1. The comparator of the work queue is a consistent ordering: an
    item compares equal to itself, swapping the arguments swaps the
    sign, the relation "not after" is transitive, and two items compare
    equal exactly when they are both commands or both not and carry the
    same timestamp. *)
Theorem compareMessages_consistent a b c :
  compareMessages a a = 0%Z /\
  ((compareMessages a b < 0)%Z <-> (0 < compareMessages b a)%Z) /\
  ((compareMessages a b <= 0)%Z -> (compareMessages b c <= 0)%Z ->
   (compareMessages a c <= 0)%Z) /\
  (compareMessages a b = 0%Z <->
   String.eqb (type (message a)) "atomist:command" =
     String.eqb (type (message b)) "atomist:command" /\ ts a = ts b).
Proof.
  unfold compareMessages.
  destruct (String.eqb (type (message a)) "atomist:command"),
           (String.eqb (type (message b)) "atomist:command"),
           (String.eqb (type (message c)) "atomist:command"); simpl;
    repeat split; intros; try lia; try discriminate; intuition (try discriminate; lia).
Qed.

Lemma drain_sorted n : forall q,
  ordered q -> length q = n ->
  drain n q ≡ₚ q /\ StronglySorted precedes (drain n q).
Proof.
  induction n as [| n IH]; intros q Hq Hlen.
  - destruct q; [| discriminate]. split; [reflexivity | constructor].
  - assert (Hne : q <> []) by (intros ->; discriminate).
    destruct (TinyQueueFacts.pop_some compareMessages q Hne) as (top & q' & Hpop).
    destruct (TinyQueueFacts.pop_spec compareMessages compareMessages_trans
                compareMessages_total q top q' Hq Hpop) as (Htop & Hq' & Hperm).
    simpl. rewrite Hpop.
    assert (Hlen' : length q' = n).
    { apply Permutation_length in Hperm. simpl in Hperm. lia. }
    destruct (IH q' Hq' Hlen') as [Hp Hs]. split.
    + rewrite Hperm. now apply perm_skip.
    + constructor; [exact Hs |]. apply Forall_forall. intros y Hy.
      assert (Hin : y ∈ q) by (rewrite Hperm, <- Hp; now right).
      apply list_elem_of_lookup in Hin as [j Hj].
      exact (TinyQueueFacts.root_minimal compareMessages compareMessages_trans
               compareMessages_total q top Hq Htop j y Hj).
Qed.

Lemma sorted_lookup (l : list MessageType) :
  StronglySorted precedes l ->
  forall i j x y, i < j -> l !! i = Some x -> l !! j = Some y -> precedes x y.
Proof.
  induction 1 as [| a l Hs IH Hall]; intros i j x y Hij Hx Hy; [discriminate |].
  destruct j as [| j]; [lia |]. destruct i as [| i]; simpl in *.
  - injection Hx as <-. rewrite Forall_forall in Hall. apply Hall.
    apply list_elem_of_lookup. eauto.
  - apply (IH i j); auto. lia.
Qed.

(** X2. Emptying a queue of the master gives back exactly the pending
    items, each once, in an order in which no item comes after one it
    precedes: every command comes out before every item that is not a
    command, and items of one type come out by timestamp. *)
Theorem drain_in_priority_order (q : list MessageType) :
  built q ->
  drain (length q) q ≡ₚ q /\
  forall i j x y,
    i < j -> drain (length q) q !! i = Some x -> drain (length q) q !! j = Some y ->
    (type (message y) = "atomist:command"%string ->
     type (message x) = "atomist:command"%string) /\
    (type (message x) = type (message y) -> (ts x <= ts y)%Z).
Proof.
  intros Hb. destruct (drain_sorted (length q) q (built_ordered q Hb) eq_refl)
    as [Hperm Hs].
  split; [exact Hperm |]. intros i j x y Hij Hx Hy.
  pose proof (sorted_lookup _ Hs i j x y Hij Hx Hy) as Hle.
  unfold precedes, compareMessages in Hle. split.
  - intros Hty. rewrite Hty in Hle. simpl in Hle.
    destruct (String.eqb (type (message x)) "atomist:command") eqn:E;
      [now apply String.eqb_eq in E | simpl in Hle; lia].
  - intros Hty. rewrite Hty in Hle.
    destruct (String.eqb (type (message y)) "atomist:command"); simpl in Hle; lia.
Qed.

(** An event at time 1, a command at time 3 and a command at time 2
    come out as the command of time 2, the command of time 3, the
    event. *)
Lemma drain_in_priority_order_witness :
  let q := TinyQueue.push compareMessages (command_item "c2" 2)
             (TinyQueue.push compareMessages (command_item "c3" 3)
                (TinyQueue.push compareMessages (event_item "e1" 1) [])) in
  drain (length q) q ≡ₚ q /\
  map (fun m => invocationId (message_context (message m))) (drain (length q) q)
    = ["c2"; "c3"; "e1"]%string.
Proof.
  intros q. split.
  - apply (drain_in_priority_order q). apply built_push, built_push, built_push, built_new.
  - reflexivity.
Defined.

(** * Nothing submitted is lost *)

Lemma submitted_app t1 t2 : submitted (t1 ++ t2) = submitted t1 + submitted t2.
Proof. unfold submitted. now rewrite List.filter_app, length_app. Qed.

Lemma dispatch_effects_submitted ext :
  Forall (fun e => dispatch_effect e = true) ext -> submitted ext = 0.
Proof.
  induction 1 as [| e ext He _ IH]; [reflexivity |].
  unfold submitted in *. simpl. destruct e; try discriminate; exact IH.
Qed.

(** What a dispatch step adds to the trace: effects of dispatching
    only. *)
Lemma startMessage_effects cfg rnd st :
  exists ext,
    trace (startMessage cfg rnd st) = trace st ++ ext /\
    Forall (fun e => dispatch_effect e = true) ext.
Proof.
  assert (Hrep : forall s, exists ext,
            trace (reportQueueLength cfg s) = trace s ++ ext /\
            Forall (fun e => dispatch_effect e = true) ext).
  { intros s. unfold reportQueueLength.
    destruct (statsd_enabled cfg), (statsd_instance cfg);
      try (exists []; rewrite app_nil_r; split; [reflexivity | constructor]).
    eexists. simpl. rewrite <- !app_assoc. split; [reflexivity |].
    repeat constructor. }
  destruct (assignWorker_frame cfg rnd st) as (_ & _ & Ht & _).
  destruct (startMessage_cases cfg rnd st)
    as [[_ ->] | [(_ & _ & ->) | (_ & w & m & q & _ & _ & ->)]].
  - apply Hrep.
  - rewrite <- Ht. apply Hrep.
  - destruct (Hrep (sent w m q (fst (assignWorker cfg rnd st)))) as (ext & -> & Hext).
    unfold sent, track.
    destruct (String.eqb _ "atomist:command");
      [| destruct (String.eqb _ "atomist:event")]; simpl; rewrite Ht;
      rewrite <- !app_assoc; eexists; (split; [reflexivity |]);
      simpl; repeat (constructor; [reflexivity |]); exact Hext.
Qed.

Lemma startMessage_submitted cfg rnd st :
  submitted (trace (startMessage cfg rnd st)) = submitted (trace st).
Proof.
  destruct (startMessage_effects cfg rnd st) as (ext & -> & Hext).
  rewrite submitted_app, (dispatch_effects_submitted ext Hext). lia.
Qed.

(** [pop] takes one item out, heap or not. *)
Lemma pop_messages_length q m q' :
  TinyQueue.pop compareMessages q = (Some m, q') -> length q = S (length q').
Proof.
  destruct q as [| m0 q0]; [discriminate |]. unfold TinyQueue.pop.
  replace (length (m0 :: q0) - 1) with (length q0) by (simpl; lia).
  remember (m0 :: q0) as q eqn:Eq.
  assert (Hlen : length q = S (length q0)) by (subst q; reflexivity).
  destruct (q !! length q0) as [bottom |] eqn:Eb.
  - destruct (0 <? length q0) eqn:En; intros [= _ <-].
    + apply Nat.ltb_lt in En. unfold TinyQueue.down.
      assert (Ht : length (take (length q0) q) = length q0)
        by (rewrite length_take; lia).
      assert (H0 : <[0 := bottom]> (take (length q0) q) !! 0 = Some bottom)
        by (apply list_lookup_insert_eq; lia).
      rewrite H0.
      assert (Hpos : 0 < length (<[0 := bottom]> (take (length q0) q)))
        by (rewrite length_insert; lia).
      rewrite (Permutation_length
                 (TinyQueueFacts.down_loop_perm compareMessages compareMessages_total
                    _ _ bottom 0 Hpos)).
      rewrite !length_insert. lia.
    + rewrite length_take. lia.
  - apply lookup_ge_None in Eb. lia.
Qed.

(** A dispatch step moves an item from the queue to the messages sent,
    or moves nothing. *)
Lemma startMessage_balance cfg rnd st :
  length (messages (startMessage cfg rnd st)) +
  length (sends (trace (startMessage cfg rnd st))) =
  length (messages st) + length (sends (trace st)).
Proof.
  destruct (assignWorker_frame cfg rnd st) as (Hm & _ & Ht & _).
  destruct (startMessage_cases cfg rnd st)
    as [[_ ->] | [(_ & _ & ->) | (_ & w & m & q & _ & Hpop & ->)]];
    rewrite reportQueueLength_sends, (proj1 (reportQueueLength_frame _ _)).
  - reflexivity.
  - now rewrite Hm, Ht.
  - unfold sent. simpl. rewrite (proj1 (track_frame _ _ _)). simpl.
    rewrite sends_app, track_sends. simpl. rewrite sends_app, Ht. simpl.
    rewrite app_nil_r, length_app. simpl.
    apply pop_messages_length in Hpop. lia.
Qed.

Lemma same_outside_refl st : same_outside st st.
Proof. repeat split. Qed.

Lemma settle_commands_outside how k v st :
  same_outside st (settle_commands how k v st) /\
  trace (settle_commands how k v st) = trace st.
Proof.
  rewrite settle_commands_spec. destruct (JsMap.get k (commands st)); simpl;
    split; auto using same_outside_refl. repeat split.
Qed.

Lemma settle_events_spec how k v st :
  settle_events how k v st =
  match JsMap.get k (events st) with
  | Some e =>
      set_events (JsMap.delete k (events st))
        (set_deferreds (how (result (entry_dispatched e)) v (deferreds st)) st)
  | None => st
  end.
Proof.
  unfold settle_events, JsMap.has. destruct (JsMap.get k (events st)); reflexivity.
Qed.

Lemma settle_events_outside how k v st :
  same_outside st (settle_events how k v st) /\
  trace (settle_events how k v st) = trace st.
Proof.
  rewrite settle_events_spec. destruct (JsMap.get k (events st)); simpl;
    split; auto using same_outside_refl. repeat split.
Qed.

(** The shape of [onWorkerMessage]: some edits that leave queue, pool
    and session alone, followed or not by a dispatch step. *)
Lemma onWorkerMessage_shape cfg w msg ok rnd st :
  exists s,
    (onWorkerMessage cfg w msg ok rnd st = s \/
     onWorkerMessage cfg w msg ok rnd st = startMessage cfg rnd s) /\
    same_outside st s /\
    exists ext, trace s = trace st ++ ext /\
                Forall (fun e => handler_effect e = true) ext.
Proof.
  assert (Hst : same_outside st st /\
                exists ext, trace st = trace st ++ ext /\
                            Forall (fun e => handler_effect e = true) ext).
  { split; [apply same_outside_refl |]. exists []. rewrite app_nil_r. auto. }
  assert (Hsc : forall how k v,
            same_outside st
              (emit NamespaceClear (settle_commands how k v
                 (after_listeners ok
                    (emit (Log debug "Received message from worker")
                       (emit (NamespaceSet (worker_context msg)) st))))) /\
            exists ext,
              trace (emit NamespaceClear (settle_commands how k v
                 (after_listeners ok
                    (emit (Log debug "Received message from worker")
                       (emit (NamespaceSet (worker_context msg)) st)))))
              = trace st ++ ext /\
              Forall (fun e => handler_effect e = true) ext).
  { intros how k v.
    destruct (settle_commands_outside how k v
                (after_listeners ok
                   (emit (Log debug "Received message from worker")
                      (emit (NamespaceSet (worker_context msg)) st))))
      as [(H1 & H2 & H3 & H4 & H5 & H6) Ht].
    split.
    - unfold same_outside. simpl. rewrite H1, H2, H3, H4, H5, H6.
      destruct ok; repeat split.
    - simpl. rewrite Ht. destruct ok; simpl; rewrite <- !app_assoc;
        eexists; (split; [reflexivity |]); repeat constructor. }
  assert (Hse : forall how k v,
            same_outside st
              (emit NamespaceClear (settle_events how k v
                 (after_listeners ok
                    (emit (Log debug "Received message from worker")
                       (emit (NamespaceSet (worker_context msg)) st))))) /\
            exists ext,
              trace (emit NamespaceClear (settle_events how k v
                 (after_listeners ok
                    (emit (Log debug "Received message from worker")
                       (emit (NamespaceSet (worker_context msg)) st)))))
              = trace st ++ ext /\
              Forall (fun e => handler_effect e = true) ext).
  { intros how k v.
    destruct (settle_events_outside how k v
                (after_listeners ok
                   (emit (Log debug "Received message from worker")
                      (emit (NamespaceSet (worker_context msg)) st))))
      as [(H1 & H2 & H3 & H4 & H5 & H6) Ht].
    split.
    - unfold same_outside. simpl. rewrite H1, H2, H3, H4, H5, H6.
      destruct ok; repeat split.
    - simpl. rewrite Ht. destruct ok; simpl; rewrite <- !app_assoc;
        eexists; (split; [reflexivity |]); repeat constructor. }
  assert (Hemit : forall s, (same_outside st s /\
                    exists ext, trace s = trace st ++ ext /\
                                Forall (fun e => handler_effect e = true) ext) ->
                  forall e, handler_effect e = true ->
                  same_outside st (emit e s) /\
                  exists ext, trace (emit e s) = trace st ++ ext /\
                              Forall (fun e => handler_effect e = true) ext).
  { intros s [Ho (ext & Ht & Hext)] e He. split; [exact Ho |].
    exists (ext ++ [e]). simpl. rewrite Ht, <- app_assoc. split; [reflexivity |].
    apply Forall_app. auto. }
  by_kind t.
  - eexists. split; [left; reflexivity |]. now apply Hemit.
  - eexists. split; [left; reflexivity |]. exact Hst.
  - eexists. split; [left; reflexivity |].
    destruct (if JsMap.has _ _ then _ else _).
    + destruct (destinations _) as [[| d ds] |]; repeat apply Hemit; auto.
    + repeat apply Hemit; auto.
  - eexists. split; [left; reflexivity |]. repeat apply Hemit; auto.
  - eexists. split; [right; reflexivity |]. apply Hsc.
  - eexists. split; [right; reflexivity |]. apply Hsc.
  - eexists. split; [right; reflexivity |]. apply Hse.
  - eexists. split; [right; reflexivity |]. apply Hse.
  - eexists. split; [left; reflexivity |]. repeat apply Hemit; auto.
  - eexists. split; [left; reflexivity |]. repeat apply Hemit; auto.
  - eexists. split; [left; reflexivity |]. exact Hst.
Qed.

Lemma handler_effects_quiet ext :
  Forall (fun e => handler_effect e = true) ext ->
  sends ext = [] /\ submitted ext = 0.
Proof.
  induction 1 as [| e ext He _ [IH1 IH2]]; [auto |].
  unfold sends, submitted in *. simpl.
  destruct e; try discriminate; simpl; auto.
Qed.

Lemma run_trace cfg st :
  sends (trace (run cfg st)) = sends (trace st) /\
  submitted (trace (run cfg st)) = submitted (trace st).
Proof.
  unfold run. induction (numWorkers cfg) as [| n [IH1 IH2]]; [auto |].
  simpl. rewrite sends_app, submitted_app, IH1, IH2. simpl.
  rewrite app_nil_r. split; [reflexivity | unfold submitted; simpl; lia].
Qed.

(** X3. Nothing submitted is lost or sent twice: in every reachable
    state the number of submissions equals the number of items still
    queued plus the number of messages sent to workers. *)
Theorem submitted_queued_or_sent cfg st :
  reachable cfg st ->
  submitted (trace st) = length (messages st) + length (sends (trace st)).
Proof.
  induction 1 as [| st i _ IH]; [reflexivity |].
  destruct i; simpl.
  - destruct (run_trace cfg st) as [-> ->]. now rewrite run_messages.
  - unfold invokeCommand. simpl.
    rewrite startMessage_submitted, startMessage_balance. simpl.
    rewrite submitted_app, sends_app, TinyQueueFacts.push_length, IH. simpl.
    rewrite app_nil_r. unfold submitted. simpl. lia.
  - unfold invokeEvent. simpl.
    rewrite startMessage_submitted, startMessage_balance. simpl.
    rewrite submitted_app, sends_app, TinyQueueFacts.push_length, IH. simpl.
    rewrite app_nil_r. unfold submitted. simpl. lia.
  - destruct (onWorkerMessage_shape cfg w msg listenersOk rnd st)
      as (s & Hs & (Hm & _) & ext & Ht & Hext).
    destruct (handler_effects_quiet ext Hext) as [Hsend Hsub].
    assert (Hbal : submitted (trace s) = length (messages s) + length (sends (trace s))).
    { rewrite Ht, Hm, submitted_app, sends_app, Hsend, Hsub, app_nil_r. lia. }
    destruct Hs as [-> | ->]; [exact Hbal |].
    now rewrite startMessage_submitted, startMessage_balance.
  - unfold cluster_online.
    rewrite startMessage_submitted, startMessage_balance. simpl.
    rewrite submitted_app, sends_app. simpl. rewrite app_nil_r.
    unfold submitted at 2. simpl. lia.
  - rewrite submitted_app, sends_app. simpl. rewrite app_nil_r.
    unfold submitted at 2. simpl. lia.
  - unfold cluster_exit. simpl. destruct (_ && _); simpl; [| exact IH].
    rewrite <- app_assoc, submitted_app, sends_app. simpl. rewrite app_nil_r.
    unfold submitted at 2. simpl. lia.
  - rewrite reportQueueLength_sends, (proj1 (reportQueueLength_frame _ _)).
    unfold reportQueueLength.
    destruct (statsd_enabled cfg), (statsd_instance cfg); simpl; auto.
    rewrite <- !app_assoc, submitted_app. unfold submitted at 2. simpl. lia.
  - rewrite <- app_assoc, submitted_app, sends_app. simpl. rewrite app_nil_r.
    unfold submitted at 2. simpl. lia.
  - rewrite <- app_assoc, submitted_app, sends_app. simpl. rewrite app_nil_r.
    unfold submitted at 2. simpl. lia.
  - exact IH.
  - exact IH.
Qed.

(** Four submissions to a worker that takes two: two sent, two queued. *)
Lemma submitted_queued_or_sent_witness :
  submitted (trace (run_inputs two_at_a_time worker_replaced)) = 4 /\
  length (messages (run_inputs two_at_a_time worker_replaced)) = 2 /\
  length (sends (trace (run_inputs two_at_a_time worker_replaced))) = 2.
Proof.
  pose proof (submitted_queued_or_sent two_at_a_time
                (run_inputs two_at_a_time worker_replaced)
                (reachable_run_inputs two_at_a_time worker_replaced)) as H.
  assert (Hm : length (messages (run_inputs two_at_a_time worker_replaced)) = 2)
    by reflexivity.
  assert (Hs : length (sends (trace (run_inputs two_at_a_time worker_replaced))) = 2)
    by reflexivity.
  rewrite Hm, Hs in H. auto.
Defined.

(** * Failing listeners *)

Lemma set_trace_id st : set_trace (trace st) st = st.
Proof. now destruct st. Qed.

Lemma assignWorker_set_trace cfg rnd t st :
  assignWorker cfg rnd (set_trace t st) =
  (set_trace t (fst (assignWorker cfg rnd st)), snd (assignWorker cfg rnd st)).
Proof.
  unfold assignWorker. cbn [events commands workers set_trace].
  destruct (scan (events st) _ []) as [ws1 dead1].
  cbn [set_events set_trace commands events].
  destruct (scan (commands st) ws1 []) as [ws2 dead2].
  destruct (length _ =? 0); reflexivity.
Qed.

(** The dispatch step does not read the trace: on a state with another
    trace it does the same and adds the same effects. *)
Lemma startMessage_set_trace cfg rnd st t :
  exists ext,
    trace (startMessage cfg rnd st) = trace st ++ ext /\
    startMessage cfg rnd (set_trace t st) = set_trace (t ++ ext) (startMessage cfg rnd st).
Proof.
  assert (Hrep : forall s u, exists ext,
            trace (reportQueueLength cfg s) = trace s ++ ext /\
            reportQueueLength cfg (set_trace u s) =
              set_trace (u ++ ext) (reportQueueLength cfg s)).
  { intros s u. unfold reportQueueLength.
    destruct (statsd_enabled cfg), (statsd_instance cfg);
      try (exists []; rewrite !app_nil_r; split; [reflexivity |];
           unfold set_trace; simpl; reflexivity).
    eexists. simpl. rewrite <- !app_assoc. split; [reflexivity |].
    unfold set_trace, emit. simpl. rewrite <- !app_assoc. reflexivity. }
  unfold startMessage. cbn [messages set_trace].
  destruct (0 <? length (messages st)).
  2: { destruct (Hrep st t) as (ext & H1 & H2). eauto. }
  rewrite assignWorker_set_trace.
  pose proof (assignWorker_frame cfg rnd st) as (_ & _ & Ht & _).
  destruct (assignWorker cfg rnd st) as [st1 [w |]]; cbn [fst snd] in *.
  2: { destruct (Hrep st1 t) as (ext & H1 & H2). rewrite <- Ht. eauto. }
  cbn [messages set_trace].
  destruct (TinyQueue.pop compareMessages (messages st1)) as [[m |] q].
  2: { destruct (Hrep st1 t) as (ext & H1 & H2). rewrite <- Ht. eauto. }
  unfold track. cbn [commands events emit set_messages set_trace].
  destruct (String.eqb (type (message m)) "atomist:command").
  - match goal with
    | |- context [reportQueueLength cfg (emit ?e3 (emit ?e2 (set_commands ?c (emit ?e1 ?s))))] =>
        destruct (Hrep (emit e3 (emit e2 (set_commands c
                     (emit e1 (set_messages q st1))))) (((t ++ [e1]) ++ [e2]) ++ [e3]))
          as (ext & H1 & H2)
    end.
    eexists. split.
    + rewrite H1. simpl. rewrite Ht, <- !app_assoc. reflexivity.
    + etransitivity; [exact H2 |]. rewrite <- !app_assoc. reflexivity.
  - destruct (String.eqb (type (message m)) "atomist:event").
    + match goal with
      | |- context [reportQueueLength cfg (emit ?e3 (emit ?e2 (set_events ?c (emit ?e1 ?s))))] =>
          destruct (Hrep (emit e3 (emit e2 (set_events c
                       (emit e1 (set_messages q st1))))) (((t ++ [e1]) ++ [e2]) ++ [e3]))
            as (ext & H1 & H2)
      end.
      eexists. split.
      * rewrite H1. simpl. rewrite Ht, <- !app_assoc. reflexivity.
      * etransitivity; [exact H2 |]. rewrite <- !app_assoc. reflexivity.
    + match goal with
      | |- context [reportQueueLength cfg (emit ?e3 (emit ?e1 ?s))] =>
          destruct (Hrep (emit e3 (emit e1 (set_messages q st1))) ((t ++ [e1]) ++ [e3]))
            as (ext & H1 & H2)
      end.
      eexists. split.
      * rewrite H1. simpl. rewrite Ht, <- !app_assoc. reflexivity.
      * etransitivity; [exact H2 |]. rewrite <- !app_assoc. reflexivity.
Qed.

Lemma settle_commands_set_trace how k v t st :
  settle_commands how k v (set_trace t st) = set_trace t (settle_commands how k v st).
Proof.
  rewrite !settle_commands_spec. cbn [commands set_trace].
  destruct (JsMap.get k (commands st)); reflexivity.
Qed.

Lemma settle_events_set_trace how k v t st :
  settle_events how k v (set_trace t st) = set_trace t (settle_events how k v st).
Proof.
  rewrite !settle_events_spec. cbn [events set_trace].
  destruct (JsMap.get k (events st)); reflexivity.
Qed.

Lemma listeners_do_not_matter cfg rnd (f : Master -> Master) s0 :
  (forall t s, f (set_trace t s) = set_trace t (f s)) ->
  (forall s, trace (f s) = trace s) ->
  let a := startMessage cfg rnd (emit NamespaceClear (f (after_listeners true s0))) in
  let b := startMessage cfg rnd (emit NamespaceClear (f (after_listeners false s0))) in
  commands b = commands a /\ events b = events a /\ messages b = messages a /\
  deferreds b = deferreds a /\ workers b = workers a /\
  List.filter not_warning (trace b) = List.filter not_warning (trace a).
Proof.
  intros Hf Ht a b. subst a b. cbn [after_listeners].
  assert (E : emit NamespaceClear (f (emit (Log warn "Failed to run listeners") s0)) =
              set_trace (trace s0 ++ [Log warn "Failed to run listeners"; NamespaceClear])
                (emit NamespaceClear (f s0))).
  { replace (emit (Log warn "Failed to run listeners") s0)
      with (set_trace (trace s0 ++ [Log warn "Failed to run listeners"]) s0)
      by (now destruct s0).
    rewrite Hf. unfold emit, set_trace. simpl. rewrite <- app_assoc. reflexivity. }
  rewrite E.
  destruct (startMessage_set_trace cfg rnd (emit NamespaceClear (f s0))
              (trace s0 ++ [Log warn "Failed to run listeners"; NamespaceClear]))
    as (ext & H1 & ->).
  cbn [commands events messages deferreds workers trace set_trace].
  do 5 (split; [reflexivity |]).
  rewrite H1. cbn [trace emit]. rewrite Ht.
  rewrite !List.filter_app. simpl. reflexivity.
Qed.

(** X4. Whether the listeners fail or not makes no difference to what a
    worker message does: the tables, the queue, the deferred results
    and the pool end up the same, and so does every effect; a failure
    only adds a warning to the log. *)
Theorem listener_failure_changes_nothing cfg w msg rnd st :
  let a := onWorkerMessage cfg w msg true rnd st in
  let b := onWorkerMessage cfg w msg false rnd st in
  commands b = commands a /\ events b = events a /\ messages b = messages a /\
  deferreds b = deferreds a /\ workers b = workers a /\
  List.filter not_warning (trace b) = List.filter not_warning (trace a).
Proof.
  cbv zeta. by_kind t; auto 10.
  - apply (listeners_do_not_matter cfg rnd
             (settle_commands resolve (invocationId (worker_context msg)) (worker_data msg))).
    + intros. apply settle_commands_set_trace.
    + intros. apply settle_commands_outside.
  - apply (listeners_do_not_matter cfg rnd
             (settle_commands reject (invocationId (worker_context msg)) (worker_data msg))).
    + intros. apply settle_commands_set_trace.
    + intros. apply settle_commands_outside.
  - apply (listeners_do_not_matter cfg rnd
             (settle_events resolve (invocationId (worker_context msg)) (worker_data msg))).
    + intros. apply settle_events_set_trace.
    + intros. apply settle_events_outside.
  - apply (listeners_do_not_matter cfg rnd
             (settle_events reject (invocationId (worker_context msg)) (worker_data msg))).
    + intros. apply settle_events_set_trace.
    + intros. apply settle_events_outside.
Qed.

(** * Outcomes of commands and events *)

Lemma startMessage_idle cfg rnd s :
  messages s = [] ->
  commands (startMessage cfg rnd s) = commands s /\
  events (startMessage cfg rnd s) = events s.
Proof.
  intros Hq. destruct (startMessage_cases cfg rnd s)
    as [[_ ->] | [(Hne & _) | (Hne & _)]]; try congruence.
  now destruct (reportQueueLength_frame cfg s) as (_ & -> & -> & _).
Qed.

(** What a dispatch step does under a key that no queued item has: an
    absent key stays absent, and the entry of a live worker stays. *)
Lemma startMessage_keeps cfg rnd s k :
  keys_ok s -> built (messages s) ->
  (forall m, m ∈ messages s -> invocationId (message_context (message m)) <> k) ->
  (JsMap.get k (commands s) = None ->
   JsMap.get k (commands (startMessage cfg rnd s)) = None) /\
  (JsMap.get k (events s) = None ->
   JsMap.get k (events (startMessage cfg rnd s)) = None) /\
  (forall e, live s (worker e) -> JsMap.get k (commands s) = Some e ->
     JsMap.get k (commands (startMessage cfg rnd s)) = Some e) /\
  (forall e, live s (worker e) -> JsMap.get k (events s) = Some e ->
     JsMap.get k (events (startMessage cfg rnd s)) = Some e).
Proof.
  intros Hk Hb Hq.
  destruct (assignWorker_tables cfg rnd s) as [Hte Htc].
  assert (Hnone : forall dead (table : JsMap.t PendingEntry),
            JsMap.get k table = None -> JsMap.get k (delete_all dead table) = None).
  { intros dead table Hn.
    destruct (JsMap.get k (delete_all dead table)) as [e |] eqn:E; [| reflexivity].
    apply get_delete_all_Some in E as [_ E]. congruence. }
  destruct (startMessage_get cfg rnd s k Hb Hq) as [(_ & -> & ->) | [-> ->]];
    [auto |].
  rewrite Hte, Htc. repeat split; auto.
  - intros e Hl Hg. rewrite <- Htc. now apply assignWorker_keeps.
  - intros e Hl Hg. rewrite <- Hte. now apply assignWorker_keeps.
Qed.

Lemma onWorkerMessage_outcome cfg w msg ok rnd st t (of_command : bool)
  (how : Deferred -> WorkerData -> list DeferredState -> list DeferredState) :
  worker_type msg = Some t ->
  (t, (of_command, how)) ∈ outcome_kinds ->
  onWorkerMessage cfg w msg ok rnd st =
  startMessage cfg rnd
    (emit NamespaceClear
       ((if of_command then settle_commands else settle_events)
          how (invocationId (worker_context msg)) (worker_data msg)
          (after_listeners ok
             (emit (Log debug "Received message from worker")
                (emit (NamespaceSet (worker_context msg)) st))))).
Proof.
  intros Hty Hin. unfold onWorkerMessage. rewrite Hty. unfold outcome_kinds in Hin.
  repeat (apply elem_of_cons in Hin as [Heq | Hin];
          [injection Heq as -> -> ->; reflexivity |]).
  inversion Hin.
Qed.

Lemma settle_events_tables how k v st :
  events (settle_events how k v st) = JsMap.delete k (events st) /\
  commands (settle_events how k v st) = commands st.
Proof.
  rewrite settle_events_spec. destruct (JsMap.get k (events st)) eqn:E; simpl.
  - auto.
  - now rewrite delete_absent.
Qed.

(** X5. An outcome message of any of the four kinds settles in the
    table of its own class only. The deferred result tracked there
    under the message's invocation identity is resolved (success) or
    rejected (failure) with the outcome, and nothing else is settled;
    a failure reply never resolves and a success reply never rejects.
    Unless a queued item has the same identity, the entry is gone
    afterwards, and an entry under the same identity in the other
    table stays as it is if its worker is live. With an empty queue
    the other table is untouched altogether. *)
Theorem outcome_settles_in_own_table cfg w msg ok rnd st t (of_command : bool)
  (how : Deferred -> WorkerData -> list DeferredState -> list DeferredState) :
  reachable cfg st ->
  worker_type msg = Some t ->
  (t, (of_command, how)) ∈ outcome_kinds ->
  let k := invocationId (worker_context msg) in
  let st' := onWorkerMessage cfg w msg ok rnd st in
  deferreds st' =
    match JsMap.get k (own_table of_command st) with
    | Some e => how (result (entry_dispatched e)) (worker_data msg) (deferreds st)
    | None => deferreds st
    end /\
  (messages st = [] ->
   own_table of_command st' = JsMap.delete k (own_table of_command st) /\
   other_table of_command st' = other_table of_command st) /\
  ((forall m, m ∈ messages st -> invocationId (message_context (message m)) <> k) ->
   JsMap.get k (own_table of_command st') = None /\
   forall e, live st (worker e) ->
     JsMap.get k (other_table of_command st) = Some e ->
     JsMap.get k (other_table of_command st') = Some e).
Proof.
  intros Hreach Hty Hin k st'. subst st'.
  rewrite (onWorkerMessage_outcome cfg w msg ok rnd st t of_command how Hty Hin).
  fold k.
  set (s0 := emit (Log debug "Received message from worker")
               (emit (NamespaceSet (worker_context msg)) st)).
  destruct (after_listeners_frame ok s0) as (Hc1 & He1 & Hd1 & Hm1 & Hw1).
  set (s1 := after_listeners ok s0) in *.
  change (commands s0) with (commands st) in Hc1.
  change (events s0) with (events st) in He1.
  change (deferreds s0) with (deferreds st) in Hd1.
  change (messages s0) with (messages st) in Hm1.
  change (workers s0) with (workers st) in Hw1.
  pose proof (reachable_keys_ok cfg st Hreach) as Hk.
  pose proof (reachable_built cfg st Hreach) as Hb.
  assert (Hk1 : keys_ok s1) by (apply (keys_ok_same st); auto).
  destruct of_command; cbn [own_table other_table].
  - set (s3 := emit NamespaceClear (settle_commands how k (worker_data msg) s1)).
    destruct (settle_commands_tables how k (worker_data msg) s1) as [Hc2 He2].
    destruct (settle_commands_outside how k (worker_data msg) s1)
      as [(Hm2 & Hw2 & _) _].
    assert (Hc3 : commands s3 = JsMap.delete k (commands st)) by (rewrite <- Hc1; exact Hc2).
    assert (He3 : events s3 = events st) by (rewrite <- He1; exact He2).
    assert (Hm3 : messages s3 = messages st) by (rewrite <- Hm1; exact Hm2).
    assert (Hw3 : workers s3 = workers st) by (rewrite <- Hw1; exact Hw2).
    assert (Hk3 : keys_ok s3).
    { apply (keys_ok_same (settle_commands how k (worker_data msg) s1));
        [reflexivity .. |]. now apply settle_commands_keys_ok. }
    destruct (startMessage_frame cfg rnd s3) as (-> & _).
    split; [| split].
    + unfold s3. simpl. rewrite settle_commands_spec, Hc1.
      destruct (JsMap.get k (commands st)); simpl; now rewrite Hd1.
    + intros Hq. rewrite <- Hm3 in Hq.
      destruct (startMessage_idle cfg rnd s3 Hq) as [-> ->]. auto.
    + intros Hq. rewrite <- Hm3 in Hq, Hb.
      destruct (startMessage_keeps cfg rnd s3 k Hk3 Hb Hq) as (Hn & _ & _ & Hkeep).
      split; [apply Hn; rewrite Hc3; apply get_delete_eq |].
      intros e Hl Hg. apply Hkeep; [| now rewrite He3].
      unfold live. now rewrite Hw3.
  - set (s3 := emit NamespaceClear (settle_events how k (worker_data msg) s1)).
    destruct (settle_events_tables how k (worker_data msg) s1) as [He2 Hc2].
    destruct (settle_events_outside how k (worker_data msg) s1)
      as [(Hm2 & Hw2 & _) _].
    assert (He3 : events s3 = JsMap.delete k (events st)) by (rewrite <- He1; exact He2).
    assert (Hc3 : commands s3 = commands st) by (rewrite <- Hc1; exact Hc2).
    assert (Hm3 : messages s3 = messages st) by (rewrite <- Hm1; exact Hm2).
    assert (Hw3 : workers s3 = workers st) by (rewrite <- Hw1; exact Hw2).
    assert (Hk3 : keys_ok s3).
    { apply (keys_ok_same (settle_events how k (worker_data msg) s1));
        [reflexivity .. |]. now apply settle_events_keys_ok. }
    destruct (startMessage_frame cfg rnd s3) as (-> & _).
    split; [| split].
    + unfold s3. simpl. rewrite settle_events_spec, He1.
      destruct (JsMap.get k (events st)); simpl; now rewrite Hd1.
    + intros Hq. rewrite <- Hm3 in Hq.
      destruct (startMessage_idle cfg rnd s3 Hq) as [-> ->]. auto.
    + intros Hq. rewrite <- Hm3 in Hq, Hb.
      destruct (startMessage_keeps cfg rnd s3 k Hk3 Hb Hq) as (_ & Hn & Hkeep & _).
      split; [apply Hn; rewrite He3; apply get_delete_eq |].
      intros e Hl Hg. apply Hkeep; [| now rewrite Hc3].
      unfold live. now rewrite Hw3.
Qed.

(** Worker 1 reports that the command A failed: the deferred result of
    A, number 0, is rejected with what the worker sent. *)
Lemma outcome_settles_in_own_table_witness :
  deferreds (onWorkerMessage one_by_one 1 (reply "atomist:command_failure" "A")
               true half (run_inputs one_by_one second_waits)) =
  reject 0 (worker_data (reply "atomist:command_failure" "A"))
    (deferreds (run_inputs one_by_one second_waits)).
Proof.
  refine (proj1 (outcome_settles_in_own_table one_by_one 1
                   (reply "atomist:command_failure" "A") true half
                   (run_inputs one_by_one second_waits)
                   "atomist:command_failure"%string true reject
                   (reachable_run_inputs one_by_one second_waits) eq_refl _)).
  unfold outcome_kinds. apply list_elem_of_further, list_elem_of_here.
Defined.

(** * Messages that settle nothing *)

(** X6. The [atomist:online], [atomist:status] and [atomist:shutdown]
    messages change neither the queue nor the tables nor any deferred
    result and do not run the dispatch step. The first resolves the
    readiness of that worker, the second passes the data it carries to
    the websocket as it is, the third exits the process with the data
    it carries as the code. *)
Theorem control_messages cfg w msg ok rnd st t :
  worker_type msg = Some t ->
  t ∈ ["atomist:online"; "atomist:status"; "atomist:shutdown"]%string ->
  let st' := onWorkerMessage cfg w msg ok rnd st in
  messages st' = messages st /\ commands st' = commands st /\
  events st' = events st /\ deferreds st' = deferreds st /\
  trace st' =
    trace st ++
    (if String.eqb t "atomist:online" then [ResolveOnline w]
     else [ NamespaceSet (worker_context msg);
            Log debug "Received message from worker" ] ++
          (if String.eqb t "atomist:status" then [WsSend (worker_data msg)]
           else [ Log info "Shutdown requested from worker";
                  ProcessExit (worker_data msg) ])).
Proof.
  intros Hty Hin st'. subst st'. unfold onWorkerMessage. rewrite Hty.
  repeat (apply elem_of_cons in Hin as [-> | Hin];
          [simpl; rewrite <- ?app_assoc; auto 10 |]).
  inversion Hin.
Qed.

Lemma control_messages_witness :
  trace (onWorkerMessage one_by_one 1 (reply "atomist:status" "A") true half initial)
  = [ NamespaceSet (worker_context (reply "atomist:status" "A"));
      Log debug "Received message from worker";
      WsSend (worker_data (reply "atomist:status" "A")) ].
Proof.
  refine (proj2 (proj2 (proj2 (proj2
            (control_messages one_by_one 1 (reply "atomist:status" "A") true half
               initial "atomist:status"%string eq_refl _))))).
  apply list_elem_of_further, list_elem_of_here.
Defined.

(** * Session, shutdown and the pool *)

Lemma onWorkerMessage_outside cfg w msg ok rnd st :
  workers (onWorkerMessage cfg w msg ok rnd st) = workers st /\
  nextWorkerId (onWorkerMessage cfg w msg ok rnd st) = nextWorkerId st /\
  registration (onWorkerMessage cfg w msg ok rnd st) = registration st /\
  connected (onWorkerMessage cfg w msg ok rnd st) = connected st /\
  shutdownInitiated (onWorkerMessage cfg w msg ok rnd st) = shutdownInitiated st.
Proof.
  destruct (onWorkerMessage_shape cfg w msg ok rnd st)
    as (s & Hs & (_ & Hw & Hn & Hr & Hc & Hsh) & _).
  destruct Hs as [-> | ->]; [auto 10 |].
  destruct (startMessage_frame cfg rnd s) as (_ & -> & -> & -> & -> & ->). auto 10.
Qed.

Lemma run_outside cfg st :
  registration (run cfg st) = registration st /\
  connected (run cfg st) = connected st /\
  shutdownInitiated (run cfg st) = shutdownInitiated st.
Proof.
  unfold run. induction (numWorkers cfg) as [| n IH]; [auto |]. simpl. exact IH.
Qed.

(** Only a registration confirmation gives the master a registration. *)
Lemma step_registration cfg st i :
  (forall reg, i <> Registered reg) ->
  registration st = None -> registration (step cfg st i) = None.
Proof.
  intros Hi Hr. destruct i; simpl; auto.
  - now destruct (run_outside cfg st) as (-> & _).
  - unfold invokeCommand. simpl.
    now destruct (startMessage_frame cfg rnd
      (emit (Callback (length (deferreds st)))
         (set_messages
            (TinyQueue.push compareMessages
               {| message := {| type := "atomist:command";
                                message_registration := registration st;
                                message_context := context ctx; data := command |};
                  dispatched := {| result := length (deferreds st);
                                   dispatched_context := ctx |};
                  ts := now |} (messages st))
            (set_deferreds (deferreds st ++ [Pending]) st))))
      as (_ & _ & _ & -> & _).
  - unfold invokeEvent. simpl.
    now destruct (startMessage_frame cfg rnd
      (emit (Callback (length (deferreds st)))
         (set_messages
            (TinyQueue.push compareMessages
               {| message := {| type := "atomist:event";
                                message_registration := registration st;
                                message_context := context ctx; data := ev |};
                  dispatched := {| result := length (deferreds st);
                                   dispatched_context := ctx |};
                  ts := now |} (messages st))
            (set_deferreds (deferreds st ++ [Pending]) st))))
      as (_ & _ & _ & -> & _).
  - now destruct (onWorkerMessage_outside cfg w msg listenersOk rnd st) as (_ & _ & -> & _).
  - unfold cluster_online.
    now destruct (startMessage_frame cfg rnd (emit (Log debug "Worker connected") st))
      as (_ & _ & _ & -> & _).
  - unfold cluster_exit. simpl. now destruct (_ && _).
  - now destruct (reportQueueLength_frame cfg st) as (_ & _ & _ & _ & _ & _ & -> & _).
  - now destruct (Hi reg).
Qed.

(** X7. After a disconnect the health indicator answers [Down], and
    keeps answering [Down] whatever happens, a new connection
    included, until a registration confirmation arrives. *)
Theorem down_until_registered cfg st inputs :
  Forall (fun i => forall reg, i <> Registered reg) inputs ->
  status (healthIndicator (fold_left (step cfg) inputs (onDisconnect st))) = Down.
Proof.
  intros Hin.
  assert (Hreg : registration (fold_left (step cfg) inputs (onDisconnect st)) = None).
  { assert (H0 : registration (onDisconnect st) = None) by reflexivity.
    revert H0. generalize (onDisconnect st). induction Hin as [| i inputs Hi _ IH];
      intros s Hs; simpl; [exact Hs |].
    apply IH. now apply step_registration. }
  unfold healthIndicator. rewrite Hreg. now rewrite andb_false_r.
Qed.

(** The websocket reconnects and work goes on, but no registration has
    come yet. *)
Lemma down_until_registered_witness :
  status (healthIndicator
            (fold_left (step one_by_one)
               [Connected; InvokeCommand (context_of "A") EmptyString 1 half]
               (onDisconnect (run_inputs one_by_one [Run; Registered "r"%string; Connected]))))
  = Down.
Proof.
  apply (down_until_registered one_by_one).
  repeat constructor; discriminate.
Defined.

(** Once shutdown is initiated a step other than [run()] forks no
    worker. *)
Lemma step_after_shutdown cfg st i :
  i <> Run -> shutdownInitiated st = true ->
  shutdownInitiated (step cfg st i) = true /\
  length (workers (step cfg st i)) <= length (workers st) /\
  nextWorkerId (step cfg st i) = nextWorkerId st.
Proof.
  intros Hi Hs. destruct i; simpl; try congruence; auto.
  - unfold invokeCommand. simpl.
    match goal with |- context [startMessage cfg rnd ?s] =>
      destruct (startMessage_frame cfg rnd s) as (_ & -> & -> & _ & _ & ->) end.
    simpl. auto.
  - unfold invokeEvent. simpl.
    match goal with |- context [startMessage cfg rnd ?s] =>
      destruct (startMessage_frame cfg rnd s) as (_ & -> & -> & _ & _ & ->) end.
    simpl. auto.
  - destruct (onWorkerMessage_outside cfg w msg listenersOk rnd st)
      as (-> & -> & _ & _ & ->). auto.
  - unfold cluster_online.
    match goal with |- context [startMessage cfg rnd ?s] =>
      destruct (startMessage_frame cfg rnd s) as (_ & -> & -> & _ & _ & ->) end.
    simpl. auto.
  - unfold cluster_exit. cbn [shutdownInitiated set_workers]. rewrite Hs.
    rewrite andb_false_r. simpl. repeat split; auto. apply filter_length_le.
  - destruct (reportQueueLength_frame cfg st) as (_ & _ & _ & _ & -> & -> & _ & _ & ->).
    auto.
Qed.

(** X8. Once the shutdown hook has run, shutdown stays initiated and
    no exiting worker is replaced: whatever happens afterwards, short
    of another [run()], the pool does not grow and the cluster forks
    no worker. *)
Theorem no_respawn_after_shutdown cfg st inputs :
  Forall (fun i => i <> Run) inputs ->
  let st' := fold_left (step cfg) inputs (shutdownHook st) in
  shutdownInitiated st' = true /\
  length (workers st') <= length (workers st) /\
  nextWorkerId st' = nextWorkerId st.
Proof.
  intros Hin st'. subst st'.
  assert (H0 : shutdownInitiated (shutdownHook st) = true /\
               length (workers (shutdownHook st)) <= length (workers st) /\
               nextWorkerId (shutdownHook st) = nextWorkerId st) by (simpl; auto).
  revert H0. generalize (shutdownHook st).
  induction Hin as [| i inputs Hi _ IH]; intros s (Hs & Hl & Hn); simpl; [auto |].
  destruct (step_after_shutdown cfg s i Hi Hs) as (Hs' & Hl' & Hn').
  apply IH. repeat split; [exact Hs' | lia | congruence].
Qed.

(** The only worker crashes after the shutdown hook has run: the pool
    is left empty. *)
Lemma no_respawn_after_shutdown_witness :
  length (workers (fold_left (step one_by_one) [ClusterExit 1 1]
                     (shutdownHook (run_inputs one_by_one [Run])))) <= 1 /\
  workers (fold_left (step one_by_one) [ClusterExit 1 1]
             (shutdownHook (run_inputs one_by_one [Run]))) = [].
Proof.
  split; [| reflexivity].
  apply (no_respawn_after_shutdown one_by_one (run_inputs one_by_one [Run])
           [ClusterExit 1 1]).
  repeat constructor; discriminate.
Defined.

Lemma filter_one_out (ws : list Worker) w :
  NoDup (map id ws) -> w ∈ map id ws ->
  S (length (List.filter (fun x => negb (id x =? w)) ws)) = length ws /\
  w ∉ map id (List.filter (fun x => negb (id x =? w)) ws).
Proof.
  induction ws as [| x ws IH]; intros Hnd Hin; [inversion Hin |].
  simpl in *. apply NoDup_cons in Hnd as [Hx Hnd].
  destruct (id x =? w) eqn:E; simpl.
  - apply Nat.eqb_eq in E. subst w.
    assert (Hall : List.filter (fun y => negb (id y =? id x)) ws = ws).
    { clear IH Hin Hnd. induction ws as [| y ws IH]; [reflexivity |]. simpl in *.
      apply not_elem_of_cons in Hx as [Hne Hx].
      destruct (id y =? id x) eqn:E; [apply Nat.eqb_eq in E; congruence |].
      simpl. now rewrite IH. }
    rewrite Hall. auto.
  - apply Nat.eqb_neq in E. apply elem_of_cons in Hin as [-> | Hin]; [congruence |].
    destruct (IH Hnd Hin) as [Hl Hn]. split; [lia |].
    apply not_elem_of_cons. auto.
Qed.

(** X9. When a worker of the pool exits, the exit handler takes no
    entry out of the tables and settles nothing: what that worker was
    given stays tracked until the next assignment pass. If the exit
    code is not 0 and shutdown has not been initiated, one new worker
    with a fresh id takes its place and the pool keeps its size;
    otherwise the pool is one worker smaller. *)
Theorem exit_replaces_worker cfg st w code :
  reachable cfg st ->
  w ∈ map id (workers st) ->
  let st' := cluster_exit w code st in
  (w ∉ map id (workers st')) /\
  commands st' = commands st /\ events st' = events st /\
  messages st' = messages st /\ deferreds st' = deferreds st /\
  (if negb (code =? 0)%Z && negb (shutdownInitiated st)
   then length (workers st') = length (workers st) /\
        {| id := nextWorkerId st; isConnected := true |} ∈ workers st' /\
        nextWorkerId st ∉ map id (workers st)
   else S (length (workers st')) = length (workers st)).
Proof.
  intros Hreach Hin st'. subst st'.
  destruct (reachable_ok cfg st Hreach) as [[Hnd Hlt] _].
  destruct (filter_one_out (workers st) w Hnd Hin) as [Hlen Hout].
  assert (Hfresh : nextWorkerId st ∉ map id (workers st)).
  { intros H. apply list_elem_of_In, in_map_iff in H as (x & Hx & Hxin).
    rewrite Forall_forall in Hlt. apply list_elem_of_In in Hxin.
    specialize (Hlt x Hxin). simpl in Hlt. lia. }
  unfold cluster_exit. cbn [shutdownInitiated set_workers].
  destruct (negb (code =? 0)%Z && negb (shutdownInitiated st)); simpl.
  - repeat split; auto.
    + rewrite map_app. simpl. intros H. apply elem_of_app in H as [H | H];
        [contradiction |]. apply list_elem_of_singleton in H. subst w. contradiction.
    + rewrite length_app. simpl. lia.
    + apply elem_of_app. right. left.
  - repeat split; auto.
Qed.

(** Worker 1 crashes while it holds A and B: worker 2 takes its place,
    and A and B are still in the table. *)
Lemma exit_replaces_worker_witness :
  let st := run_inputs two_at_a_time second_waits in
  let st' := cluster_exit 1 1 st in
  map id (workers st') = [2] /\ JsMap.keys (commands st') = ["A"; "B"]%string.
Proof.
  intros st st'.
  destruct (exit_replaces_worker two_at_a_time st 1 1
              (reachable_run_inputs two_at_a_time second_waits))
    as (_ & Hc & _).
  { apply list_elem_of_here. }
  split; [reflexivity |]. unfold st'. now rewrite Hc.
Defined.

(** * The purge as a filter *)


Lemma delete_all_filter dead : forall (table : JsMap.t PendingEntry),
  delete_all dead table =
  List.filter (fun kv => negb (existsb (String.eqb (fst kv)) dead)) table.
Proof.
  induction dead as [| k dead IH]; intros table; simpl.
  - induction table as [| kv table IHt]; [reflexivity |]. simpl. now rewrite <- IHt.
  - rewrite IH. unfold JsMap.delete. rewrite filter_both.
    apply filter_ext. intros kv. rewrite negb_orb, (String.eqb_sym k). reflexivity.
Qed.

Lemma existsb_elem (k : string) l : existsb (String.eqb k) l = true <-> k ∈ l.
Proof.
  rewrite existsb_exists. split.
  - intros (x & Hx & E). apply String.eqb_eq in E. subst x. now apply list_elem_of_In.
  - intros H. exists k. split; [now apply list_elem_of_In | apply String.eqb_refl].
Qed.

(** On a table that holds each key once, the purge keeps exactly the
    entries of the given workers. *)
Lemma purge_filter (table : JsMap.t PendingEntry) ws :
  NoDup (JsMap.keys table) ->
  delete_all (snd (scan table ws [])) table =
  List.filter (fun kv => existsb (Nat.eqb (worker (snd kv))) (worker_ids ws)) table.
Proof.
  intros Hnd. rewrite delete_all_filter. apply filter_ext_in. intros [k e] Hin. simpl.
  apply list_elem_of_In in Hin.
  destruct (existsb (Nat.eqb (worker e)) (worker_ids ws)) eqn:El.
  - apply negb_true_iff. apply not_true_is_false. rewrite existsb_elem, scan_dead.
    intros [H | (e' & Hin' & Hdead)]; [inversion H |].
    assert (e' = e) as ->.
    { apply (elem_get _ _ _ Hnd) in Hin, Hin'. congruence. }
    apply Hdead. apply existsb_exists in El as (x & Hx & E).
    apply Nat.eqb_eq in E. subst x. now apply list_elem_of_In.
  - apply negb_false_iff. rewrite existsb_elem, scan_dead. right. exists e.
    split; [exact Hin |]. intros H. apply not_true_iff_false in El. apply El.
    apply existsb_exists. exists (worker e).
    split; [now apply list_elem_of_In | apply Nat.eqb_refl].
Qed.

Lemma assignWorker_filter cfg rnd st :
  keys_ok st ->
  events (fst (assignWorker cfg rnd st)) =
    List.filter (fun kv => is_live st (worker (snd kv))) (events st) /\
  commands (fst (assignWorker cfg rnd st)) =
    List.filter (fun kv => is_live st (worker (snd kv))) (commands st).
Proof.
  intros [Hc He]. destruct (assignWorker_tables cfg rnd st) as [-> ->].
  rewrite !purge_filter by assumption. rewrite scan_ids. auto.
Qed.





(** * Capacity of the pool *)











(** * Kinds of incoming payload *)

Section Payloads.

Import Incoming.

(** X12. A payload with a truthy [command] is a command whatever else
    it carries: its workspace id is read from [team] alone and the
    master builds a command client for it. A payload of neither kind
    is the only one without a workspace id, and the only one the
    master builds no message client for. *)
Theorem command_takes_precedence (event : Payload) :
  (isCommandIncoming event = true ->
     forall d x,
       let event' := {| command := command event; data := d;
                        team := team event; extensions := x |} in
       workspaceId event' = workspaceId event /\
       createMessageClient event' =
         Some (WebSocketCommandMessageClient event' Lifecycle)) /\
  (createMessageClient event = None <-> workspaceId event = Returns None) /\
  (createMessageClient event = None <->
     isCommandIncoming event = false /\ isEventIncoming event = false).
Proof.
  unfold workspaceId, createMessageClient, isCommandIncoming, isEventIncoming.
  split; [| split].
  - intros Hc d x. simpl. rewrite Hc. auto.
  - destruct (truthy (command event)).
    + split; [discriminate |]. destruct (team event); discriminate.
    + destruct (truthy (data event)); [| tauto].
      split; [discriminate |]. destruct (extensions event); discriminate.
  - destruct (truthy (command event)), (truthy (data event));
      split; try discriminate; try tauto; intros [? ?]; discriminate.
Qed.

(** X13. An [ExpressMessageClient] passes [respond] and [send] on,
    once and unchanged, to a client of the kind the master would build
    for the payload, on the web socket found when it was constructed;
    it drops them exactly when there was no web socket then or the
    payload is of neither kind. *)
Theorem express_client_forwards_or_drops handler event msg destinations options :
  let c := new_ExpressMessageClient handler event in
  let socket := match handler with Some h => webSocket h | None => None end in
  match socket, createMessageClient event with
  | Some ws, Some (WebSocketCommandMessageClient e _) =>
      respond c msg options =
        [Respond (WebSocketCommandMessageClient e (Socket ws)) msg options] /\
      send c msg destinations options =
        [Send (WebSocketCommandMessageClient e (Socket ws)) msg destinations options] /\
      e = event
  | Some ws, Some (WebSocketEventMessageClient e _) =>
      respond c msg options =
        [Respond (WebSocketEventMessageClient e (Socket ws)) msg options] /\
      send c msg destinations options =
        [Send (WebSocketEventMessageClient e (Socket ws)) msg destinations options] /\
      e = event
  | _, _ => respond c msg options = [] /\ send c msg destinations options = []
  end.
Proof.
  intros c socket. subst c socket.
  unfold respond, send, new_ExpressMessageClient, createMessageClient. simpl.
  destruct handler as [[[ws |]] |]; simpl;
    destruct (isCommandIncoming event); simpl; auto;
    destruct (isEventIncoming event); simpl; auto.
Qed.

End Payloads.

(** * Combining repository filters *)

Section Filters.

Import RepoFilters.

(** X14. [andFilter] is associative and has [AllRepos] as its left
    unit; a repository the first filter refuses at once is refused
    with that verdict, and for two filters that answer at once the
    verdict is the conjunction of theirs. *)
Theorem andFilter_laws (a b c : RepoFilter) (r : RepoId) :
  andFilter AllRepos a r = a r /\
  andFilter (andFilter a b) c r = andFilter a (andFilter b c) r /\
  (a r = Now false -> andFilter a b r = Now false) /\
  (forall x y, a r = Now x -> b r = Now y -> andFilter a b r = Now (x && y)).
Proof.
  unfold andFilter, AllRepos. simpl. repeat split.
  - destruct (a r) as [[|] | p]; simpl; try reflexivity; destruct (truthy (b r)); reflexivity.
  - intros ->. reflexivity.
  - intros x y -> ->. destruct x; reflexivity.
Qed.

(** X15. A promise is truthy, so [andFilter] never waits for a
    promised verdict of its first filter: the second filter decides
    alone, also when the promise resolves to [false] or rejects. In
    particular [AllRepos] is no right unit. *)
Theorem andFilter_ignores_promised_verdict (a b : RepoFilter) (r : RepoId) p :
  a r = Promised p ->
  andFilter a b r = b r /\ andFilter a AllRepos r = Now true /\
  andFilter a AllRepos r <> a r.
Proof.
  intros H. unfold andFilter, AllRepos. rewrite H. simpl.
  repeat split. discriminate.
Qed.

Lemma andFilter_ignores_promised_verdict_witness :
  let a : RepoFilter := fun r => Promised (Resolves false) in
  let r := {| owner := "atomist"; repo := "automation-client" |} in
  andFilter a AllRepos r = Now true.
Proof.
  intros a r.
  exact (proj1 (proj2 (andFilter_ignores_promised_verdict a AllRepos r
                         (Resolves false) eq_refl))).
Defined.

End Filters.

(** * The visibility setting *)

(** X16. [visibility()] returns nothing but ["public"] and
    ["private"]; with the variable unset or empty it returns
    ["private"]; it throws exactly when the variable holds another
    text, also one that differs by case or by spaces only. *)
Theorem visibility_public_or_private (env : option string) :
  (forall v, Credentials.visibility env = Returns v ->
     v = "public"%string \/ v = "private"%string) /\
  (env = None \/ env = Some EmptyString ->
     Credentials.visibility env = Returns "private"%string) /\
  ((exists e, Credentials.visibility env = Throws e) <->
   exists s, env = Some s /\ s <> EmptyString /\
             s <> "public"%string /\ s <> "private"%string).
Proof.
  unfold Credentials.visibility. split; [| split].
  - intros v. cbv zeta.
    destruct (String.eqb_spec
                match env with
                | Some s => if String.eqb s EmptyString then "private"%string else s
                | None => "private"%string
                end "public") as [-> | _]; simpl.
    + intros [= <-]. auto.
    + destruct (String.eqb_spec
                  match env with
                  | Some s => if String.eqb s EmptyString then "private"%string else s
                  | None => "private"%string
                  end "private") as [-> | _]; [| discriminate].
      intros [= <-]. auto.
  - intros [-> | ->]; reflexivity.
  - destruct env as [s |]; cbv zeta.
    + destruct (String.eqb_spec s EmptyString) as [-> | Hne].
      * simpl. split; [intros [e H]; discriminate |].
        intros (s & [= <-] & H & _). contradiction.
      * destruct (String.eqb_spec s "public") as [-> | Hpub]; simpl.
        { split; [intros [e H]; discriminate |].
          intros (s & [= <-] & _ & H & _). contradiction. }
        destruct (String.eqb_spec s "private") as [-> | Hpriv]; simpl.
        { split; [intros [e H]; discriminate |].
          intros (s & [= <-] & _ & _ & H). contradiction. }
        split; [| eauto]. intros _. exists s. auto.
    + simpl. split; [intros [e H]; discriminate |]. intros (s & H & _). discriminate.
Qed.

(** * Promises nobody holds any more *)

Lemma submseteq_NoDup_l {B} (l k : list B) : l ⊆+ k -> NoDup k -> NoDup l.
Proof.
  intros Hsub Hnd. apply submseteq_Permutation in Hsub as [k' Hk].
  rewrite Hk in Hnd. now apply NoDup_app in Hnd as [? _].
Qed.

Lemma map_filter_submseteq {B C} (f : B -> C) P l :
  map f (List.filter P l) ⊆+ map f l.
Proof.
  induction l as [| x l IH]; simpl; [constructor |].
  destruct (P x); simpl; [now apply submseteq_skip | now apply submseteq_cons].
Qed.

Lemma set_refs k e (table : JsMap.t PendingEntry) :
  map promise_of_entry (JsMap.set k e table) ⊆+
  result (entry_dispatched e) :: map promise_of_entry table.
Proof.
  induction table as [| [k0 e0] table IH]; simpl.
  - reflexivity.
  - destruct (String.eqb k k0); simpl.
    + apply submseteq_skip. now apply submseteq_cons.
    + etransitivity; [apply submseteq_skip, IH |]. apply Permutation_submseteq, perm_swap.
Qed.

Lemma delete_refs k e : forall (table : JsMap.t PendingEntry),
  NoDup (JsMap.keys table) -> JsMap.get k table = Some e ->
  map promise_of_entry table ≡ₚ
  result (entry_dispatched e) :: map promise_of_entry (JsMap.delete k table).
Proof.
  induction table as [| [k0 e0] table IH]; intros Hnd Hget; [discriminate |].
  simpl in Hnd. apply NoDup_cons in Hnd as [Hk0 Hnd].
  unfold JsMap.delete in *. simpl in *. destruct (String.eqb_spec k k0) as [-> | Hne].
  - injection Hget as ->. simpl. apply Permutation_cons; [reflexivity |].
    change (List.filter _ table) with (JsMap.delete k0 table).
    rewrite delete_absent; [reflexivity |].
    destruct (JsMap.get k0 table) as [e' |] eqn:E; [| reflexivity].
    exfalso. apply Hk0. apply get_Some_elem in E.
    apply list_elem_of_In. apply in_map_iff. exists (k0, e').
    split; [reflexivity | now apply list_elem_of_In].
  - simpl. rewrite (IH Hnd Hget). apply perm_swap.
Qed.

Lemma settle_other d d' s store :
  d' <> d -> settle d s store !! d' = store !! d'.
Proof.
  intros Hne. unfold settle. destruct (store !! d) as [[| |] |]; try reflexivity.
  now apply list_lookup_insert_ne.
Qed.

Lemma settle_length d s store : length (settle d s store) = length store.
Proof.
  unfold settle. destruct (store !! d) as [[| |] |]; try reflexivity.
  apply length_insert.
Qed.

Lemma keeps_trans a b c : keeps a b -> keeps b c -> keeps a c.
Proof.
  intros (_ & Hlen & Hab) (Hok & Hlen' & Hbc). split; [exact Hok |]. split; [lia |].
  intros d Hd Hnot. destruct (Hab d Hd Hnot) as [Hnot' <-].
  apply Hbc; [lia | exact Hnot'].
Qed.

(** A step that lets go of deferreds and settles none. *)
Lemma keeps_narrow s s' :
  refs_ok s -> referenced s' ⊆+ referenced s -> deferreds s' = deferreds s ->
  keeps s s'.
Proof.
  intros [Hnd Hp] Hsub Hd. split; [split |].
  - now apply (submseteq_NoDup_l _ _ Hsub).
  - intros d Hin. rewrite Hd. apply Hp. now apply (elem_of_submseteq _ _ _ Hin).
  - rewrite Hd. split; [lia |]. intros d _ Hnot. split; [| reflexivity].
    intros Hin. apply Hnot. now apply (elem_of_submseteq _ _ _ Hin).
Qed.

Lemma purged_refs_narrow st : purged_refs st ⊆+ referenced st.
Proof.
  unfold purged_refs, referenced.
  apply submseteq_app; [reflexivity |].
  apply submseteq_app; apply map_filter_submseteq.
Qed.

Lemma track_refs w m st :
  map promise_of_entry (commands (track w m st)) ++
  map promise_of_entry (events (track w m st)) ⊆+
  promise_of_item m ::
    map promise_of_entry (commands st) ++ map promise_of_entry (events st).
Proof.
  unfold track.
  destruct (String.eqb (type (message m)) "atomist:command");
    [| destruct (String.eqb (type (message m)) "atomist:event")]; simpl.
  - change (promise_of_item m :: ?a ++ ?b) with ((promise_of_item m :: a) ++ b).
    apply submseteq_app; [apply set_refs | reflexivity].
  - etransitivity; [apply submseteq_app; [reflexivity | apply set_refs] |].
    simpl. apply Permutation_submseteq. symmetry. apply Permutation_middle.
  - now apply submseteq_cons.
Qed.

(** What [startMessage] still holds: on an empty queue what the state
    held, otherwise no more than the queue and the entries of live
    workers. *)
Lemma startMessage_refs cfg rnd s :
  ordered (messages s) -> keys_ok s ->
  (messages s = [] /\ referenced (startMessage cfg rnd s) = referenced s) \/
  (messages s <> [] /\ referenced (startMessage cfg rnd s) ⊆+ purged_refs s).
Proof.
  intros Hord Hk.
  assert (Hrep : forall x, referenced (reportQueueLength cfg x) = referenced x).
  { intros x. unfold referenced.
    now destruct (reportQueueLength_frame cfg x) as (-> & -> & -> & _). }
  destruct (assignWorker_filter cfg rnd s Hk) as [He Hc].
  destruct (assignWorker_frame cfg rnd s) as (Hm & _).
  destruct (startMessage_cases cfg rnd s)
    as [[Hnil E] | [(Hne & _ & E) | (Hne & w & m & q & _ & Hpop & E)]]; rewrite E, Hrep.
  - left. auto.
  - right. split; [exact Hne |]. unfold referenced, purged_refs.
    rewrite Hm, He, Hc. reflexivity.
  - right. split; [exact Hne |].
    destruct (TinyQueueFacts.pop_spec compareMessages compareMessages_trans
                compareMessages_total _ _ _ Hord Hpop) as (_ & _ & Hperm).
    unfold sent, referenced, purged_refs. simpl.
    destruct (track_frame w m
                (emit (NamespaceSet (message_context (message m)))
                   (set_messages q (fst (assignWorker cfg rnd s))))) as (-> & _).
    simpl. rewrite Hperm. simpl.
    etransitivity;
      [apply submseteq_skips_l, track_refs |].
    simpl. rewrite He, Hc.
    apply Permutation_submseteq. symmetry. apply Permutation_middle.
Qed.

Lemma startMessage_keeps_refs cfg rnd s :
  ordered (messages s) -> keys_ok s -> refs_ok s -> keeps s (startMessage cfg rnd s).
Proof.
  intros Hord Hk Hok. destruct (startMessage_frame cfg rnd s) as (Hd & _).
  apply keeps_narrow; [exact Hok | | exact Hd].
  destruct (startMessage_refs cfg rnd s Hord Hk) as [[_ ->] | [_ H]]; [reflexivity |].
  etransitivity; [exact H | apply purged_refs_narrow].
Qed.

(** A state that differs in its trace, its pool or its session only. *)
Lemma keeps_same s s' :
  refs_ok s -> messages s' = messages s -> commands s' = commands s ->
  events s' = events s -> deferreds s' = deferreds s -> keeps s s'.
Proof.
  intros Hok Hm Hc He Hd. apply keeps_narrow; [exact Hok | | exact Hd].
  unfold referenced. now rewrite Hm, Hc, He.
Qed.

(** Submission: a fresh deferred, held by the new item. *)
Lemma submit_keeps item s :
  refs_ok s -> result (dispatched item) = length (deferreds s) ->
  keeps s (set_messages (TinyQueue.push compareMessages item (messages s))
             (set_deferreds (deferreds s ++ [Pending]) s)).
Proof.
  intros [Hnd Hp] Hfresh.
  assert (Hlt : forall d, d ∈ referenced s -> d < length (deferreds s)).
  { intros d Hin. apply Hp in Hin. now apply lookup_lt_Some in Hin. }
  assert (Hrefs : referenced (set_messages (TinyQueue.push compareMessages item (messages s))
                               (set_deferreds (deferreds s ++ [Pending]) s))
                  ≡ₚ length (deferreds s) :: referenced s).
  { unfold referenced. simpl.
    rewrite (TinyQueueFacts.push_perm compareMessages). simpl.
    unfold promise_of_item at 1. now rewrite Hfresh. }
  split; [split |].
  - rewrite Hrefs. apply NoDup_cons. split; [| exact Hnd].
    intros Hin. apply Hlt in Hin. lia.
  - intros d. rewrite Hrefs. simpl. intros Hin. apply elem_of_cons in Hin as [-> | Hin].
    + rewrite lookup_app_r by lia. now rewrite Nat.sub_diag.
    + rewrite lookup_app_l by now apply Hlt. now apply Hp.
  - simpl. rewrite length_app. simpl. split; [lia |]. intros d Hd Hnot. split.
    + rewrite Hrefs. intros Hin. apply elem_of_cons in Hin as [-> | Hin]; [lia | auto].
    + now rewrite lookup_app_l.
Qed.

(** An outcome: the deferred of the entry is settled and let go. *)
Lemma settle_keeps (of_command : bool) d0 v0 k v s :
  keys_ok s -> refs_ok s ->
  keeps s ((if of_command then settle_commands else settle_events)
             (fun d w => settle d (d0 w)) k v s) /\
  keeps s ((if of_command then settle_commands else settle_events)
             (fun d w => settle d (v0 w)) k v s).
Proof.
  intros [Hkc Hke] Hok.
  assert (Hgen : forall f : WorkerData -> DeferredState,
            keeps s ((if of_command then settle_commands else settle_events)
                       (fun d w => settle d (f w)) k v s)).
  { intros f. destruct Hok as [Hnd Hp]. destruct of_command.
    - unfold settle_commands. unfold JsMap.has.
      destruct (JsMap.get k (commands s)) as [e |] eqn:E;
        [| apply keeps_same; [split |..]; auto].
      assert (Hperm : referenced s ≡ₚ result (entry_dispatched e) ::
                 referenced (set_commands (JsMap.delete k (commands s))
                   (set_deferreds (settle (result (entry_dispatched e)) (f v) (deferreds s)) s))).
      { unfold referenced. simpl. rewrite (delete_refs k e _ Hkc E).
        symmetry. apply Permutation_middle. }
      rewrite Hperm in Hnd. apply NoDup_cons in Hnd as [Hd0 Hnd].
      split; [split |]; simpl.
      + exact Hnd.
      + intros d Hin. rewrite settle_other by (intros ->; contradiction).
        apply Hp. rewrite Hperm. now apply list_elem_of_further.
      + rewrite settle_length. split; [lia |]. intros d _ Hnot. split.
        * intros Hin. apply Hnot. rewrite Hperm. now apply list_elem_of_further.
        * apply settle_other. intros ->. apply Hnot. rewrite Hperm. apply list_elem_of_here.
    - unfold settle_events. unfold JsMap.has.
      destruct (JsMap.get k (events s)) as [e |] eqn:E;
        [| apply keeps_same; [split |..]; auto].
      assert (Hperm : referenced s ≡ₚ result (entry_dispatched e) ::
                 referenced (set_events (JsMap.delete k (events s))
                   (set_deferreds (settle (result (entry_dispatched e)) (f v) (deferreds s)) s))).
      { unfold referenced. simpl. rewrite (delete_refs k e _ Hke E).
        rewrite !app_assoc. symmetry. apply Permutation_middle. }
      rewrite Hperm in Hnd. apply NoDup_cons in Hnd as [Hd0 Hnd].
      split; [split |]; simpl.
      + exact Hnd.
      + intros d Hin. rewrite settle_other by (intros ->; contradiction).
        apply Hp. rewrite Hperm. now apply list_elem_of_further.
      + rewrite settle_length. split; [lia |]. intros d _ Hnot. split.
        * intros Hin. apply Hnot. rewrite Hperm. now apply list_elem_of_further.
        * apply settle_other. intros ->. apply Hnot. rewrite Hperm. apply list_elem_of_here. }
  split; apply Hgen.
Qed.

Lemma run_deferreds cfg st : deferreds (run cfg st) = deferreds st.
Proof. unfold run. induction (numWorkers cfg) as [| n IH]; [reflexivity | exact IH]. Qed.

Lemma keys_ok_emit x st : keys_ok st -> keys_ok (emit x st).
Proof. intros H. exact H. Qed.

Lemma step_keeps cfg st i :
  built (messages st) -> keys_ok st -> refs_ok st -> keeps st (step cfg st i).
Proof.
  intros Hb Hk Hok.
  assert (Hstart : forall rnd s, messages s = messages st -> commands s = commands st ->
            events s = events st -> deferreds s = deferreds st ->
            keeps st (startMessage cfg rnd s)).
  { intros rnd s Hm Hc He Hd.
    assert (Hs : keeps st s) by now apply keeps_same.
    apply (keeps_trans _ s); [exact Hs |].
    apply startMessage_keeps_refs; [| | apply Hs].
    - rewrite Hm. now apply built_ordered.
    - unfold keys_ok. now rewrite Hc, He. }
  assert (Hsame : forall s, messages s = messages st -> commands s = commands st ->
            events s = events st -> deferreds s = deferreds st -> keeps st s)
    by (intros; now apply keeps_same).
  assert (Hsubmit : forall rnd item s0,
            result (dispatched item) = length (deferreds st) ->
            s0 = emit (Callback (length (deferreds st)))
                   (set_messages (TinyQueue.push compareMessages item (messages st))
                      (set_deferreds (deferreds st ++ [Pending]) st)) ->
            keeps st (startMessage cfg rnd s0)).
  { intros rnd item s0 Hfresh ->.
    pose proof (submit_keeps item st Hok Hfresh) as Hs.
    set (s1 := set_messages (TinyQueue.push compareMessages item (messages st))
                 (set_deferreds (deferreds st ++ [Pending]) st)) in *.
    assert (Hs0 : keeps s1 (emit (Callback (length (deferreds st))) s1))
      by (apply keeps_same; [apply Hs | reflexivity..]).
    apply (keeps_trans _ s1); [exact Hs |].
    apply (keeps_trans _ (emit (Callback (length (deferreds st))) s1)); [exact Hs0 |].
    apply startMessage_keeps_refs.
    - simpl. apply built_ordered. now apply built_push.
    - exact Hk.
    - apply Hs0. }
  assert (Hsettle : forall rnd (of_command : bool) (f : WorkerData -> DeferredState) k v s,
            messages s = messages st -> commands s = commands st ->
            events s = events st -> deferreds s = deferreds st ->
            keeps st (startMessage cfg rnd
                        (emit NamespaceClear
                           ((if of_command then settle_commands else settle_events)
                              (fun d w => settle d (f w)) k v s)))).
  { intros rnd of_command f k v s Hm Hc He Hd.
    assert (Hs : keeps st s) by now apply keeps_same.
    assert (Hks : keys_ok s) by (unfold keys_ok; now rewrite Hc, He).
    pose proof (proj1 (settle_keeps of_command f f k v s Hks (proj1 Hs))) as Hset.
    set (s1 := (if of_command then settle_commands else settle_events)
                 (fun d w => settle d (f w)) k v s) in *.
    assert (Hk1 : keys_ok s1).
    { subst s1. destruct Hks as [Hkc Hke]. unfold keys_ok.
      destruct of_command.
      - destruct (settle_commands_frame (fun d w => settle d (f w)) k v s)
          as (_ & _ & -> & [-> | ->]); split; auto using NoDup_keys_delete.
      - destruct (settle_events_frame (fun d w => settle d (f w)) k v s)
          as (_ & _ & -> & [-> | ->]); split; auto using NoDup_keys_delete. }
    assert (Hm1 : messages s1 = messages st).
    { subst s1. rewrite <- Hm. destruct of_command.
      - apply (settle_commands_outside _ k v s).
      - apply (settle_events_outside _ k v s). }
    assert (Hs2 : keeps s1 (emit NamespaceClear s1))
      by (apply keeps_same; [apply Hset | reflexivity..]).
    apply (keeps_trans _ s); [exact Hs |].
    apply (keeps_trans _ s1); [exact Hset |].
    apply (keeps_trans _ (emit NamespaceClear s1)); [exact Hs2 |].
    apply startMessage_keeps_refs.
    - simpl. rewrite Hm1. now apply built_ordered.
    - exact Hk1.
    - apply Hs2. }
  destruct i; simpl.
  - apply Hsame; [apply run_messages | apply run_tables | apply run_tables |
                  apply run_deferreds].
  - unfold invokeCommand. simpl. eapply Hsubmit; [| reflexivity]. reflexivity.
  - unfold invokeEvent. simpl. eapply Hsubmit; [| reflexivity]. reflexivity.
  - by_kind t; try (apply Hsame; reflexivity).
    + destruct (if JsMap.has _ _ then _ else _) as [e |];
        [destruct (destinations _) as [[| d ds] |] |]; apply Hsame; reflexivity.
    + apply (Hsettle rnd true Resolved); destruct listenersOk; reflexivity.
    + apply (Hsettle rnd true Rejected); destruct listenersOk; reflexivity.
    + apply (Hsettle rnd false Resolved); destruct listenersOk; reflexivity.
    + apply (Hsettle rnd false Rejected); destruct listenersOk; reflexivity.
  - unfold cluster_online. apply Hstart; reflexivity.
  - apply Hsame; reflexivity.
  - unfold cluster_exit. destruct (_ && _); apply Hsame; reflexivity.
  - destruct (reportQueueLength_frame cfg st) as (Hm & Hc & He & Hd & _).
    now apply Hsame.
  - apply Hsame; reflexivity.
  - apply Hsame; reflexivity.
  - apply Hsame; reflexivity.
  - apply Hsame; reflexivity.
Qed.

Lemma reachable_refs_ok cfg st : reachable cfg st -> refs_ok st.
Proof.
  induction 1 as [| st i Hreach IH].
  - split; [constructor |]. intros d Hin. inversion Hin.
  - apply (step_keeps cfg st i);
      [now apply (reachable_built cfg) | now apply (reachable_keys_ok cfg) | exact IH].
Qed.






(** X18. In every state the master can reach, the queued items and
    the entries of the two tables each hold a deferred of their own,
    and every deferred held is still pending: the master settles a
    deferred only as it lets go of it. *)
Theorem promises_held_once_and_pending cfg st :
  reachable cfg st ->
  NoDup (referenced st) /\
  (forall d, d ∈ referenced st -> deferreds st !! d = Some Pending) /\
  length (referenced st) =
    length (messages st) + JsMap.size (commands st) + JsMap.size (events st).
Proof.
  intros Hreach. destruct (reachable_refs_ok cfg st Hreach) as [Hnd Hp].
  split; [exact Hnd |]. split; [exact Hp |].
  unfold referenced, JsMap.size. rewrite !length_app, !length_map. lia.
Qed.

(** A and B are in flight on a worker that has exited, C and D wait:
    the four deferreds 0 to 3 are held once each. *)
Lemma promises_held_once_and_pending_witness :
  let st := run_inputs two_at_a_time worker_replaced in
  NoDup (referenced st) /\ length (referenced st) = 4.
Proof.
  intros st.
  destruct (promises_held_once_and_pending two_at_a_time st
              (reachable_run_inputs two_at_a_time worker_replaced)) as (Hnd & _ & Hlen).
  split; [exact Hnd |]. rewrite Hlen. vm_compute. reflexivity.
Defined.
